(** * Backup engine and health streamer of the tablet: a shallow embedding

    The development follows two source files of the repository:
    - [go/vt/mysqlctl/builtinbackupengine.go] (the builtin backup engine:
      [ExecuteBackup], [backupFiles], [backupPipe], [restoreFile], ...);
    - [go/vt/vttablet/tabletserver/health_streamer.go] (the health
      streamer: [register], [broadCastToClients], [ChangeState], [reload]).

    External collaborators (the MySQL daemon, the backup storage, the
    database connection) are interfaces in the source; their answers are
    read from explicit environment records, and the code that consumes the
    answers is transcribed as it is written. *)

From stdpp Require Import gmap strings list fin_maps pretty.
From Stdlib Require Import ZArith Strings.Byte Strings.Ascii.

Local Open Scope string_scope.
#[local] Set Warnings "-clear-no-such-hyp".

(* ===================================================================== *)
(** * Errors *)
(* ===================================================================== *)

Module vterrors.

(** The error kinds of [vtrpc.Code] that the two files use. *)
Inductive Code :=
| Code_OK
| Code_CANCELED
| Code_UNKNOWN
| Code_DEADLINE_EXCEEDED
| Code_FAILED_PRECONDITION
| Code_RESOURCE_EXHAUSTED
| Code_UNIMPLEMENTED
| Code_INTERNAL
| Code_UNAVAILABLE.

#[global] Instance Code_eq_dec : EqDecision Code.
Proof. solve_decision. Defined.

(** Go [error] values as the engine builds them.  [Errorf] is
    [vterrors.Errorf], [Wrap] is [vterrors.Wrap]/[Wrapf], [GoErrorf] is a
    [fmt.Errorf] around a sentinel ([%w]), [Plain] is any other error of
    the standard library, [ContextErr] is [ctx.Err()], and [Aggregate] is
    what an error recorder returns for the errors it has collected. *)
#[local] Set Warnings "-register-all".
Inductive error :=
| Errorf (c : Code) (msg : string)
| Wrap (cause : error) (msg : string)
| GoErrorf (sentinel : string) (msg : string)
| Plain (msg : string)
| ContextErr (deadline : bool)
| Aggregate (es : list error).

(** Modelled from the spec: [vterrors.Code] is not among the sources; the
    spec says that "user-visible failures are one-line text messages
    wrapping the chain; internal callers use the error kind", so a wrapped
    error has the kind of its cause, a context error is cancelled or
    deadline-exceeded, and an error without a kind is unknown. *)
Fixpoint CodeOf (e : error) : Code :=
  match e with
  | Errorf c _ => c
  | Wrap cause _ => CodeOf cause
  | GoErrorf _ _ => Code_UNKNOWN
  | Plain _ => Code_UNKNOWN
  | ContextErr false => Code_CANCELED
  | ContextErr true => Code_DEADLINE_EXCEEDED
  | Aggregate _ => Code_UNKNOWN
  end.

(** [errors.Is(e, sentinel)] for the one sentinel the engine wraps. *)
Fixpoint IsSentinel (s : string) (e : error) : bool :=
  match e with
  | GoErrorf s' _ => bool_decide (s = s')
  | Wrap cause _ => IsSentinel s cause
  | _ => false
  end.

(** The chain below an error: the error itself, its causes, and the
    members of an aggregate. *)
Inductive Carries (e0 : error) : error → Prop :=
| carries_here : Carries e0 e0
| carries_wrap cause msg : Carries e0 cause → Carries e0 (Wrap cause msg)
| carries_aggr es e : e ∈ es → Carries e0 e → Carries e0 (Aggregate es).

End vterrors.
Import vterrors.

(** A Go result pair [(v, err)]. *)
Inductive result (A : Type) :=
| Ok (a : A)
| Err (e : error).
Arguments Ok {A} a.
Arguments Err {A} e.

(** The error of the first step that failed, for a run of steps each of
    which returns early on its error. *)
Fixpoint first_error (steps : list (option error)) : option error :=
  match steps with
  | [] => None
  | Some e :: _ => Some e
  | None :: rest => first_error rest
  end.

(** [vterrors.Wrap] on the error of a step, when it has one. *)
Definition wrap_step (r : option error) (msg : string) : option error :=
  match r with
  | None => None
  | Some e => Some (Wrap e msg)
  end.

(* ===================================================================== *)
(** * Goroutine outcomes *)
(* ===================================================================== *)

(** A call either returns, blocks for ever on a channel, or panics. *)
Inductive go (A : Type) :=
| Ret (a : A)
| Block
| Panic.
Arguments Ret {A} a.
Arguments Block {A}.
Arguments Panic {A}.

Definition go_bind {A B} (m : go A) (k : A → go B) : go B :=
  match m with
  | Ret a => k a
  | Block => Block
  | Panic => Panic
  end.

Notation "x ←go m ; k" := (go_bind m (fun x => k))
  (at level 100, m at next level, right associativity).

(* ===================================================================== *)
(** * The health streamer (health_streamer.go) *)
(* ===================================================================== *)

Module Health.

Inductive TabletType :=
| TabletType_UNKNOWN
| TabletType_PRIMARY
| TabletType_REPLICA
| TabletType_RDONLY.

#[global] Instance TabletType_eq_dec : EqDecision TabletType.
Proof. solve_decision. Defined.

Record Target := {
  Keyspace : string;
  Shard : string;
  TabletType_ : TabletType;
}.

(** [Qps] is a float in the source; only its transport matters here. *)
Record RealtimeStats := {
  HealthError : string;
  ReplicationLagSeconds : Z;
  FilteredReplicationLagSeconds : Z;
  BinlogPlayersCount : Z;
  Qps : Z;
  TableSchemaChanged : list string;
  ViewSchemaChanged : list string;
}.

Record StreamHealthResponse := {
  Target_ : Target;
  TabletAlias : string;
  Serving : bool;
  TabletExternallyReparentedTimestamp : Z;
  RealtimeStats_ : RealtimeStats;
}.

(** A buffered channel [chan *querypb.StreamHealthResponse]: its
    capacity, the values waiting in its buffer (oldest first) and whether
    [close] was called. *)
Record chan := {
  ch_cap : nat;
  ch_buf : list StreamHealthResponse;
  ch_closed : bool;
}.

(** [ch <- v]: blocks while the buffer is full, panics on a closed
    channel. *)
Definition send (c : chan) (v : StreamHealthResponse) : go chan :=
  if ch_closed c then Panic
  else if decide (length (ch_buf c) < ch_cap c)
       then Ret {| ch_cap := ch_cap c; ch_buf := ch_buf c ++ [v];
                   ch_closed := false |}
       else Block.

(** [select { case ch <- v: ... default: ... }]: [None] is the default
    branch. *)
Definition try_send (c : chan) (v : StreamHealthResponse) : go (option chan) :=
  if ch_closed c then Panic
  else if decide (length (ch_buf c) < ch_cap c)
       then Ret (Some {| ch_cap := ch_cap c; ch_buf := ch_buf c ++ [v];
                         ch_closed := false |})
       else Ret None.

(** [close(ch)]: panics when the channel is closed already. *)
Definition close (c : chan) : go chan :=
  if ch_closed c then Panic
  else Ret {| ch_cap := ch_cap c; ch_buf := ch_buf c; ch_closed := true |}.

(** [v, ok := <-ch] when a value is ready or the channel is closed;
    [Block] otherwise. *)
Definition recv (c : chan) : go (option StreamHealthResponse * chan) :=
  match ch_buf c with
  | v :: rest =>
      Ret (Some v, {| ch_cap := ch_cap c; ch_buf := rest;
                      ch_closed := ch_closed c |})
  | [] => if ch_closed c then Ret (None, c) else Block
  end.

(** The fields of [healthStreamer] that the broadcast path reads or
    writes.  [cancel] is [hs.cancel != nil]; [chans] is the heap of the
    channels that [make] has allocated, addressed by the keys of
    [clients]. *)
Record healthStreamer := {
  cancel : bool;
  clients : gset nat;
  chans : gmap nat chan;
  state : StreamHealthResponse;
  viewsEnabled : bool;
}.

Definition set_state (hs : healthStreamer) (s : StreamHealthResponse) :=
  {| cancel := cancel hs; clients := clients hs; chans := chans hs;
     state := s; viewsEnabled := viewsEnabled hs |}.

Definition set_chan (hs : healthStreamer) (ch : nat) (c : chan) :=
  {| cancel := cancel hs; clients := clients hs;
     chans := <[ch := c]> (chans hs); state := state hs;
     viewsEnabled := viewsEnabled hs |}.

Definition add_client (hs : healthStreamer) (ch : nat) :=
  {| cancel := cancel hs; clients := {[ch]} ∪ clients hs;
     chans := chans hs; state := state hs;
     viewsEnabled := viewsEnabled hs |}.

Definition delete_client (hs : healthStreamer) (ch : nat) :=
  {| cancel := cancel hs; clients := clients hs ∖ {[ch]};
     chans := chans hs; state := state hs;
     viewsEnabled := viewsEnabled hs |}.

Definition set_schema_changed (s : StreamHealthResponse)
    (tables views : list string) : StreamHealthResponse :=
  let rs := RealtimeStats_ s in
  {| Target_ := Target_ s; TabletAlias := TabletAlias s;
     Serving := Serving s;
     TabletExternallyReparentedTimestamp :=
       TabletExternallyReparentedTimestamp s;
     RealtimeStats_ :=
       {| HealthError := HealthError rs;
          ReplicationLagSeconds := ReplicationLagSeconds rs;
          FilteredReplicationLagSeconds := FilteredReplicationLagSeconds rs;
          BinlogPlayersCount := BinlogPlayersCount rs;
          Qps := Qps rs;
          TableSchemaChanged := tables;
          ViewSchemaChanged := views |} |}.

Section Streamer.

(** The flag [--stream_health_buffer_size]. *)
Variable streamHealthBufferSize : nat.

(** [register]: [None] for the channel is the [nil, nil] return of a
    streamer that is not open. *)
Definition register (hs : healthStreamer)
    : go (option nat * healthStreamer) :=
  if negb (cancel hs) then Ret (None, hs)
  else
    let ch := fresh (dom (chans hs)) in
    let c := {| ch_cap := streamHealthBufferSize; ch_buf := [];
                ch_closed := false |} in
    let hs := add_client (set_chan hs ch c) ch in
    (* Send the current state immediately. *)
    c' ←go send c (state hs);
    Ret (Some ch, set_chan hs ch c').

Definition unregister (hs : healthStreamer) (ch : nat) : healthStreamer :=
  delete_client hs ch.

(** The body of the loop of [broadCastToClients] for one client. *)
Definition broadcast_one (shr : StreamHealthResponse)
    (acc : go healthStreamer) (ch : nat) : go healthStreamer :=
  hs ←go acc;
  match chans hs !! ch with
  | None => Panic
  | Some c =>
      r ←go try_send c shr;
      match r with
      | Some c' => Ret (set_chan hs ch c')
      | None =>
          c' ←go close c;
          Ret (delete_client (set_chan hs ch c') ch)
      end
  end.

(** [for ch := range hs.clients { select {...} }]. *)
Definition broadCastToClients (shr : StreamHealthResponse)
    (hs : healthStreamer) : go healthStreamer :=
  foldl (broadcast_one shr) (Ret hs) (elements (clients hs)).

(** The arguments of [ChangeState], with the readings of [blpFunc()]
    and of the QPS rate that the source takes from its environment.
    [lag] is a [time.Duration] in nanoseconds; [healthErr] is [err]. *)
Record stateChange := {
  tabletType : TabletType;
  terTimestamp : Z;
  lag : Z;
  healthErr : option string;
  serving : bool;
  blp : Z * Z;
  qpsRate : Z;
}.

Definition ChangeState (a : stateChange) (hs : healthStreamer)
    : go healthStreamer :=
  let s := state hs in
  let s' :=
    {| Target_ := {| Keyspace := Keyspace (Target_ s);
                     Shard := Shard (Target_ s);
                     TabletType_ := tabletType a |};
       TabletAlias := TabletAlias s;
       Serving := serving a;
       TabletExternallyReparentedTimestamp :=
         if decide (tabletType a = TabletType_PRIMARY)
         then terTimestamp a else 0%Z;
       RealtimeStats_ :=
         {| HealthError := match healthErr a with
                           | Some m => m
                           | None => ""
                           end;
            ReplicationLagSeconds :=
              (Z.quot (lag a) 1000000000 mod 2 ^ 32)%Z;
            FilteredReplicationLagSeconds := fst (blp a);
            BinlogPlayersCount := snd (blp a);
            Qps := qpsRate a;
            TableSchemaChanged :=
              TableSchemaChanged (RealtimeStats_ s);
            ViewSchemaChanged :=
              ViewSchemaChanged (RealtimeStats_ s) |} |} in
  let hs := set_state hs s' in
  (* shr := proto.Clone(hs.state) *)
  broadCastToClients s' hs.

(** What the reload connection answers: the connection pool, the two
    streaming queries with the rows seen before a failure, and the
    statements of the two transactions. *)
Record reloadEnv := {
  conns_Get : option error;
  stream_tables : list string * option error;
  tables_begin : option error;
  tables_del : option error;
  tables_upd : option error;
  tables_commit : option error;
  stream_views : list string * option error;
  views_bind : option error;
  views_definition : option error;
  views_create_stmt : option error;
  views_update : option error;
}.

Definition getChangedTableNames (env : reloadEnv)
    : list string * option error :=
  let '(tables, err) := stream_tables env in
  match err with
  | Some e => ([], Some e)
  | None =>
      if decide (length tables = 0) then ([], None)
      else
        match first_error [tables_begin env; tables_del env;
                           tables_upd env; tables_commit env] with
        | Some e => ([], Some e)
        | None => (tables, None)
        end
  end.

(** Named results [(views, err)]: a failure after the first query
    returns the names collected so far together with the error. *)
Definition getChangedViewNames (hs : healthStreamer) (env : reloadEnv)
    : list string * option error :=
  if negb (viewsEnabled hs) then ([], None)
  else
    let '(views, err) := stream_views env in
    match err with
    | Some e => (views, Some e)
    | None =>
        if decide (length views = 0) then (views, None)
        else (views,
              first_error [views_bind env; views_definition env;
                           views_create_stmt env; views_update env])
    end.

Definition reload (env : reloadEnv) (hs : healthStreamer)
    : go (healthStreamer * option error) :=
  (* Schema Reload to happen only on primary. *)
  if decide (TabletType_ (Target_ (state hs)) ≠ TabletType_PRIMARY)
  then Ret (hs, None)
  else
    match conns_Get env with
    | Some e => Ret (hs, Some e)
    | None =>
        let '(tables, err) := getChangedTableNames env in
        match err with
        | Some e => Ret (hs, Some e)
        | None =>
            let '(views, err) := getChangedViewNames hs env in
            let early :=
              match err with
              | Some e => if decide (length tables = 0)
                          then Some e else None
              | None => None
              end in
            match early with
            | Some e => Ret (hs, Some e)
            | None =>
                (* making views to nil will prevent any views
                   notification *)
                let views := match err with
                             | Some _ => []
                             | None => views
                             end in
                if decide (length tables = 0 ∧ length views = 0)
                then Ret (hs, None)
                else
                  let hs :=
                    set_state hs
                      (set_schema_changed (state hs) tables views) in
                  hs ←go broadCastToClients (state hs) hs;
                  Ret (set_state hs
                         (set_schema_changed (state hs) [] []),
                       None)
            end
        end
    end.

(** A run of state changes, oldest first, with no receive between
    them. *)
Definition ChangeStates (changes : list stateChange)
    (hs : healthStreamer) : go healthStreamer :=
  foldl (fun acc a => hs ←go acc; ChangeState a hs) (Ret hs) changes.

End Streamer.

(** What one pass of the broadcast loop does to an open channel: the
    send when the buffer has room, the close otherwise. *)
Definition deliver (shr : StreamHealthResponse) (c : chan) : chan :=
  if decide (length (ch_buf c) < ch_cap c)
  then {| ch_cap := ch_cap c; ch_buf := ch_buf c ++ [shr];
          ch_closed := false |}
  else {| ch_cap := ch_cap c; ch_buf := ch_buf c; ch_closed := true |}.

Definition has_room (c : chan) : Prop := length (ch_buf c) < ch_cap c.

(** Every registered client has an allocated channel that is open. *)
Definition clients_open (hs : healthStreamer) : Prop :=
  ∀ ch, ch ∈ clients hs →
    ∃ c, chans hs !! ch = Some c ∧ ch_closed c = false.

(** The subscriber of channel [ch] is registered, its channel is open
    and holds [n] undelivered states. *)
Definition subscribed (hs : healthStreamer) (ch n : nat) : Prop :=
  ch ∈ clients hs ∧
  ∃ c, chans hs !! ch = Some c ∧ ch_closed c = false ∧
       length (ch_buf c) = n.

(** The channel [ch] was closed with [n] undelivered states in it and is
    no longer in the client set. *)
Definition dropped (hs : healthStreamer) (ch n : nat) : Prop :=
  (ch ∉ clients hs) ∧
  ∃ c, chans hs !! ch = Some c ∧ ch_closed c = true ∧
       length (ch_buf c) = n.

(** The subscriber that registers on [hs0] keeps an open channel through
    the first [k - 1] of the state changes and loses it at the [k]-th. *)
Definition closes_at (size : nat) (hs0 : healthStreamer)
    (changes : list stateChange) (k : nat) : Prop :=
  ∃ ch hs1,
    register size hs0 = Ret (Some ch, hs1) ∧
    (∀ j, j < k →
       ∃ hs' n, ChangeStates (take j changes) hs1 = Ret hs' ∧
                subscribed hs' ch n) ∧
    (∃ hs' n, ChangeStates (take k changes) hs1 = Ret hs' ∧
              dropped hs' ch n).

(** ** A concrete streamer

    An open streamer on a primary with no subscriber yet, five state
    changes with growing lag, and a reload connection on which the table
    query reports one changed table and the view query fails. *)

Definition example_state : StreamHealthResponse :=
  {| Target_ := {| Keyspace := "ks"; Shard := "-80";
                   TabletType_ := TabletType_PRIMARY |};
     TabletAlias := "zone1-100";
     Serving := true;
     TabletExternallyReparentedTimestamp := 0;
     RealtimeStats_ :=
       {| HealthError := "tabletserver uninitialized";
          ReplicationLagSeconds := 0;
          FilteredReplicationLagSeconds := 0;
          BinlogPlayersCount := 0;
          Qps := 0;
          TableSchemaChanged := [];
          ViewSchemaChanged := [] |} |}.

Definition example_streamer : healthStreamer :=
  {| cancel := true; clients := ∅; chans := ∅; state := example_state;
     viewsEnabled := true |}.

Definition example_change (seconds : Z) : stateChange :=
  {| tabletType := TabletType_PRIMARY; terTimestamp := 1700000000;
     lag := seconds * 1000000000; healthErr := None; serving := true;
     blp := (0, 0)%Z; qpsRate := 0 |}.

Definition five_changes : list stateChange :=
  example_change <$> [1; 2; 3; 4; 5]%Z.

Definition example_reload_env : reloadEnv :=
  {| conns_Get := None;
     stream_tables := (["t1"], None);
     tables_begin := None; tables_del := None;
     tables_upd := None; tables_commit := None;
     stream_views := ([], Some (Errorf Code_UNKNOWN "view query failed"));
     views_bind := None; views_definition := None;
     views_create_stmt := None; views_update := None |}.

End Health.

(* ===================================================================== *)
(** * The hashing pipe (builtinbackupengine.go, [backupPipe]) *)
(* ===================================================================== *)

Module Pipe.

Local Open Scope Z_scope.

(** ** CRC32-IEEE and its hex rendering ([hash/crc32], [encoding/hex]) *)

Definition crc32_bit (c : Z) : Z :=
  if Z.testbit c 0 then Z.lxor (Z.shiftr c 1) 0xEDB88320
  else Z.shiftr c 1.

Definition crc32_byte (c : Z) (b : byte) : Z :=
  Nat.iter 8 crc32_bit (Z.lxor c (Z.of_N (Byte.to_N b))).

(** The running state of [crc32.NewIEEE()] is kept as the digest of
    the bytes written so far. *)
Definition crc32_update (digest : Z) (p : list byte) : Z :=
  Z.lxor (foldl crc32_byte (Z.lxor digest 0xFFFFFFFF) p) 0xFFFFFFFF.

Definition hex_digit (n : Z) : ascii :=
  match n with
  | 0 => "0" | 1 => "1" | 2 => "2" | 3 => "3" | 4 => "4" | 5 => "5"
  | 6 => "6" | 7 => "7" | 8 => "8" | 9 => "9" | 10 => "a" | 11 => "b"
  | 12 => "c" | 13 => "d" | 14 => "e" | _ => "f"
  end%char.

(** [hex.EncodeToString(crc32.Sum(nil))]: the four bytes of the digest,
    most significant first, two lowercase digits each. *)
Definition hex32 (d : Z) : string :=
  foldr (fun i s => String (hex_digit (Z.land (Z.shiftr d (4 * i)) 15)) s)
        EmptyString [7; 6; 5; 4; 3; 2; 1; 0].

(** ** Writers *)

(** The [io.Writer] under the buffer: the bytes it has accepted, and,
    when [wr_room] is [Some k], the failure it reports once [k] more
    bytes have been written. *)
Record ioWriter := {
  wr_data : list byte;
  wr_room : option nat;
  wr_fail : error;
}.

Definition ioWrite (p : list byte) (wr : ioWriter)
    : nat * option error * ioWriter :=
  match wr_room wr with
  | None =>
      (length p, None,
       {| wr_data := wr_data wr ++ p; wr_room := None;
          wr_fail := wr_fail wr |})
  | Some k =>
      if decide (length p ≤ k)%nat
      then (length p, None,
            {| wr_data := wr_data wr ++ p;
               wr_room := Some (k - length p)%nat;
               wr_fail := wr_fail wr |})
      else (k, Some (wr_fail wr),
            {| wr_data := wr_data wr ++ take k p; wr_room := Some 0%nat;
               wr_fail := wr_fail wr |})
  end.

(** [bufio.Writer]: the pending bytes, the sticky error and the writer
    underneath. *)
Record bufioWriter := {
  b_buf : list byte;
  b_err : option error;
  b_wr : ioWriter;
}.

(** The method [Flush] of [bufio.Writer]. *)
Definition Flush (b : bufioWriter) : bufioWriter * option error :=
  match b_err b with
  | Some e => (b, Some e)
  | None =>
      match b_buf b with
      | [] => (b, None)
      | _ =>
          let '(n, err, wr) := ioWrite (b_buf b) (b_wr b) in
          match err with
          | Some e =>
              ({| b_buf := drop n (b_buf b); b_err := Some e;
                  b_wr := wr |}, Some e)
          | None => ({| b_buf := []; b_err := None; b_wr := wr |}, None)
          end
      end
  end.

(** ** The pipe *)

(** [r] is the source still to be read, in the chunks that the reader
    hands out, with the error that ends it; [crc32] is the digest of the
    bytes that went through; [done] says whether the channel [bp.done]
    is closed. *)
Record backupPipe := {
  filename : string;
  maxSize : Z;
  r : option (list (list byte) * error);
  w : option bufioWriter;
  crc32 : Z;
  nn : Z;
  done : bool;
  closed : Z;
}.

Definition newBackupWriter (filename : string) (maxSize : Z)
    (w : ioWriter) : backupPipe :=
  {| filename := filename; maxSize := maxSize; r := None;
     w := Some {| b_buf := []; b_err := None; b_wr := w |};
     crc32 := crc32_update 0 []; nn := 0; done := false; closed := 0 |}.

Definition newBackupReader (filename : string) (maxSize : Z)
    (r : list (list byte) * error) : backupPipe :=
  {| filename := filename; maxSize := maxSize; r := Some r; w := None;
     crc32 := crc32_update 0 []; nn := 0; done := false; closed := 0 |}.

(** [Read]: one chunk of the source goes through the hash; the end of
    the source is its error. *)
Definition Read (bp : backupPipe)
    : go (backupPipe * (list byte * option error)) :=
  match r bp with
  | None => Panic
  | Some (chunks, eof) =>
      let '(p, rest, err) :=
        match chunks with
        | [] => ([], [], Some eof)
        | p :: rest => (p, rest, None)
        end in
      Ret ({| filename := filename bp; maxSize := maxSize bp;
              r := Some (rest, eof); w := w bp;
              crc32 := crc32_update (crc32 bp) p;
              nn := nn bp + Z.of_nat (length p);
              done := done bp; closed := closed bp |},
           (p, err))
  end.

(** [Close]: [atomic.CompareAndSwapInt32(&bp.closed, 0, 1)] guards the
    close of [bp.done] and the flush. *)
Definition Close (bp : backupPipe) : go (backupPipe * option error) :=
  if decide (closed bp = 0) then
    (* close(bp.done) *)
    if done bp then Panic
    else
      match w bp with
      | Some b =>
          let '(b', err) := Flush b in
          Ret ({| filename := filename bp; maxSize := maxSize bp;
                  r := r bp; w := Some b'; crc32 := crc32 bp;
                  nn := nn bp; done := true; closed := 1 |}, err)
      | None =>
          Ret ({| filename := filename bp; maxSize := maxSize bp;
                  r := r bp; w := None; crc32 := crc32 bp;
                  nn := nn bp; done := true; closed := 1 |}, None)
      end
  else Ret (bp, None).

Definition HashString (bp : backupPipe) : string := hex32 (crc32 bp).

(** The hash that a pipe reports after [p] went through it. *)
Definition hash_of (p : list byte) : string := hex32 (crc32_update 0 p).

(** [k] calls of [Close] in a row, with the error of each. *)
Fixpoint Closes (k : nat) (bp : backupPipe)
    : go (backupPipe * list (option error)) :=
  match k with
  | O => Ret (bp, [])
  | S k =>
      p ←go Close bp;
      q ←go Closes k p.1;
      Ret (q.1, p.2 :: q.2)
  end.

(** The pipes that the constructors build and the methods preserve:
    [done] is closed only once [closed] is set. *)
Definition pipe_ok (bp : backupPipe) : Prop :=
  closed bp = 0 → done bp = false.

(** A writer pipe with three bytes pending over a writer that fails at
    once. *)
Definition example_failing_pipe : backupPipe :=
  {| filename := "ibdata1"; maxSize := 3; r := None;
     w := Some {| b_buf := ["x"; "y"; "z"]%byte; b_err := None;
                  b_wr := {| wr_data := []; wr_room := Some 0%nat;
                             wr_fail := Plain "disk full" |} |};
     crc32 := crc32_update 0 ["x"; "y"; "z"]%byte; nn := 3;
     done := false; closed := 0 |}.

End Pipe.

(* ===================================================================== *)
(** * The builtin backup engine (builtinbackupengine.go) *)
(* ===================================================================== *)

Module Backup.

(** ** Results with early return *)

Definition bindR {A B} (m : result A) (k : A → result B) : result B :=
  match m with
  | Ok a => k a
  | Err e => Err e
  end.

(** [vterrors.Wrap(err, msg)] on the error branch of a call. *)
Definition wrapR {A} (m : result A) (msg : string) : result A :=
  match m with
  | Ok a => Ok a
  | Err e => Err (Wrap e msg)
  end.

(** A call that returns only an error, as a result. *)
Definition errR (r : option error) : result unit :=
  match r with
  | None => Ok ()
  | Some e => Err e
  end.

(** ** Constants *)

Definition builtinBackupEngineName : string := "builtin".
Definition autoIncrementalFromPos : string := "auto".

(** Modelled from the spec: these constants are declared in files of
    the package that are not among the sources.  The spec fixes the
    manifest name as "a fixed constant known to all readers", names the
    engines pgzip, pargzip and external, the four base roots of a file
    entry, and the flavor "MySQL56 UUID-GTID". *)
Definition backupManifestFileName : string := "MANIFEST".
Definition PargzipCompressor : string := "pargzip".
Definition PgzipCompressor : string := "pgzip".
Definition ExternalCompressor : string := "external".
Definition errUnsupportedDeCompressionEngine : string :=
  "unsupported engine in MANIFEST".
Definition backupInnodbDataHomeDir : string := "InnoDBData".
Definition backupInnodbLogGroupHomeDir : string := "InnoDBLog".
Definition backupBinlogDir : string := "BinLog".
Definition backupData : string := "Data".
Definition Mysql56FlavorID : string := "MySQL56".

(** ** Positions *)

(** A GTID set of one of the three flavors.  A MySQL56 set is the set
    of its (server UUID, transaction number) pairs. *)
Inductive GTIDSet :=
| Mysql56GTIDSet (s : gset (string * nat))
| MariadbGTIDSet (s : string)
| FilePosGTID (s : string).

#[global] Instance GTIDSet_eq_dec : EqDecision GTIDSet.
Proof. solve_decision. Defined.

(** [mysql.Position]: [None] is the zero value [Position{}], whose
    [GTIDSet] is nil. *)
Definition Position : Type := option GTIDSet.

Definition IsZero (rp : Position) : bool :=
  match rp with
  | None => true
  | Some _ => false
  end.

(** Modelled from the spec: [MatchesFlavor] is part of the position
    arithmetic ("flavor(position) -> flavor-tag"); a position matches
    MySQL56 when its set is a MySQL56 set. *)
Definition MatchesFlavor (rp : Position) (flavor : string) : bool :=
  match rp with
  | Some (Mysql56GTIDSet _) => bool_decide (flavor = Mysql56FlavorID)
  | _ => false
  end.

(** ** Files and paths *)

Record FileEntry := {
  Base : string;
  Name : string;
  Hash : string;
  ParentPath : string;
}.

Record Mycnf := {
  InnodbDataHomeDir : string;
  InnodbLogGroupHomeDir : string;
  DataDir : string;
  BinLogPath : string;
}.

(** [path.Join]: the non-empty elements separated by single slashes
    (of the cleaning that [path.Join] does, only the merging of the
    slash between two elements is kept). *)
Fixpoint path_Join (elems : list string) : string :=
  match elems with
  | [] => ""
  | e :: rest =>
      let tail := path_Join rest in
      if decide (e = "") then tail
      else
        match tail with
        | EmptyString => e
        | String c _ =>
            if decide (c = "/"%char) then e +:+ tail
            else e +:+ "/" +:+ tail
        end
  end.

(** The part of [s] before its last slash, if it has one. *)
Fixpoint before_last_slash (s : string) : option string :=
  match s with
  | EmptyString => None
  | String c rest =>
      match before_last_slash rest with
      | Some d => Some (String c d)
      | None => if decide (c = "/"%char) then Some EmptyString else None
      end
  end.

(** [filepath.Dir]. *)
Definition filepath_Dir (p : string) : string :=
  match before_last_slash p with
  | None => "."
  | Some EmptyString => "/"
  | Some d => d
  end.

(** [fullPath] returns the full path of the entry, based on its type. *)
Definition fullPath (fe : FileEntry) (cnf : Mycnf) : result string :=
  let join root := Ok (path_Join [ParentPath fe; root; Name fe]) in
  if decide (Base fe = backupInnodbDataHomeDir)
  then join (InnodbDataHomeDir cnf)
  else if decide (Base fe = backupInnodbLogGroupHomeDir)
  then join (InnodbLogGroupHomeDir cnf)
  else if decide (Base fe = backupData)
  then join (DataDir cnf)
  else if decide (Base fe = backupBinlogDir)
  then join (filepath_Dir (BinLogPath cnf))
  else Err (Errorf Code_UNKNOWN "unknown base").

(** ** Manifest *)

Record BackupManifest := {
  BackupMethod : string;
  Position_ : Position;
  PurgedPosition : Position;
  FromPosition : Position;
  Incremental : bool;
  ServerUUID : string;
  TabletAlias : string;
  Keyspace : string;
  Shard : string;
  BackupTime : string;
  FinishedTime : string;
}.

Record builtinBackupManifest := {
  base : BackupManifest;
  CompressionEngine : string;
  FileEntries : list FileEntry;
  SkipCompress : bool;
  ExternalDecompressor : string;
}.

(** ** Parameters and flags *)

Record BackupParams := {
  p_Cnf : Mycnf;
  p_Concurrency : nat;
  p_IncrementalFromPos : string;
  p_TabletAlias : string;
  p_Keyspace : string;
  p_Shard : string;
  p_BackupTime : string;
}.

Definition set_IncrementalFromPos (params : BackupParams) (pos : string)
    : BackupParams :=
  {| p_Cnf := p_Cnf params; p_Concurrency := p_Concurrency params;
     p_IncrementalFromPos := pos; p_TabletAlias := p_TabletAlias params;
     p_Keyspace := p_Keyspace params; p_Shard := p_Shard params;
     p_BackupTime := p_BackupTime params |}.

(** [r_MysqldIsReal] is the outcome of the type assertion
    of [params.Mysqld] to the concrete daemon type in the incremental
    restore. *)
Record RestoreParams := {
  r_Cnf : Mycnf;
  r_Concurrency : nat;
  r_RestoreToPos : Position;
  r_MysqldIsReal : bool;
}.

(** The process-wide variables of the package that the engine reads. *)
Record Flags := {
  backupStorageCompress : bool;
  CompressionEngineName : string;
  ExternalCompressorCmd : string;
  ExternalDecompressorCmd : string;
  ManifestExternalDecompressorCmd : string;
  DisableActiveReparents : bool;
}.

(** isIncrementalBackup is a convenience function to check whether the
    params indicate an incremental backup request. *)
Definition isIncrementalBackup (params : BackupParams) : bool :=
  bool_decide (p_IncrementalFromPos params ≠ "").

(** ** The backup handle *)

(** What a name of the backup holds: the bytes of a copied file, or the
    JSON document of the manifest. *)
Inductive blob :=
| Bytes (data : list byte)
| ManifestJSON (bm : builtinBackupManifest).

(** The handle: the errors recorded on it and the files that were
    added and closed. *)
Record BackupHandle := {
  bh_errors : list error;
  bh_files : gmap string blob;
}.

(** Modelled from the spec: the error recorder of the handle is not
    among the sources.  [RecordError] is the "asynchronous error
    registry"; "later queries via HasErrors()/Error() consolidate".
    Recording nil records nothing. *)
Definition RecordError (err : option error) (bh : BackupHandle)
    : BackupHandle :=
  match err with
  | None => bh
  | Some e => {| bh_errors := bh_errors bh ++ [e];
                 bh_files := bh_files bh |}
  end.

Definition HasErrors (bh : BackupHandle) : bool :=
  match bh_errors bh with
  | [] => false
  | _ => true
  end.

Definition Error (bh : BackupHandle) : option error :=
  match bh_errors bh with
  | [] => None
  | es => Some (Aggregate es)
  end.

Definition put_file (name : string) (b : blob) (bh : BackupHandle)
    : BackupHandle :=
  {| bh_errors := bh_errors bh; bh_files := <[name := b]> (bh_files bh) |}.

(** ** The MySQL daemon and the system state *)

Record Mysqld := {
  running : bool;
  super_read_only : bool;
  semi_sync : bool * bool;
  replicating : bool;
}.

(** The context a call is given: the caller's, the shutdown context
    derived from it, or [context.Background()]. *)
Inductive ctxKind := CallerCtx | ShutdownCtx | BackgroundCtx.

(** How a file task of the copy pool ended. *)
Inductive outcome :=
| AcquireFailed
| Cancelled
| Skipped
| Ran (err : option error).

(** The effects of the engine on its collaborators, in the order in
    which they happen. *)
Inductive event :=
| EvSetSuperReadOnly (on : bool) (r : option error)
| EvStopReplication (r : option error)
| EvShutdown (ctx : ctxKind) (r : option error)
| EvStart (ctx : ctxKind) (r : option error)
| EvSetSemiSyncEnabled (source replica : bool) (r : option error)
| EvStartReplication (r : option error)
| EvFlushBinaryLogs (r : option error)
| EvTaskStart (i : nat)
| EvTaskEnd (i : nat) (o : outcome)
| EvManifestAdd (r : option error)
| EvManifestWrite (r : option error)
| EvManifestClose (r : option error)
| EvNewExternalDecompressor (cmd : string) (r : option error)
| EvNewBuiltinDecompressor (engine : string) (r : option error)
| EvCreate (path : string)
| EvMkdirTemp (dir : string)
| EvApplyBinlogFile (path : string) (r : option error)
| EvRemove (path : string)
| EvRemoveAll (dir : string).

Definition is_task_event (ev : event) : bool :=
  match ev with
  | EvTaskStart _ | EvTaskEnd _ _ => true
  | _ => false
  end.

Definition is_manifest_event (ev : event) : bool :=
  match ev with
  | EvManifestAdd _ | EvManifestWrite _ | EvManifestClose _ => true
  | _ => false
  end.

Definition is_delete_event (ev : event) : bool :=
  match ev with
  | EvRemove _ | EvRemoveAll _ => true
  | _ => false
  end.

(** The state that the engine acts on: the daemon, the backup handle,
    the error recorder [rec] of a restore, the local files by path, and
    the effects so far. *)
Record sys := {
  mysqld : Mysqld;
  bh : BackupHandle;
  rec : list error;
  fs : gmap string (list byte);
  trace : list event;
}.

Definition log (ev : event) (s : sys) : sys :=
  {| mysqld := mysqld s; bh := bh s; rec := rec s; fs := fs s;
     trace := trace s ++ [ev] |}.

Definition set_mysqld (m : Mysqld) (s : sys) : sys :=
  {| mysqld := m; bh := bh s; rec := rec s; fs := fs s;
     trace := trace s |}.

Definition set_bh (h : BackupHandle) (s : sys) : sys :=
  {| mysqld := mysqld s; bh := h; rec := rec s; fs := fs s;
     trace := trace s |}.

Definition set_rec (es : list error) (s : sys) : sys :=
  {| mysqld := mysqld s; bh := bh s; rec := es; fs := fs s;
     trace := trace s |}.

Definition set_fs (f : gmap string (list byte)) (s : sys) : sys :=
  {| mysqld := mysqld s; bh := bh s; rec := rec s; fs := f;
     trace := trace s |}.

(** ** The file-task pool

    [backupFiles] and [restoreFiles] start one goroutine per file entry
    behind a weighted semaphore and wait for all of them.  A run of the
    goroutines is a schedule of atomic steps; the schedule also says
    when the caller's context is cancelled. *)

Inductive tstatus :=
| Waiting
| Running
| Finished (o : outcome).

(** [Acquire i]: [sema.Acquire] returns nil for task [i], which then
    checks the context and the recorded errors.  [AcquireFail i]: it
    returns the error of a context that is done.  [Finish i]: the file
    copy of task [i] returns.  [CancelCtx d]: the context is cancelled,
    or with [d] its deadline passes. *)
Inductive action :=
| Acquire (i : nat)
| AcquireFail (i : nat)
| Finish (i : nat)
| CancelCtx (deadline : bool).

Record pool := {
  tasks : list tstatus;
  held : nat;
  ctx : option bool;
  fes : list FileEntry;
  st : sys;
}.

Section Pool.

(** The weight of the semaphore, [params.Concurrency]. *)
Variable limit : nat.
(** The recorder the tasks share: the handle for a backup, [rec] for a
    restore. *)
Variable hasErrors : sys → bool.
Variable recordError : error → sys → sys.
(** The file copy of task [i] on its entry, with the recording of its
    result. *)
Variable work : nat → FileEntry → sys → sys * FileEntry * option error.

Definition finish_task (i : nat) (o : outcome) (s : sys) (p : pool)
    : pool :=
  {| tasks := <[i := Finished o]> (tasks p); held := held p;
     ctx := ctx p; fes := fes p; st := log (EvTaskEnd i o) s |}.

Definition pstep (p : pool) (a : action) : pool :=
  match a with
  | CancelCtx d =>
      match ctx p with
      | None => {| tasks := tasks p; held := held p; ctx := Some d;
                   fes := fes p; st := st p |}
      | Some _ => p
      end
  | AcquireFail i =>
      match tasks p !! i, ctx p with
      | Some Waiting, Some d =>
          finish_task i AcquireFailed
            (recordError (ContextErr d) (st p)) p
      | _, _ => p
      end
  | Acquire i =>
      match tasks p !! i with
      | Some Waiting =>
          if decide (held p < limit) then
            match ctx p with
            | Some _ =>
                finish_task i Cancelled
                  (recordError (Errorf Code_CANCELED "context canceled")
                     (st p)) p
            | None =>
                if hasErrors (st p) then finish_task i Skipped (st p) p
                else
                  {| tasks := <[i := Running]> (tasks p);
                     held := S (held p); ctx := ctx p; fes := fes p;
                     st := log (EvTaskStart i) (st p) |}
            end
          else p
      | _ => p
      end
  | Finish i =>
      match tasks p !! i, fes p !! i with
      | Some Running, Some fe =>
          let '(s, fe', err) := work i fe (st p) in
          {| tasks := <[i := Finished (Ran err)]> (tasks p);
             held := pred (held p); ctx := ctx p;
             fes := <[i := fe']> (fes p);
             st := log (EvTaskEnd i (Ran err)) s |}
      | _, _ => p
      end
  end.

Definition prun (sched : list action) (p : pool) : pool :=
  foldl pstep p sched.

Definition is_finished (t : tstatus) : bool :=
  match t with
  | Finished _ => true
  | _ => false
  end.

(** [wg.Wait()]: returns once every task has finished; [None] when
    the schedule ends before that. *)
Definition Wait (sched : list action) (p : pool) : option pool :=
  let p' := prun sched p in
  if forallb is_finished (tasks p') then Some p' else None.

End Pool.

Definition pool_init (cancelled : option bool) (entries : list FileEntry)
    (s : sys) : pool :=
  {| tasks := replicate (length entries) Waiting; held := 0;
     ctx := cancelled; fes := entries; st := s |}.

(** The schedule that runs the tasks one after the other. *)
Definition sequential (n : nat) : list action :=
  flat_map (fun i => [Acquire i; Finish i]) (seq 0 n).

(** ** What the collaborators answer *)

(** The answer of [ReplicationStatus] as [executeFullBackup] switches on
    it: a status, the sentinel [mysql.ErrNotReplica], or another error. *)
Inductive replStatus :=
| RsOk (healthy : bool) (pos : Position)
| RsNotReplica
| RsErr (e : error).

(** One round of the final wait of a full backup: [ctx.Err()] and the
    replication status read after it. *)
Record poll := {
  poll_ctx_err : option error;
  poll_status : result Position;
}.

(** The calls of [backupFile] for one file.  [io_stored] are the bytes
    that went through the hashing writer [bw] on their way to the
    destination. *)
Record backupIO := {
  io_Open : option error;
  io_Stat : option error;
  io_AddFile : option error;
  io_newCompressor : option error;
  io_Copy : option error;
  io_closeCompressor : option error;
  io_stored : list byte;
  io_Flush : option error;
  io_closeDest : option error;
}.

(** The calls of [restoreFile] for one file.  [rio_plain] is what the
    reader chain yields for the stored bytes; [rio_partial] is what has
    reached the destination file when the copy is abandoned. *)
Record restoreIO := {
  rio_ReadFile : option error;
  rio_MkdirAll : option error;
  rio_Create : option error;
  rio_newDecompressor : option error;
  rio_Copy : option error;
  rio_plain : list byte;
  rio_partial : list byte;
  rio_Flush : option error;
  rio_closeDest : option error;
  rio_closeDecompressor : option error;
}.

(** Everything the engine asks of the daemon, the topology, the storage
    and the operating system, by call site. *)
Record World := {
  (* the daemon, full backup *)
  w_SemiSyncEnabled : bool * bool;
  w_ReplicationStatus : replStatus;
  w_IsReadOnly : result bool;
  w_IsSuperReadOnly : result bool;
  w_SetSuperReadOnly_on : option error;
  w_PrimaryPosition : result Position;
  w_StopReplication : option error;
  w_ReplicationStatus_stopped : result Position;
  w_GetGTIDPurged : result Position;
  w_GetServerUUID : result string;
  w_Shutdown : option error;
  w_Start : option error;
  w_SetSuperReadOnly_restore : option error;
  w_SetSuperReadOnly_deferred : option error;
  w_SetSemiSyncEnabled : option error;
  w_StartReplication : option error;
  w_WaitForReplicationStart : option error;
  (* the topology, for getPrimaryPosition *)
  w_GetShard : result string;
  w_GetTablet : result string;
  w_tmc_PrimaryPosition : result string;
  w_polls : list poll;
  (* the daemon and the storage, incremental backup *)
  w_GetBackupStorage : option error;
  w_ListBackups : option error;
  w_FindLatestSuccessfulBackup : result Position;
  w_FlushBinaryLogs : option error;
  w_GetBinaryLogs : result (list string);
  w_GetPreviousGTIDs : string → result string;
  w_covers_server_position : string → bool;
  w_server_position : string;
  (* position arithmetic *)
  w_DecodePosition : string → result Position;
  w_ParsePosition : string → string → result Position;
  w_EncodePosition : Position → string;
  (* files *)
  w_findFilesToBackup : result (list FileEntry);
  w_binlogFilesToBackup : list string → result (list FileEntry);
  w_backupIO : nat → backupIO;
  w_manifest_AddFile : option error;
  w_manifest_Marshal : option error;
  w_manifest_Write : option error;
  w_manifest_Close : option error;
  w_now : string;
  (* restore *)
  w_getBackupManifestInto : result builtinBackupManifest;
  w_createStateFile : option error;
  w_prepareToRestore : option error;
  w_MkdirTemp : result string;
  w_restoreIO : nat → restoreIO;
  w_ApplyBinlogFile : string → option error;
}.

(** ** The engine monad

    A step of the engine acts on the system state and returns a value or
    an error; [None] stands for a step that does not return within the
    schedule and the polls it is given. *)

Definition M (A : Type) : Type := sys → option (sys * result A).

Definition ret {A} (a : A) : M A := fun s => Some (s, Ok a).
Definition fail {A} (e : error) : M A := fun s => Some (s, Err e).

Definition bindM {A B} (m : M A) (k : A → M B) : M B :=
  fun s =>
    match m s with
    | None => None
    | Some (s', Ok a) => k a s'
    | Some (s', Err e) => Some (s', Err e)
    end.

Notation "x ←M m ; k" := (bindM m (fun x => k))
  (at level 100, m at next level, right associativity).
Notation "m ;;M k" := (bindM m (fun _ => k))
  (at level 100, right associativity).

(** A read-only call: its answer, with the error wrapped as the source
    wraps it. *)
Definition ask {A} (r : result A) (wrap : error → error) : M A :=
  fun s =>
    match r with
    | Ok a => Some (s, Ok a)
    | Err e => Some (s, Err (wrap e))
    end.

(** A call with an effect: the event is logged, the effect happens when
    the call succeeds. *)
Definition call (ev : option error → event) (r : option error)
    (effect : sys → sys) (wrap : error → error) : M unit :=
  fun s =>
    match r with
    | None => Some (log (ev None) (effect s), Ok ())
    | Some e => Some (log (ev (Some e)) s, Err (wrap e))
    end.

Definition on_mysqld (f : Mysqld → Mysqld) (s : sys) : sys :=
  set_mysqld (f (mysqld s)) s.

Definition set_running (b : bool) (m : Mysqld) : Mysqld :=
  {| running := b; super_read_only := super_read_only m;
     semi_sync := semi_sync m; replicating := replicating m |}.

Definition set_super_read_only (b : bool) (m : Mysqld) : Mysqld :=
  {| running := running m; super_read_only := b;
     semi_sync := semi_sync m; replicating := replicating m |}.

Definition set_semi_sync (v : bool * bool) (m : Mysqld) : Mysqld :=
  {| running := running m; super_read_only := super_read_only m;
     semi_sync := v; replicating := replicating m |}.

Definition set_replicating (b : bool) (m : Mysqld) : Mysqld :=
  {| running := running m; super_read_only := super_read_only m;
     semi_sync := semi_sync m; replicating := b |}.

(** Modelled from the spec: the daemon is an interface whose
    implementation is not among the sources.  A shutdown that returns nil
    leaves the server stopped ("a successful shutdown is the barrier that
    makes file-level copy safe"), a start that returns nil leaves it
    running, and a call that fails changes nothing. *)
Definition Shutdown (w : World) : M unit :=
  call (EvShutdown ShutdownCtx) (w_Shutdown w)
       (on_mysqld (set_running false))
       (fun e => Wrap e "can't shutdown mysqld").

Definition Start (w : World) : M unit :=
  call (EvStart BackgroundCtx) (w_Start w)
       (on_mysqld (set_running true))
       (fun e => Wrap e "can't restart mysqld").

(** ** Copying the files of a backup *)

(** [br.Close()] in [backupFile] and [restoreFile]: the pipe of a reader
    has no buffered writer to flush. *)
Definition close_reader_pipe (name : string) : option error :=
  match Pipe.Close (Pipe.newBackupReader name 0 ([], Plain "EOF")) with
  | Ret (_, err) => err
  | _ => None
  end.

(** backupFile backs up an individual file.  The result is the state,
    the entry with its hash and [finalErr]. *)
Definition backupFile (fl : Flags) (io : backupIO) (cnf : Mycnf)
    (fe : FileEntry) (name : string) (s : sys)
    : sys * FileEntry * option error :=
  (* Open the source file for reading. *)
  match fullPath fe cnf with
  | Err e => (s, fe, Some (Wrap e "cannot evaluate full name"))
  | Ok _ =>
  match io_Open io with
  | Some e => (s, fe, Some (Wrap e "cannot open source file"))
  | None =>
  match io_Stat io with
  | Some e => (s, fe, Some e)
  | None =>
  (* Open the destination file for writing, and a buffer. *)
  match io_AddFile io with
  | Some e => (s, fe, Some (Wrap e "cannot add file"))
  | None =>
      let compress := backupStorageCompress fl in
      let err :=
        first_error
          [ (* Create the gzip compression pipe, if necessary. *)
            if compress
            then wrap_step (io_newCompressor io) "can't create compressor"
            else None;
            (* Copy from the source file to writer. *)
            wrap_step (io_Copy io) "cannot copy data";
            (* Close gzip to flush it. *)
            if compress
            then wrap_step (io_closeCompressor io) "cannot close compressor"
            else None;
            (* Close the backupPipe to finish writing on destination. *)
            wrap_step (io_Flush io) "cannot flush destination";
            wrap_step (close_reader_pipe (Name fe))
                      "failed to close the source reader" ] in
      (* Save the hash. *)
      let fe' :=
        match err with
        | Some _ => fe
        | None => {| Base := Base fe; Name := Name fe;
                     Hash := Pipe.hash_of (io_stored io);
                     ParentPath := ParentPath fe |}
        end in
      (* deferred: dest.Close() *)
      match io_closeDest io with
      | Some rerr =>
          (s, fe', match err with
                   | Some e => Some e
                   | None => Some rerr
                   end)
      | None =>
          (set_bh (put_file name (Bytes (io_stored io)) (bh s)) s,
           fe', err)
      end
  end end end end.

(** The body of the goroutine of [backupFiles] once it holds the
    semaphore and has found the context live and the handle without
    errors: [bh.RecordError(be.backupFile(ctx, params, bh, fe, name))]. *)
Definition backupTask (fl : Flags) (w : World) (params : BackupParams)
    (i : nat) (fe : FileEntry) (s : sys)
    : sys * FileEntry * option error :=
  let '(s', fe', err) :=
    backupFile fl (w_backupIO w i) (p_Cnf params) fe (pretty i) s in
  (set_bh (RecordError err (bh s')) s', fe', err).

Definition bh_hasErrors (s : sys) : bool := HasErrors (bh s).

Definition bh_recordError (e : error) (s : sys) : sys :=
  set_bh (RecordError (Some e) (bh s)) s.

(** The manifest that [backupFiles] encodes. *)
Definition newManifest (fl : Flags) (w : World) (params : BackupParams)
    (replicationPosition purgedPosition fromPosition : Position)
    (serverUUID : string) (entries : list FileEntry)
    : builtinBackupManifest :=
  {| base :=
       {| BackupMethod := builtinBackupEngineName;
          Position_ := replicationPosition;
          PurgedPosition := purgedPosition;
          FromPosition := fromPosition;
          Incremental := negb (IsZero fromPosition);
          ServerUUID := serverUUID;
          TabletAlias := p_TabletAlias params;
          Keyspace := p_Keyspace params;
          Shard := p_Shard params;
          BackupTime := p_BackupTime params;
          FinishedTime := w_now w |};
     FileEntries := entries;
     SkipCompress := negb (backupStorageCompress fl);
     CompressionEngine := CompressionEngineName fl;
     ExternalDecompressor := ManifestExternalDecompressorCmd fl |}.

(** The end of [backupFiles], from [bh.AddFile] of the manifest on: the
    encoding, the write, and the deferred close, whose error becomes
    [finalErr] when [finalErr] is nil. *)
Definition writeManifest (w : World) (bm : builtinBackupManifest)
    (s : sys) : sys * option error :=
  match w_manifest_AddFile w with
  | Some e =>
      (log (EvManifestAdd (Some e)) s,
       Some (Wrap e "cannot add MANIFEST to backup"))
  | None =>
      let s := log (EvManifestAdd None) s in
      let '(s, finalErr) :=
        match w_manifest_Marshal w with
        | Some e => (s, Some (Wrap e "cannot JSON encode MANIFEST"))
        | None =>
            let r := w_manifest_Write w in
            (log (EvManifestWrite r) s,
             wrap_step r "cannot write MANIFEST")
        end in
      (* deferred: wc.Close() *)
      let closeErr := w_manifest_Close w in
      let s := log (EvManifestClose closeErr) s in
      let s :=
        match closeErr, finalErr with
        | None, None =>
            set_bh (put_file backupManifestFileName (ManifestJSON bm)
                             (bh s)) s
        | _, _ => s
        end in
      (s, match finalErr with
          | None => closeErr
          | Some e => Some e
          end)
  end.

(** backupFiles finds the list of files to backup, and creates the
    backup.  [cancelled] says whether [ctx] is done on entry. *)
Definition backupFiles (fl : Flags) (w : World) (sched : list action)
    (cancelled : option bool) (params : BackupParams)
    (replicationPosition purgedPosition fromPosition : Position)
    (binlogFiles : list string) (serverUUID : string) (s : sys)
    : option (sys * option error) :=
  (* Get the files to backup. *)
  let found :=
    if isIncrementalBackup params
    then w_binlogFilesToBackup w binlogFiles
    else w_findFilesToBackup w in
  match found with
  | Err e => Some (s, Some (Wrap e "can't find files to backup"))
  | Ok entries =>
      (* Backup with the provided concurrency. *)
      match Wait (p_Concurrency params) bh_hasErrors bh_recordError
                 (backupTask fl w params) sched
                 (pool_init cancelled entries s) with
      | None => None
      | Some p =>
          let s := st p in
          if HasErrors (bh s) then Some (s, Error (bh s))
          else
            (* open the MANIFEST *)
            Some (writeManifest w
                    (newManifest fl w params replicationPosition
                       purgedPosition fromPosition serverUUID (fes p))
                    s)
      end
  end.

(** ** Incremental backup *)

Definition getPurgedGTIDSet (w : World) : result (gset (string * nat)) :=
  match w_GetGTIDPurged w with
  | Err e => Err (Wrap e "can't get @@gtid_purged")
  | Ok (Some (Mysql56GTIDSet purged)) => Ok purged
  | Ok _ => Err (Errorf Code_FAILED_PRECONDITION
                        "cannot get MySQL GTID purged value")
  end.

(** params.IncrementalFromPos is a string. We want to turn that into a
    MySQL GTID. *)
Definition getIncrementalFromPosGTIDSet (w : World) (fromPos : string)
    : result (gset (string * nat)) :=
  match w_DecodePosition w fromPos with
  | Err e => Err (Wrap e "cannot decode position in incremental backup")
  | Ok pos =>
      if negb (MatchesFlavor pos Mysql56FlavorID)
      then Err (Errorf Code_FAILED_PRECONDITION
                  "incremental backup only supports MySQL GTID positions")
      else
        match pos with
        | Some (Mysql56GTIDSet ifPos) => Ok ifPos
        | _ => Err (Errorf Code_FAILED_PRECONDITION
                           "cannot get MySQL GTID value")
        end
  end.

(** The closure [getBinlogPreviousGTIDs] with its cache
    [previousGTIDs]. *)
Definition getBinlogPreviousGTIDs (w : World) (binlog : string)
    (previousGTIDs : gmap string string)
    : gmap string string * result string :=
  match previousGTIDs !! binlog with
  | Some gtids =>
      (* Found a cached entry! No need to query again *)
      (previousGTIDs, Ok gtids)
  | None =>
      match w_GetPreviousGTIDs w binlog with
      | Err e => (previousGTIDs, Err e)
      | Ok gtids => (<[binlog := gtids]> previousGTIDs, Ok gtids)
      end
  end.

(** The files of [logs] up to and including the first that covers the
    latest server position. *)
Fixpoint through_latest (covers : string → bool) (logs : list string)
    : list string :=
  match logs with
  | [] => []
  | f :: rest => if covers f then [f] else f :: through_latest covers rest
  end.

(** Modelled from the spec: [ChooseBinlogsForIncrementalBackup] is not
    among the sources.  Steps 4, 5 and 7 of the incremental protocol:
    "for each file, obtain previous-GTIDs (cached per session)"; "choose
    the contiguous suffix starting at the earliest file F such that
    previous-GTIDs(F) \ purged ⊆ from-position, up to and including the
    file whose position-range covers the latest server position"; the
    from-position is previous-GTIDs(F) and the end-position is the
    "server position at step 5".  The results are the chosen files, the
    from-position and the end-position, both as text. *)
Fixpoint ChooseBinlogsForIncrementalBackup (w : World)
    (backupFromGTIDSet purgedGTIDSet : gset (string * nat))
    (binaryLogs : list string) (previousGTIDs : gmap string string)
    : gmap string string * result (list string * string * string) :=
  match binaryLogs with
  | [] => (previousGTIDs,
           Err (Errorf Code_FAILED_PRECONDITION
                       "no binary logs to backup (increment is empty)"))
  | binlog :: later =>
      let '(previousGTIDs, r) :=
        getBinlogPreviousGTIDs w binlog previousGTIDs in
      match r with
      | Err e =>
          (previousGTIDs, Err (Wrap e "cannot get previous gtids for binlog"))
      | Ok gtids =>
          match w_ParsePosition w Mysql56FlavorID gtids with
          | Err e =>
              (previousGTIDs,
               Err (Wrap e "cannot decode binlog position in incremental backup"))
          | Ok (Some (Mysql56GTIDSet prev)) =>
              if decide (prev ∖ purgedGTIDSet ⊆ backupFromGTIDSet)
              then
                (previousGTIDs,
                 Ok (binlog :: through_latest (w_covers_server_position w)
                                              later,
                     gtids, w_server_position w))
              else
                ChooseBinlogsForIncrementalBackup w backupFromGTIDSet
                  purgedGTIDSet later previousGTIDs
          | Ok _ =>
              (previousGTIDs,
               Err (Errorf Code_FAILED_PRECONDITION
                           "cannot get MySQL GTID value"))
          end
      end
  end.

(** The resolution of [params.IncrementalFromPos] when it is "auto". *)
Definition resolveIncrementalFromPos (w : World) (params : BackupParams)
    : result BackupParams :=
  if decide (p_IncrementalFromPos params = autoIncrementalFromPos)
  then
    match w_GetBackupStorage w with
    | Some e => Err e
    | None =>
    match w_ListBackups w with
    | Some e => Err (Wrap e "ListBackups failed")
    | None =>
    match w_FindLatestSuccessfulBackup w with
    | Err e => Err (Wrap e "FindLatestSuccessfulBackup failed")
    | Ok manifestPosition =>
        Ok (set_IncrementalFromPos params
              (w_EncodePosition w manifestPosition))
    end end end
  else Ok params.

(** The steps of [executeIncrementalBackup] before it copies files; the
    result is what [backupFiles] is called with: the parameters with the
    resolved from-position, the end and from positions, the chosen
    files and the server UUID. *)
Definition incrementalPlan (w : World) (params : BackupParams)
    : M (BackupParams * Position * Position * list string * string) :=
  (* Collect MySQL status: UUID, @@gtid_purged *)
  serverUUID ←M ask (w_GetServerUUID w)
                    (fun e => Wrap e "can't get server uuid");
  purgedGTIDSet ←M ask (getPurgedGTIDSet w) id;
  params ←M ask (resolveIncrementalFromPos w params) id;
  backupFromGTIDSet ←M
    ask (getIncrementalFromPosGTIDSet w (p_IncrementalFromPos params)) id;
  (* OK, we now have the formal MySQL GTID from which we want to take
     the incremental backup. *)
  call EvFlushBinaryLogs (w_FlushBinaryLogs w) id
       (fun e => Wrap e "cannot flush binary logs in incremental backup")
  ;;M
  binaryLogs ←M ask (w_GetBinaryLogs w)
    (fun e => Wrap e "cannot get binary logs in incremental backup");
  chosen ←M
    ask (ChooseBinlogsForIncrementalBackup w backupFromGTIDSet
           purgedGTIDSet binaryLogs ∅).2
        (fun e => Wrap e "cannot get binary logs to backup in incremental backup");
  let '(binaryLogsToBackup, incrementalBackupFromGTID,
        incrementalBackupToGTID) := chosen in
  incrementalBackupFromPosition ←M
    ask (w_ParsePosition w Mysql56FlavorID incrementalBackupFromGTID)
        (fun e => Wrap e "cannot parse position");
  incrementalBackupToPosition ←M
    ask (w_ParsePosition w Mysql56FlavorID incrementalBackupToGTID)
        (fun e => Wrap e "cannot parse position");
  ret (params, incrementalBackupToPosition,
       incrementalBackupFromPosition, binaryLogsToBackup, serverUUID).

(** executeIncrementalBackup runs an incremental backup, based on given
    'incremental_from_pos'.  The result is the usable flag and the
    error. *)
Definition executeIncrementalBackup (fl : Flags) (w : World)
    (sched : list action) (cancelled : option bool)
    (params : BackupParams) (s : sys)
    : option (sys * (bool * option error)) :=
  match incrementalPlan w params s with
  | None => None
  | Some (s, Err e) => Some (s, (false, Some e))
  | Some (s, Ok (params, toPosition, fromPosition, binlogs, serverUUID)) =>
      match backupFiles fl w sched cancelled params toPosition None
                        fromPosition binlogs serverUUID s with
      | None => None
      | Some (s, Some e) => Some (s, (false, Some e))
      | Some (s, None) => Some (s, (true, None))
      end
  end.

(** ** Full backup *)

(** The state saved at the start of a full backup. *)
Record saved := {
  replicaStartRequired : bool;
  sourceIsPrimary : bool;
  superReadOnly : bool;
  semiSyncSource : bool;
  semiSyncReplica : bool;
  resetSuperReadOnly : bool;
}.

(** Lines 350-398: the initial state, and on a primary that is not
    super-read-only the switch to it, which arms the deferred reset
    ([resetSuperReadOnly]). *)
Definition saveInitialState (fl : Flags) (w : World) : M saved :=
  let '(semiSyncSource, semiSyncReplica) := w_SemiSyncEnabled w in
  (* See if we need to restart replication after backup. *)
  role ←M
    match w_ReplicationStatus w with
    | RsOk healthy _ =>
        ret (healthy && negb (DisableActiveReparents fl), false)
    | RsNotReplica =>
        (* keep going if we're the primary, might be a degenerate case *)
        ret (false, true)
    | RsErr e => fail (Wrap e "can't get replica status")
    end;
  let '(replicaStartRequired, sourceIsPrimary) := role in
  (* get the read-only flag *)
  _ ←M ask (w_IsReadOnly w)
           (fun e => Wrap e "failed to get read_only status");
  superReadOnly ←M ask (w_IsSuperReadOnly w)
                       (fun e => Wrap e "can't get super_read_only status");
  let sv armed :=
    {| replicaStartRequired := replicaStartRequired;
       sourceIsPrimary := sourceIsPrimary;
       superReadOnly := superReadOnly;
       semiSyncSource := semiSyncSource;
       semiSyncReplica := semiSyncReplica;
       resetSuperReadOnly := armed |} in
  if sourceIsPrimary && negb superReadOnly then
    call (EvSetSuperReadOnly true) (w_SetSuperReadOnly_on w)
         (on_mysqld (set_super_read_only true))
         (fun e => Wrap e "failed to enable super_read_only") ;;M
    ret (sv true)
  else ret (sv false).

(** Lines 399-436: the replication position, the purged position, the
    server UUID, and the shutdown of the daemon. *)
Definition captureAndShutdown (w : World) (sv : saved)
    : M (Position * Position * string) :=
  replicationPosition ←M
    (if sourceIsPrimary sv then
       ask (w_PrimaryPosition w)
           (fun e => Wrap e "can't get position on primary")
     else
       (* This is a replica *)
       call EvStopReplication (w_StopReplication w)
            (on_mysqld (set_replicating false))
            (fun e => Wrap e "can't stop replica") ;;M
       ask (w_ReplicationStatus_stopped w)
           (fun e => Wrap e "can't get replica status"));
  gtidPurgedPosition ←M ask (w_GetGTIDPurged w)
                            (fun e => Wrap e "can't get gtid_purged");
  serverUUID ←M ask (w_GetServerUUID w)
                    (fun e => Wrap e "can't get server uuid");
  (* shutdown mysqld *)
  Shutdown w ;;M
  ret (replicationPosition, gtidPurgedPosition, serverUUID).

(** getPrimaryPosition, lines 1105-1126. *)
Definition getPrimaryPosition (w : World) : result Position :=
  match w_GetShard w with
  | Err e => Err (Wrap e "can't read shard")
  | Ok primaryAlias =>
      if decide (primaryAlias = "") then Err (Plain "shard has no primary")
      else
        match w_GetTablet w with
        | Err e => Err (Plain "can't get primary tablet record")
        | Ok _ =>
            match w_tmc_PrimaryPosition w with
            | Err e => Err (Plain "can't get primary replication position")
            | Ok posStr =>
                match w_DecodePosition w posStr with
                | Err e =>
                    Err (Plain "can't decode primary replication position")
                | Ok pos => Ok pos
                end
            end
        end
  end.

(** The loop at the end of [executeFullBackup]: wait for the replica's
    position to change from the saved one.  [None]: the polls given do
    not end the loop. *)
Fixpoint waitForPositionChange (polls : list poll)
    (replicationPosition : Position) : option (option error) :=
  match polls with
  | [] => None
  | p :: rest =>
      match poll_ctx_err p with
      | Some e => Some (Some e)
      | None =>
          match poll_status p with
          | Err e => Some (Some e)
          | Ok newPos =>
              if decide (newPos = replicationPosition)
              then waitForPositionChange rest replicationPosition
              else Some None
          end
      end
  end.

(** Lines 465-509: the restart of replication on a replica that was
    replicating, and the wait for its position to move. *)
Definition restartReplication (w : World) (sv : saved)
    (replicationPosition : Position) : M unit :=
  if replicaStartRequired sv then
    call EvStartReplication (w_StartReplication w)
         (on_mysqld (set_replicating true))
         (fun e => Wrap e "cannot restart replica") ;;M
    (* this should be quick, but we might as well just wait *)
    ask (errR (w_WaitForReplicationStart w))
        (fun e => Wrap e "replica is not restarting") ;;M
    pos ←M ask (getPrimaryPosition w) id;
    if decide (replicationPosition = pos) then ret ()
    else
      fun s =>
        match waitForPositionChange (w_polls w) replicationPosition with
        | None => None
        | Some None => Some (s, Ok ())
        | Some (Some e) => Some (s, Err e)
        end
  else ret ().

(** Lines 442-509: the restart of the daemon and the restoration of the
    saved state.  An error is a [return usable, err] of the source. *)
Definition restartAndRestore (w : World) (sv : saved)
    (replicationPosition : Position) : M unit :=
  (* Try to restart mysqld, use background context in case we timed out
     the original context *)
  Start w ;;M
  (* Resetting super_read_only back to its original value *)
  call (EvSetSuperReadOnly (superReadOnly sv))
       (w_SetSuperReadOnly_restore w)
       (on_mysqld (set_super_read_only (superReadOnly sv))) id ;;M
  (* Restore original mysqld state that we saved above. *)
  (if semiSyncSource sv || semiSyncReplica sv then
     call (EvSetSemiSyncEnabled (semiSyncSource sv) (semiSyncReplica sv))
          (w_SetSemiSyncEnabled w)
          (on_mysqld (set_semi_sync (semiSyncSource sv,
                                     semiSyncReplica sv))) id
   else ret ()) ;;M
  restartReplication w sv replicationPosition.

(** The deferred call of a primary: super_read_only is reset when the
    function returns; the error of the call is only logged. *)
Definition runDeferred (w : World) (sv : saved) (s : sys) : sys :=
  if resetSuperReadOnly sv then
    match w_SetSuperReadOnly_deferred w with
    | None =>
        log (EvSetSuperReadOnly false None)
            (on_mysqld (set_super_read_only false) s)
    | Some e => log (EvSetSuperReadOnly false (Some e)) s
    end
  else s.

(** executeFullBackup returns a boolean that indicates if the backup is
    usable, and an overall error. *)
Definition executeFullBackup (fl : Flags) (w : World)
    (sched : list action) (cancelled : option bool)
    (params : BackupParams) (s : sys)
    : option (sys * (bool * option error)) :=
  if decide (p_IncrementalFromPos params ≠ "")
  then executeIncrementalBackup fl w sched cancelled params s
  else
    (* Save initial state so we can restore. *)
    match saveInitialState fl w s with
    | None => None
    | Some (s, Err e) => Some (s, (false, Some e))
    | Some (s, Ok sv) =>
        match captureAndShutdown w sv s with
        | None => None
        | Some (s, Err e) => Some (runDeferred w sv s, (false, Some e))
        | Some (s, Ok (replicationPosition, gtidPurgedPosition,
                       serverUUID)) =>
            (* Backup everything, capture the error. *)
            match backupFiles fl w sched cancelled params
                    replicationPosition gtidPurgedPosition None []
                    serverUUID s with
            | None => None
            | Some (s, backupErr) =>
                let usable := bool_decide (backupErr = None) in
                match restartAndRestore w sv replicationPosition s with
                | None => None
                | Some (s, Err e) =>
                    Some (runDeferred w sv s, (usable, Some e))
                | Some (s, Ok _) =>
                    Some (runDeferred w sv s, (usable, backupErr))
                end
            end
        end
    end.

(** ExecuteBackup runs a backup based on given params. This could be a
    full or incremental backup.  The function returns a boolean that
    indicates if the backup is usable, and an overall error. *)
Definition ExecuteBackup (fl : Flags) (w : World) (sched : list action)
    (cancelled : option bool) (params : BackupParams) (s : sys)
    : option (sys * (bool * option error)) :=
  if isIncrementalBackup params
  then executeIncrementalBackup fl w sched cancelled params s
  else executeFullBackup fl w sched cancelled params s.

(** ** Restore *)

(** [bh.ReadFile(ctx, name)]: the bytes stored under [name]. *)
Definition ReadFile (io : restoreIO) (name : string) (h : BackupHandle)
    : result (list byte) :=
  match rio_ReadFile io with
  | Some e => Err e
  | None =>
      match bh_files h !! name with
      | Some (Bytes data) => Ok data
      | _ => Err (Plain "file does not exist")
      end
  end.

Inductive decompressor :=
| ExternalDecompressorCmd_ (cmd : string)
| BuiltinDecompressor (engine : string).

(** Lines 1027-1049 of [restoreFile]: which decompressor is created for
    a manifest that was not taken with [SkipCompress]. *)
Definition selectDecompressor (fl : Flags) (bm : builtinBackupManifest)
    : result decompressor :=
  let deCompressionEngine :=
    if decide (CompressionEngine bm = "")
    then (* for backward compatibility *) PgzipCompressor
    else CompressionEngine bm in
  let externalDecompressorCmd :=
    if decide (ExternalDecompressorCmd fl = "" ∧
               ExternalDecompressor bm ≠ "")
    then ExternalDecompressor bm
    else ExternalDecompressorCmd fl in
  if decide (externalDecompressorCmd ≠ "") then
    if decide (deCompressionEngine = ExternalCompressor)
    then Ok (ExternalDecompressorCmd_ externalDecompressorCmd)
    else Ok (BuiltinDecompressor deCompressionEngine)
  else
    if decide (deCompressionEngine = ExternalCompressor)
    then Err (GoErrorf errUnsupportedDeCompressionEngine
                       "value: external")
    else Ok (BuiltinDecompressor deCompressionEngine).

Definition EvNewDecompressor (d : decompressor) (r : option error)
    : event :=
  match d with
  | ExternalDecompressorCmd_ cmd => EvNewExternalDecompressor cmd r
  | BuiltinDecompressor engine => EvNewBuiltinDecompressor engine r
  end.

Definition write_file (path : string) (data : list byte) (s : sys) : sys :=
  set_fs (<[path := data]> (fs s)) s.

(** restoreFile restores an individual file. *)
Definition restoreFile (fl : Flags) (io : restoreIO) (cnf : Mycnf)
    (fe : FileEntry) (bm : builtinBackupManifest) (name : string)
    (s : sys) : sys * option error :=
  (* Open the source file for reading. *)
  match ReadFile io name (bh s) with
  | Err e => (s, Some (Wrap e "can't open source file for reading"))
  | Ok stored =>
  (* Open the destination file for writing. *)
  let opened :=
    match fullPath fe cnf with
    | Err e => Err (Wrap e "cannot evaluate full name")
    | Ok path =>
        match rio_MkdirAll io with
        | Some e => Err (Wrap e "cannot create destination directory")
        | None =>
            match rio_Create io with
            | Some e => Err (Wrap e "cannot create destination file")
            | None => Ok path
            end
        end
    end in
  match opened with
  | Err e => (s, Some (Wrap e "can't open destination file for writing"))
  | Ok path =>
      let s := log (EvCreate path) (write_file path [] s) in
      (* Create the uncompresser if needed. *)
      let '(s, decompressing, created) :=
        if negb (SkipCompress bm) then
          match selectDecompressor fl bm with
          | Err e => (s, false, Some e)
          | Ok d =>
              let r := rio_newDecompressor io in
              (log (EvNewDecompressor d r) s,
               bool_decide (r = None),
               wrap_step r "can't create decompressor")
          end
        else (s, false, None) in
      let finalErr :=
        first_error
          [ created;
            (* Copy the data. Will also write to the hasher. *)
            wrap_step (rio_Copy io) "failed to copy file contents";
            (* Check the hash. *)
            if decide (Pipe.hash_of stored = Hash fe) then None
            else Some (Errorf Code_INTERNAL "hash mismatch");
            (* Flush the buffer. *)
            wrap_step (rio_Flush io) "failed to flush destination buffer";
            wrap_step (close_reader_pipe name)
                      "failed to close the source reader" ] in
      let s :=
        write_file path
          (match finalErr with
           | None => rio_plain io
           | Some _ => rio_partial io
           end) s in
      (* deferred: decompressor.Close() *)
      let finalErr :=
        if decompressing then
          match rio_closeDecompressor io, finalErr with
          | Some cerr, None =>
              Some (Wrap cerr "failed to close decompressor")
          | _, _ => finalErr
          end
        else finalErr in
      (* deferred: dest.Close() *)
      let finalErr :=
        match rio_closeDest io, finalErr with
        | Some cerr, None =>
            Some (Wrap cerr "failed to close destination file")
        | _, _ => finalErr
        end in
      (s, finalErr)
  end end.

Definition rec_hasErrors (s : sys) : bool :=
  match rec s with
  | [] => false
  | _ => true
  end.

Definition rec_recordError (e : error) (s : sys) : sys :=
  set_rec (rec s ++ [e]) s.

(** Modelled from the spec: [concurrency.AllErrorRecorder] is not among
    the sources; its [Error] consolidates the recorded errors. *)
Definition rec_Error (s : sys) : option error :=
  match rec s with
  | [] => None
  | es => Some (Aggregate es)
  end.

Definition set_ParentPath (fe : FileEntry) (dir : string) : FileEntry :=
  {| Base := Base fe; Name := Name fe; Hash := Hash fe;
     ParentPath := dir |}.

Definition set_CompressionEngine (bm : builtinBackupManifest)
    (engine : string) : builtinBackupManifest :=
  {| base := base bm; CompressionEngine := engine;
     FileEntries := FileEntries bm; SkipCompress := SkipCompress bm;
     ExternalDecompressor := ExternalDecompressor bm |}.

(** The body of the goroutine of [restoreFiles] once it holds the
    semaphore and has found the context live and [rec] empty. *)
Definition restoreTask (fl : Flags) (w : World) (params : RestoreParams)
    (bm : builtinBackupManifest) (createdDir : string)
    (i : nat) (fe : FileEntry) (s : sys)
    : sys * FileEntry * option error :=
  let fe := set_ParentPath fe createdDir in
  (* And restore the file. *)
  let '(s, err) :=
    restoreFile fl (w_restoreIO w i) (r_Cnf params) fe bm (pretty i) s in
  (match err with
   | Some e => rec_recordError (Wrap e "can't restore file") s
   | None => s
   end, fe, err).

(** restoreFiles will copy all the files from the BackupStorage to the
    right place.  The result is [createdDir] and the error. *)
Definition restoreFiles (fl : Flags) (w : World) (sched : list action)
    (cancelled : option bool) (params : RestoreParams)
    (bm : builtinBackupManifest) (s : sys)
    : option (sys * (string * option error)) :=
  let bm :=
    if decide (CompressionEngine bm = PargzipCompressor)
    then set_CompressionEngine bm PgzipCompressor
    else bm in
  let made :=
    if Incremental (base bm) then
      match w_MkdirTemp w with
      | Err e => Err e
      | Ok dir => Ok (dir, log (EvMkdirTemp dir) s)
      end
    else Ok ("", s) in
  match made with
  | Err e => Some (s, ("", Some e))
  | Ok (createdDir, s) =>
      match Wait (r_Concurrency params) rec_hasErrors rec_recordError
                 (restoreTask fl w params bm createdDir) sched
                 (pool_init cancelled (FileEntries bm) (set_rec [] s)) with
      | None => None
      | Some p => Some (st p, (createdDir, rec_Error (st p)))
      end
  end.

(** executeRestoreFullBackup restores the files from a full backup. *)
Definition executeRestoreFullBackup (fl : Flags) (w : World)
    (sched : list action) (cancelled : option bool)
    (params : RestoreParams) (bm : builtinBackupManifest) (s : sys)
    : option (sys * option error) :=
  match w_prepareToRestore w with
  | Some e => Some (s, Some e)
  | None =>
      match restoreFiles fl w sched cancelled params bm s with
      | None => None
      | Some (s, (_, Some e)) =>
          (* don't delete the file here because that is how we detect an
             interrupted restore *)
          Some (s, Some (Wrap e "failed to restore files"))
      | Some (s, (_, None)) => Some (s, None)
      end
  end.

(** [os.Remove]. *)
Definition Remove (path : string) (s : sys) : sys :=
  log (EvRemove path) (set_fs (delete path (fs s)) s).

Definition under (dir path : string) : bool :=
  bool_decide (path = dir) || String.prefix (dir +:+ "/") path.

(** [os.RemoveAll]: the path and everything below it; nothing for the
    empty path. *)
Definition RemoveAll (dir : string) (s : sys) : sys :=
  log (EvRemoveAll dir)
      (if decide (dir = "") then s
       else set_fs (filter (fun kv => negb (under dir kv.1)) (fs s)) s).

(** The loop of [executeRestoreIncrementalBackup] over the file
    entries; the second result lists the files whose removal has been
    deferred, most recent first. *)
Fixpoint applyBinlogFiles (w : World) (cnf : Mycnf) (createdDir : string)
    (entries : list FileEntry) (applied : list string) (s : sys)
    : sys * list string * option error :=
  match entries with
  | [] => (s, applied, None)
  | fe :: rest =>
      match fullPath (set_ParentPath fe createdDir) cnf with
      | Err e => (s, applied, Some (Wrap e "failed to restore file"))
      | Ok binlogFile =>
          let r := w_ApplyBinlogFile w binlogFile in
          let s := log (EvApplyBinlogFile binlogFile r) s in
          match r with
          | Some e =>
              (s, applied, Some (Wrap e "failed to extract binlog file"))
          | None =>
              applyBinlogFiles w cnf createdDir rest
                               (binlogFile :: applied) s
          end
      end
  end.

(** executeRestoreIncrementalBackup executes a restore of an incremental
    backup.  The deferred calls run when it returns: the removal of each
    applied file, last first, then the removal of [createdDir]. *)
Definition executeRestoreIncrementalBackup (fl : Flags) (w : World)
    (sched : list action) (cancelled : option bool)
    (params : RestoreParams) (bm : builtinBackupManifest) (s : sys)
    : option (sys * option error) :=
  match restoreFiles fl w sched cancelled params bm s with
  | None => None
  | Some (s, (createdDir, err)) =>
      if negb (r_MysqldIsReal params) then
        Some (RemoveAll createdDir s,
              Some (Errorf Code_UNIMPLEMENTED "expected: Mysqld"))
      else
        let '(s, applied, loopErr) :=
          applyBinlogFiles w (r_Cnf params) createdDir (FileEntries bm)
                           [] s in
        let result :=
          match loopErr with
          | Some e => Some e
          | None => wrap_step err "failed to restore files"
          end in
        Some (RemoveAll createdDir (foldl (flip Remove) s applied), result)
  end.

(** [getBackupManifestInto]: the manifest is read from the handle. *)
Definition getBackupManifestInto (w : World) (h : BackupHandle)
    : result builtinBackupManifest :=
  match w_getBackupManifestInto w with
  | Err e => Err e
  | Ok _ =>
      match bh_files h !! backupManifestFileName with
      | Some (ManifestJSON bm) => Ok bm
      | _ => Err (Plain "can't read MANIFEST")
      end
  end.

(** ExecuteRestore restores from a backup.  If the restore is
    successful we return the manifest, otherwise an error. *)
Definition ExecuteRestore (fl : Flags) (w : World) (sched : list action)
    (cancelled : option bool) (params : RestoreParams) (s : sys)
    : option (sys * result BackupManifest) :=
  match getBackupManifestInto w (bh s) with
  | Err e => Some (s, Err e)
  | Ok bm =>
      (* mark restore as in progress *)
      match w_createStateFile w with
      | Some e => Some (s, Err e)
      | None =>
          let run :=
            if Incremental (base bm)
            then executeRestoreIncrementalBackup fl w sched cancelled
                                                 params bm s
            else executeRestoreFullBackup fl w sched cancelled
                                          params bm s in
          match run with
          | None => None
          | Some (s, Some e) => Some (s, Err e)
          | Some (s, None) => Some (s, Ok (base bm))
          end
      end
  end.

(** ** Reading a trace *)

Definition is_task_of (i : nat) (ev : event) : Prop :=
  ev = EvTaskStart i ∨ ∃ o, ev = EvTaskEnd i o.

(** Neither a task event nor a manifest event. *)
Definition is_other_event (ev : event) : bool :=
  negb (is_task_event ev) && negb (is_manifest_event ev).




(** Each of the [n] file tasks has ended. *)
Definition copies_finished (n : nat) (t : list event) : Prop :=
  ∀ i, i < n → ∃ o, EvTaskEnd i o ∈ t.

(** Each of the [n] file tasks ran its copy, and the copy returned
    nil. *)
Definition copies_succeeded (n : nat) (t : list event) : Prop :=
  ∀ i, i < n → EvTaskEnd i (Ran None) ∈ t.

(** The task events of [t] are events of the tasks below [n]. *)
Definition tasks_below (n : nat) (t : list event) : Prop :=
  ∀ i ev, ev ∈ t → is_task_of i ev → i < n.

(** The manifest was added, written and closed without an error. *)
Definition manifest_written (t : list event) : Prop :=
  t = [EvManifestAdd None; EvManifestWrite None; EvManifestClose None].

(** The files that [backupFiles] is to copy: the binary logs it is
    given for an incremental backup, the files of the data directories
    otherwise. *)
Definition files_found (w : World) (params : BackupParams)
    (binlogFiles : list string) : result (list FileEntry) :=
  if isIncrementalBackup params
  then w_binlogFilesToBackup w binlogFiles
  else w_findFilesToBackup w.

(** The files that a run of [ExecuteBackup] from [s] has to copy: the
    files found for the call of [backupFiles] that the run makes;
    [None] when the run returns before that call, or when the search
    fails. *)
Definition files_to_copy (fl : Flags) (w : World) (params : BackupParams)
    (s : sys) : option (list FileEntry) :=
  let found params binlogs :=
    match files_found w params binlogs with
    | Ok entries => Some entries
    | Err _ => None
    end in
  if isIncrementalBackup params then
    match incrementalPlan w params s with
    | Some (_, Ok (params', _, _, binlogs, _)) => found params' binlogs
    | _ => None
    end
  else
    match saveInitialState fl w s with
    | Some (s1, Ok sv) =>
        match captureAndShutdown w sv s1 with
        | Some (_, Ok _) => found params []
        | _ => None
        end
    | _ => None
    end.

(** The entry [fe] of file [i] with the hash that its copy saves: the
    hash of the bytes stored for it. *)
Definition copied_entry (w : World) (i : nat) (fe : FileEntry)
    : FileEntry :=
  {| Base := Base fe; Name := Name fe;
     Hash := Pipe.hash_of (io_stored (w_backupIO w i));
     ParentPath := ParentPath fe |}.

(** The handle [h] holds the backup of [entries]: the bytes of file [i]
    under the name [i], for every entry, and a manifest that lists the
    entries, each with the hash of its stored bytes. *)
Definition backup_stored (w : World) (entries : list FileEntry)
    (h : BackupHandle) : Prop :=
  (∃ bm, bh_files h !! backupManifestFileName = Some (ManifestJSON bm) ∧
         FileEntries bm = imap (copied_entry w) entries) ∧
  ∀ i fe, entries !! i = Some fe →
          bh_files h !! pretty i
          = Some (Bytes (io_stored (w_backupIO w i))).

(** The shape of a backup run from [s] to [s'] that has the files
    [found] to copy: the new events are events of the daemon, then the
    events of the file tasks, then the events of the manifest, then
    events of the daemon again.  When there is nothing to copy because
    the run returned early or the search failed, no task is started, the
    manifest is not touched and the backup is not usable.  Otherwise
    there is one task per file found and each of them has ended before
    the manifest is touched; the manifest is touched only when the
    handle has no errors and every copy has succeeded; [usable] says
    that every copy succeeded and the manifest was written; and a usable
    backup has every file found, and the manifest that lists them, in
    the handle. *)
Definition manifest_last (found : option (list FileEntry)) (w : World)
    (s s' : sys) (usable : bool) : Prop :=
  ∃ before copies manifest after,
    trace s' = (trace s ++ before ++ copies ++ manifest ++ after)%list ∧
    forallb is_other_event before = true ∧
    forallb is_task_event copies = true ∧
    forallb is_manifest_event manifest = true ∧
    forallb is_other_event after = true ∧
    match found with
    | None => copies = [] ∧ manifest = [] ∧ usable = false
    | Some entries =>
        let n := length entries in
        copies_finished n copies ∧
        tasks_below n copies ∧
        (manifest ≠ [] →
         bh_errors (bh s') = [] ∧ copies_succeeded n copies) ∧
        (usable = true ↔
         copies_succeeded n copies ∧ manifest_written manifest) ∧
        (usable = true → backup_stored w entries (bh s'))
    end.

(** No shutdown of the daemon has returned nil. *)
Definition never_shut_down (t : list event) : Prop :=
  ∀ c, EvShutdown c None ∉ t.



(** ** The claims that fail, as they are stated *)


(** C6 as stated: an incremental backup whose from-position does not
    decode to a MySQL56 position returns a failed-precondition error and
    leaves the state as it was. *)
Definition flavor_rejection_as_claimed (fl : Flags) (w : World)
    (sched : list action) (cancelled : option bool)
    (params : BackupParams) (s : sys) : Prop :=
  (∀ g, w_DecodePosition w (p_IncrementalFromPos params)
        ≠ Ok (Some (Mysql56GTIDSet g))) →
  ∃ e,
    executeIncrementalBackup fl w sched cancelled params s
      = Some (s, (false, Some e)) ∧
    CodeOf e = Code_FAILED_PRECONDITION.

(** The hash that [restoreFile] computes for entry [i] differs from the
    one its manifest entry records. *)
Definition hash_differs (bm : builtinBackupManifest) (i : nat)
    (h : BackupHandle) : Prop :=
  ∃ fe stored,
    FileEntries bm !! i = Some fe ∧
    bh_files h !! pretty i = Some (Bytes stored) ∧
    Pipe.hash_of stored ≠ Hash fe.

(** C4 as stated, for a run of [ExecuteRestore] from a state with an
    empty trace in which the copy of entry [i] reaches the hash check and
    finds a mismatch: the restore returns an error that carries an
    internal-kind error, nothing is deleted, and every file that was
    created is still there. *)
Definition mismatch_aborts_as_claimed (fl : Flags) (w : World)
    (sched : list action) (cancelled : option bool)
    (params : RestoreParams) (s : sys) : Prop :=
  ∀ s' r,
    ExecuteRestore fl w sched cancelled params s = Some (s', r) →
    (∃ i o, EvTaskEnd i (Ran (Some (Errorf Code_INTERNAL o)))
            ∈ trace s') →
    (∃ e o, r = Err e ∧ Carries (Errorf Code_INTERNAL o) e) ∧
    (∀ ev, ev ∈ trace s' → is_delete_event ev = false) ∧
    (∀ path, EvCreate path ∈ trace s' → is_Some (fs s' !! path)).

(** ** A concrete tablet

    A primary with semi-sync on and two files to back up, three closed
    binary logs and one open, and a storage whose answers are given per
    file.  The parameters of [example_world] are the answers that differ
    between the runs below. *)

Definition example_cnf : Mycnf :=
  {| InnodbDataHomeDir := "/vt/innodb/data";
     InnodbLogGroupHomeDir := "/vt/innodb/logs";
     DataDir := "/vt/data";
     BinLogPath := "/vt/bin-logs/vt-bin" |}.

Definition example_entries : list FileEntry :=
  [ {| Base := backupInnodbDataHomeDir; Name := "ibdata1"; Hash := "";
       ParentPath := "" |};
    {| Base := backupData; Name := "ks/t.ibd"; Hash := "";
       ParentPath := "" |} ].

Definition example_uuid : string := "u".

(** The transactions 1 to [n] of the example server. *)
Definition gtids (n : nat) : gset (string * nat) :=
  list_to_set ((fun k => (example_uuid, k)) <$> seq 1 n).

Definition example_ParsePosition (flavor text : string) : result Position :=
  if decide (flavor ≠ Mysql56FlavorID)
  then Err (Errorf Code_INTERNAL "parse error: unknown GTIDSet flavor")
  else if decide (text = "") then Ok (Some (Mysql56GTIDSet ∅))
  else if decide (text = "u:1-2") then Ok (Some (Mysql56GTIDSet (gtids 2)))
  else if decide (text = "u:1-3") then Ok (Some (Mysql56GTIDSet (gtids 3)))
  else if decide (text = "u:1-4") then Ok (Some (Mysql56GTIDSet (gtids 4)))
  else if decide (text = "u:1-6") then Ok (Some (Mysql56GTIDSet (gtids 6)))
  else Err (Errorf Code_INTERNAL "invalid MySQL 5.6 GTID set").

Definition example_DecodePosition (s : string) : result Position :=
  if decide (s = "MySQL56/u:1-3")
  then Ok (Some (Mysql56GTIDSet (gtids 3)))
  else if decide (s = "MariaDB/0-1-2") then Ok (Some (MariadbGTIDSet "0-1-2"))
  else Err (Errorf Code_INTERNAL "parse error: unknown GTIDSet flavor").

Definition example_previous (binlog : string) : result string :=
  if decide (binlog = "vt-bin.000001") then Ok "u:1-2"
  else if decide (binlog = "vt-bin.000002") then Ok "u:1-4"
  else if decide (binlog = "vt-bin.000003") then Ok "u:1-4"
  else if decide (binlog = "vt-bin.000004") then Ok "u:1-6"
  else Err (Plain "no such binary log").

Definition ok_backupIO (stored : list byte) : backupIO :=
  {| io_Open := None; io_Stat := None; io_AddFile := None;
     io_newCompressor := None; io_Copy := None;
     io_closeCompressor := None; io_stored := stored;
     io_Flush := None; io_closeDest := None |}.


Definition ok_restoreIO (plain : list byte) : restoreIO :=
  {| rio_ReadFile := None; rio_MkdirAll := None; rio_Create := None;
     rio_newDecompressor := None; rio_Copy := None; rio_plain := plain;
     rio_partial := []; rio_Flush := None; rio_closeDest := None;
     rio_closeDecompressor := None |}.

Definition example_world (start : option error) (bio : nat → backupIO)
    (decode : string → result Position) (manifestClose : option error)
    : World :=
  {| w_SemiSyncEnabled := (true, false);
     w_ReplicationStatus := RsNotReplica;
     w_IsReadOnly := Ok false;
     w_IsSuperReadOnly := Ok false;
     w_SetSuperReadOnly_on := None;
     w_PrimaryPosition := Ok (Some (Mysql56GTIDSet (gtids 6)));
     w_StopReplication := None;
     w_ReplicationStatus_stopped := Ok (Some (Mysql56GTIDSet (gtids 6)));
     w_GetGTIDPurged := Ok (Some (Mysql56GTIDSet (gtids 1)));
     w_GetServerUUID := Ok example_uuid;
     w_Shutdown := None;
     w_Start := start;
     w_SetSuperReadOnly_restore := None;
     w_SetSuperReadOnly_deferred := None;
     w_SetSemiSyncEnabled := None;
     w_StartReplication := None;
     w_WaitForReplicationStart := None;
     w_GetShard := Ok "zone1-100";
     w_GetTablet := Ok "zone1-100";
     w_tmc_PrimaryPosition := Ok "MySQL56/u:1-3";
     w_polls := [];
     w_GetBackupStorage := None;
     w_ListBackups := None;
     w_FindLatestSuccessfulBackup := Ok (Some (Mysql56GTIDSet (gtids 3)));
     w_FlushBinaryLogs := None;
     w_GetBinaryLogs :=
       Ok ["vt-bin.000001"; "vt-bin.000002"; "vt-bin.000003";
           "vt-bin.000004"];
     w_GetPreviousGTIDs := example_previous;
     w_covers_server_position :=
       fun f => bool_decide (f = "vt-bin.000003");
     w_server_position := "u:1-6";
     w_DecodePosition := decode;
     w_ParsePosition := example_ParsePosition;
     w_EncodePosition := fun _ => "MySQL56/u:1-3";
     w_findFilesToBackup := Ok example_entries;
     w_binlogFilesToBackup :=
       fun logs =>
         Ok ((fun f => {| Base := backupBinlogDir; Name := f; Hash := "";
                          ParentPath := "" |}) <$> logs);
     w_backupIO := bio;
     w_manifest_AddFile := None;
     w_manifest_Marshal := None;
     w_manifest_Write := None;
     w_manifest_Close := manifestClose;
     w_now := "2023-06-01T10:00:05Z";
     w_getBackupManifestInto := Ok
       {| base := {| BackupMethod := ""; Position_ := None;
                     PurgedPosition := None; FromPosition := None;
                     Incremental := false; ServerUUID := "";
                     TabletAlias := ""; Keyspace := ""; Shard := "";
                     BackupTime := ""; FinishedTime := "" |};
          CompressionEngine := ""; FileEntries := [];
          SkipCompress := false; ExternalDecompressor := "" |};
     w_createStateFile := None;
     w_prepareToRestore := None;
     w_MkdirTemp := Ok "/tmp/restore-incremental-1";
     w_restoreIO := fun _ => ok_restoreIO ["r"; "o"; "w"]%byte;
     w_ApplyBinlogFile := fun _ => None |}.

Definition example_bio (i : nat) : backupIO :=
  ok_backupIO (if decide (i = 0) then ["a"; "b"; "c"]%byte
               else ["d"; "e"]%byte).

(** Every collaborator answers without an error. *)
Definition world_ok : World :=
  example_world None example_bio example_DecodePosition None.


(** The sink of the manifest fails on close. *)
Definition world_close_fails : World :=
  example_world None example_bio example_DecodePosition
                (Some (Plain "upload failed")).

Definition example_flags : Flags :=
  {| backupStorageCompress := true;
     CompressionEngineName := "pgzip";
     ExternalCompressorCmd := "";
     ExternalDecompressorCmd := "";
     ManifestExternalDecompressorCmd := "";
     DisableActiveReparents := false |}.

Definition example_params (fromPos : string) : BackupParams :=
  {| p_Cnf := example_cnf; p_Concurrency := 2;
     p_IncrementalFromPos := fromPos; p_TabletAlias := "zone1-100";
     p_Keyspace := "ks"; p_Shard := "-80";
     p_BackupTime := "2023-06-01T10:00:00Z" |}.

Definition empty_handle : BackupHandle :=
  {| bh_errors := []; bh_files := ∅ |}.

Definition example_sys (h : BackupHandle) : sys :=
  {| mysqld := {| running := true; super_read_only := false;
                  semi_sync := (true, false); replicating := false |};
     bh := h; rec := []; fs := ∅; trace := [] |}.

(** A stored backup of one file whose manifest records [hash] for it. *)
Definition stored_manifest (incremental : bool) (engine : string)
    (fe : FileEntry) : builtinBackupManifest :=
  {| base :=
       {| BackupMethod := builtinBackupEngineName;
          Position_ := Some (Mysql56GTIDSet (gtids 6));
          PurgedPosition := None;
          FromPosition :=
            if incremental then Some (Mysql56GTIDSet (gtids 2)) else None;
          Incremental := incremental;
          ServerUUID := example_uuid;
          TabletAlias := "zone1-100"; Keyspace := "ks"; Shard := "-80";
          BackupTime := "2023-06-01T10:00:00Z";
          FinishedTime := "2023-06-01T10:00:05Z" |};
     CompressionEngine := engine;
     FileEntries := [fe];
     SkipCompress := false;
     ExternalDecompressor := "" |}.

Definition stored_backup (bm : builtinBackupManifest) : BackupHandle :=
  {| bh_errors := [];
     bh_files := <[backupManifestFileName := ManifestJSON bm]>
                   (<["0" := Bytes ["a"; "b"; "c"]%byte]> ∅) |}.

(** The entry of a binary log whose recorded hash is not the hash of
    the stored bytes. *)
Definition corrupt_binlog_entry : FileEntry :=
  {| Base := backupBinlogDir; Name := "vt-bin.000001";
     Hash := "00000000"; ParentPath := "" |}.

Definition corrupt_data_entry : FileEntry :=
  {| Base := backupData; Name := "ks/t.ibd";
     Hash := "00000000"; ParentPath := "" |}.

Definition example_restore_params : RestoreParams :=
  {| r_Cnf := example_cnf; r_Concurrency := 2;
     r_RestoreToPos := Some (Mysql56GTIDSet (gtids 6));
     r_MysqldIsReal := true |}.

(** ** What a run keeps *)

(** The trace grows by events that satisfy [okev]. *)
Definition extends (okev : event → bool) (s s' : sys) : Prop :=
  ∃ t, trace s' = (trace s ++ t)%list ∧ forallb okev t = true.

(** [respects R m]: every run of [m] takes a state to one related to it
    by [R]. *)
Definition respects (R : sys → sys → Prop) {A} (m : M A) : Prop :=
  ∀ s s' r, m s = Some (s', r) → R s s'.

(** A step that leaves the handle and the files alone and logs neither
    task events nor manifest events. *)
Definition quietly (s s' : sys) : Prop :=
  bh s' = bh s ∧ fs s' = fs s ∧ extends is_other_event s s'.

Definition quiet {A} (m : M A) : Prop := respects quietly m.




(** What a restore step does to the state: the handle stays, no file
    disappears, no event is a deletion, and every file whose creation is
    logged is there. *)
Definition restoring (s s' : sys) : Prop :=
  bh s' = bh s ∧
  (∀ path, is_Some (fs s !! path) → is_Some (fs s' !! path)) ∧
  ∃ t, trace s' = (trace s ++ t)%list ∧
       (∀ ev, ev ∈ t → is_delete_event ev = false) ∧
       (∀ path, EvCreate path ∈ t → is_Some (fs s' !! path)).

(** The errors that a copy leaves in a recorder. *)
Definition recorded (err : option error) : list error :=
  match err with
  | Some e => [e]
  | None => []
  end.

(** Every entry of the cache of [getBinlogPreviousGTIDs] is what the
    daemon answers for that binary log. *)
Definition cache_sound (w : World) (cache : gmap string string) : Prop :=
  ∀ binlog gtids, cache !! binlog = Some gtids →
                  w_GetPreviousGTIDs w binlog = Ok gtids.

(** ** Invariants of the file-task pool *)

(** Every task that did not run its copy to a nil result has left an
    error behind. *)
Definition failures_recorded (hasErrors : sys → bool) (p : pool) : Prop :=
  ∀ i o, tasks p !! i = Some (Finished o) → o ≠ Ran None →
         hasErrors (st p) = true.

(** The events that a task may log besides its start and its end. *)
Definition inner (okev : event → bool) (ev : event) : bool :=
  okev ev && negb (is_task_event ev).

(** Relative to the trace [t0] at the start of the pool: the new
    events satisfy [okev], the finished tasks are those whose end is
    among them, and every task event among them belongs to a task of
    the pool. *)
Definition pool_trace (okev : event → bool) (t0 : list event) (p : pool)
    : Prop :=
  ∃ t, trace (st p) = (t0 ++ t)%list ∧
       forallb okev t = true ∧
       (∀ i o, tasks p !! i = Some (Finished o) ↔ EvTaskEnd i o ∈ t) ∧
       (∀ i ev, ev ∈ t → is_task_of i ev → i < length (tasks p)).

(** With [reported s e] for "the state keeps a record of the error [e]
    of a copy": the error of every copy that failed is on record. *)
Definition results_reported (reported : sys → error → Prop) (p : pool)
    : Prop :=
  ∀ i e, tasks p !! i = Some (Finished (Ran (Some e))) →
         reported (st p) e.

(** A task that has not finished still has the entry it was given, and
    the result of a copy that ran is [verdict] of its index and entry. *)
Definition results_decided (entries : list FileEntry)
    (verdict : nat → FileEntry → option error) (p : pool) : Prop :=
  (∀ i, (∀ o, tasks p !! i ≠ Some (Finished o)) →
        fes p !! i = entries !! i) ∧
  (∀ i err, tasks p !! i = Some (Finished (Ran err)) →
            ∃ fe, entries !! i = Some fe ∧ err = verdict i fe).

(** With [good i fe fe' s] for "the copy of task [i] on its entry [fe]
    has left the entry [fe'] and its mark on the state [s]": a task
    that has not finished still has the entry it was given, and every
    copy that returned nil has left its entry and its mark. *)
Definition copies_kept (entries : list FileEntry)
    (good : nat → FileEntry → FileEntry → sys → Prop) (p : pool) : Prop :=
  (∀ i, (∀ o, tasks p !! i ≠ Some (Finished o)) →
        fes p !! i = entries !! i) ∧
  (∀ i, tasks p !! i = Some (Finished (Ran None)) →
        ∃ fe fe', entries !! i = Some fe ∧ fes p !! i = Some fe' ∧
                  good i fe fe' (st p)).

(** The tasks below [k] have finished, the others wait, and nobody
    holds the semaphore. *)
Definition done_below (n k : nat) (p : pool) : Prop :=
  held p = 0 ∧ length (tasks p) = n ∧ length (fes p) = n ∧
  (∀ j : nat, (j < k)%nat → ∃ o, tasks p !! j = Some (Finished o)) ∧
  (∀ j : nat, (k ≤ j)%nat → (j < n)%nat → tasks p !! j = Some Waiting).

(** ** Reading a restore *)

(** The manifest as [restoreFiles] hands it to its tasks: "pargzip" is
    read as "pgzip". *)
Definition restore_manifest (bm : builtinBackupManifest)
    : builtinBackupManifest :=
  if decide (CompressionEngine bm = PargzipCompressor)
  then set_CompressionEngine bm PgzipCompressor
  else bm.

(** [restoreFile] gets as far as its hash check with the bytes [stored]
    read from the handle [h]: the source and the destination open, the
    decompressor is created unless the backup skipped compression, and
    the copy returns nil. *)
Definition reaches_hash_check (fl : Flags) (io : restoreIO) (cnf : Mycnf)
    (fe : FileEntry) (bm : builtinBackupManifest) (name : string)
    (h : BackupHandle) (stored : list byte) : Prop :=
  ReadFile io name h = Ok stored ∧
  (∃ path, fullPath fe cnf = Ok path) ∧
  rio_MkdirAll io = None ∧
  rio_Create io = None ∧
  (SkipCompress bm = false →
   (∃ d, selectDecompressor fl bm = Ok d) ∧ rio_newDecompressor io = None) ∧
  rio_Copy io = None.

End Backup.

(* ===================================================================== *)
(** * Reading runs of the streamer *)
(* ===================================================================== *)

Module HealthRuns.
Import Health.

(** The state that [ChangeState] builds from its arguments and from the
    state it finds, lines 234-249. *)
Definition next_state (a : stateChange) (s : StreamHealthResponse)
    : StreamHealthResponse :=
  {| Target_ := {| Keyspace := Keyspace (Target_ s);
                   Shard := Shard (Target_ s);
                   TabletType_ := tabletType a |};
     TabletAlias := TabletAlias s;
     Serving := serving a;
     TabletExternallyReparentedTimestamp :=
       if decide (tabletType a = TabletType_PRIMARY)
       then terTimestamp a else 0%Z;
     RealtimeStats_ :=
       {| HealthError := match healthErr a with
                         | Some m => m
                         | None => ""
                         end;
          ReplicationLagSeconds :=
            (Z.quot (lag a) 1000000000 mod 2 ^ 32)%Z;
          FilteredReplicationLagSeconds := fst (blp a);
          BinlogPlayersCount := snd (blp a);
          Qps := qpsRate a;
          TableSchemaChanged :=
            TableSchemaChanged (RealtimeStats_ s);
          ViewSchemaChanged :=
            ViewSchemaChanged (RealtimeStats_ s) |} |}.

(** The states that a run of state changes from the state [s]
    broadcasts, oldest first. *)
Fixpoint broadcasts (changes : list stateChange) (s : StreamHealthResponse)
    : list StreamHealthResponse :=
  match changes with
  | [] => []
  | a :: rest => next_state a s :: broadcasts rest (next_state a s)
  end.

End HealthRuns.

(* ===================================================================== *)
(** * Reading runs of the hashing pipe *)
(* ===================================================================== *)

Module PipeRuns.
Import Pipe.

(** [k] calls of [Read] in a row: the pipe they leave and the bytes they
    hand out, in order. *)
Fixpoint Reads (k : nat) (bp : backupPipe) : go (backupPipe * list byte) :=
  match k with
  | O => Ret (bp, [])
  | S k =>
      p ←go Read bp;
      q ←go Reads k p.1;
      Ret (q.1, (p.2.1 ++ q.2)%list)
  end.

End PipeRuns.

(* ===================================================================== *)
(** * Reading runs of the backup engine *)
(* ===================================================================== *)

Module BackupRuns.
Import Backup.

(** The number of file tasks that hold the semaphore and run their
    copy. *)
Definition is_running (t : tstatus) : bool :=
  match t with
  | Running => true
  | _ => false
  end.

Definition running_tasks (p : pool) : nat :=
  length (filter (fun t => is_running t = true) (tasks p)).

(** A task ended without running its copy: it could not get the
    semaphore, found the context done, or found an error recorded. *)
Definition ended_without_copy (ev : event) : Prop :=
  ∃ i, ev = EvTaskEnd i AcquireFailed ∨ ev = EvTaskEnd i Cancelled ∨
       ev = EvTaskEnd i Skipped.

Definition is_flush_event (ev : event) : bool :=
  match ev with
  | EvFlushBinaryLogs _ => true
  | _ => false
  end.

(** A step that leaves the daemon as it is and logs flushes of the
    binary logs only. *)
Definition flushing (s s' : sys) : Prop :=
  mysqld s' = mysqld s ∧ extends is_flush_event s s'.

End BackupRuns.

(* ===================================================================== *)
(** * Reading runs of a restore *)
(* ===================================================================== *)

Module RestoreRuns.
Import Backup.




(** The events of the file tasks of a restore. *)
Definition is_unpack_event (ev : event) : bool :=
  match ev with
  | EvCreate _ | EvNewExternalDecompressor _ _
  | EvNewBuiltinDecompressor _ _ | EvTaskStart _ | EvTaskEnd _ _ => true
  | _ => false
  end.

(** A binary log was applied. *)
Definition is_apply_event (ev : event) : bool :=
  match ev with
  | EvApplyBinlogFile _ _ => true
  | _ => false
  end.


Definition sound_binlog_entry : FileEntry :=
  {| Base := backupBinlogDir; Name := "vt-bin.000001";
     Hash := Pipe.hash_of ["a"; "b"; "c"]%byte; ParentPath := "" |}.

End RestoreRuns.

(* ===================================================================== *)
(** * Properties of the health streamer *)
(* ===================================================================== *)

Local Close Scope string_scope.

Module HealthFacts.
Import Health.

(** ** One broadcast, client by client *)

Lemma broadcast_one_open shr hs ch c :
  chans hs !! ch = Some c → ch_closed c = false →
  ∃ hs',
    broadcast_one shr (Ret hs) ch = Ret hs' ∧
    state hs' = state hs ∧ cancel hs' = cancel hs ∧
    viewsEnabled hs' = viewsEnabled hs ∧
    chans hs' = <[ch := deliver shr c]> (chans hs) ∧
    clients hs' = (if decide (has_room c) then clients hs
                   else clients hs ∖ {[ch]}).
Proof.
  intros Hc Hopen. unfold broadcast_one, deliver, has_room. simpl.
  rewrite Hc. unfold try_send, close. rewrite Hopen.
  destruct (decide (length (ch_buf c) < ch_cap c)); simpl.
  - eexists; split; [reflexivity|]. by simpl.
  - eexists; split; [reflexivity|]. simpl.
    repeat split; try done.
Qed.

Lemma broadcast_list shr (l : list nat) : ∀ hs,
  NoDup l → (∀ ch, ch ∈ l → ch ∈ clients hs) → clients_open hs →
  ∃ hs',
    foldl (broadcast_one shr) (Ret hs) l = Ret hs' ∧
    state hs' = state hs ∧ cancel hs' = cancel hs ∧
    viewsEnabled hs' = viewsEnabled hs ∧
    (∀ ch, ch ∉ l →
       chans hs' !! ch = chans hs !! ch ∧
       (ch ∈ clients hs' ↔ ch ∈ clients hs)) ∧
    (∀ ch c, ch ∈ l → chans hs !! ch = Some c →
       chans hs' !! ch = Some (deliver shr c) ∧
       (ch ∈ clients hs' ↔ has_room c)).
Proof.
  induction l as [|x l IH]; intros hs Hnd Hin Hwf.
  - exists hs. simpl. repeat split; try done; set_solver.
  - apply NoDup_cons in Hnd as [Hx Hnd].
    destruct (Hwf x) as (cx & Hcx & Hopen); [apply Hin; set_solver|].
    destruct (broadcast_one_open shr hs x cx Hcx Hopen)
      as (hs1 & E1 & Hst & Hca & Hve & Hch & Hcl).
    destruct (IH hs1) as (hs' & E' & Hst' & Hca' & Hve' & Hout & Hinl).
    + done.
    + intros ch Hch'. rewrite Hcl.
      assert (ch ≠ x) by (intros ->; done).
      assert (ch ∈ clients hs) by (apply Hin; set_solver).
      case_decide; set_solver.
    + intros ch Hch'. rewrite Hch.
      assert (ch ∈ clients hs ∧ (has_room cx ∨ ch ≠ x)) as [Hc1 Hc2].
      { rewrite Hcl in Hch'. case_decide; set_solver. }
      destruct (decide (ch = x)) as [->|Hne].
      * rewrite lookup_insert_eq. eexists; split; [done|].
        unfold deliver. destruct Hc2 as [Hr|]; [|done].
        unfold has_room in Hr. by rewrite decide_True.
      * rewrite lookup_insert_ne by done. by apply Hwf.
    + exists hs'. cbn [foldl]. rewrite E1. split; [exact E'|].
      split; [congruence|]. split; [congruence|]. split; [congruence|].
      split.
      * intros ch Hch'. apply not_elem_of_cons in Hch' as [Hne Hnl].
        destruct (Hout ch Hnl) as [Ho1 Ho2]. split.
        -- rewrite Ho1, Hch. by rewrite lookup_insert_ne.
        -- rewrite Ho2, Hcl. case_decide; set_solver.
      * intros ch c Hch' Hc. apply elem_of_cons in Hch' as [->|Hl].
        -- destruct (Hout x Hx) as [Ho1 Ho2].
           assert (c = cx) as -> by congruence.
           split.
           ++ rewrite Ho1, Hch. by rewrite lookup_insert_eq.
           ++ rewrite Ho2, Hcl. case_decide; [|set_solver].
              split; [done|]. intros _. apply Hin. set_solver.
        -- assert (ch ≠ x) by (intros ->; done).
           apply Hinl; [done|]. rewrite Hch.
           by rewrite lookup_insert_ne.
Qed.

(** A broadcast never blocks and never panics on a streamer whose
    clients are open: it returns, delivers to every client with room and
    closes and removes every client without. *)
Lemma broadCastToClients_spec shr hs :
  clients_open hs →
  ∃ hs',
    broadCastToClients shr hs = Ret hs' ∧
    state hs' = state hs ∧ cancel hs' = cancel hs ∧
    viewsEnabled hs' = viewsEnabled hs ∧
    clients_open hs' ∧
    (∀ ch, ch ∉ clients hs →
       chans hs' !! ch = chans hs !! ch ∧ ch ∉ clients hs') ∧
    (∀ ch c, ch ∈ clients hs → chans hs !! ch = Some c →
       chans hs' !! ch = Some (deliver shr c) ∧
       (ch ∈ clients hs' ↔ has_room c)).
Proof.
  intros Hwf. unfold broadCastToClients.
  destruct (broadcast_list shr (elements (clients hs)) hs)
    as (hs' & E & Hst & Hca & Hve & Hout & Hin).
  - apply NoDup_elements.
  - intros ch. by rewrite elem_of_elements.
  - done.
  - exists hs'. repeat split; try done.
    + intros ch Hch.
      destruct (decide (ch ∈ clients hs)) as [Hc|Hc].
      * destruct (Hwf ch Hc) as (c & Hcc & Hopen).
        destruct (Hin ch c) as [Hl Hr]; [by apply elem_of_elements|done|].
        exists (deliver shr c). split; [done|].
        apply Hr in Hch. unfold deliver, has_room in *.
        by rewrite decide_True.
      * destruct (Hout ch) as [_ Hr]; [by rewrite elem_of_elements|].
        by apply Hr in Hch.
    + apply Hout. by rewrite elem_of_elements.
    + intros Hch'. destruct (Hout ch) as [_ Hr].
      * by rewrite elem_of_elements.
      * by apply Hr in Hch'.
    + apply Hin; [by apply elem_of_elements|done].
    + apply Hin; [by apply elem_of_elements|done].
    + apply Hin; [by apply elem_of_elements|done].
Qed.

(** ** Registration and state changes *)

Lemma register_spec size hs :
  cancel hs = true → 0 < size → clients_open hs →
  ∃ ch hs1,
    register size hs = Ret (Some ch, hs1) ∧
    clients_open hs1 ∧
    (ch ∉ clients hs) ∧ ch ∈ clients hs1 ∧
    chans hs1 !! ch = Some {| ch_cap := size; ch_buf := [state hs];
                             ch_closed := false |}.
Proof.
  intros Hopen Hsize Hwf. unfold register. rewrite Hopen. simpl.
  unfold send. simpl. rewrite decide_True by done. simpl.
  set (ch := fresh (dom (chans hs))).
  assert (chans hs !! ch = None) as Hfresh.
  { apply not_elem_of_dom. apply is_fresh. }
  assert (ch ∉ clients hs) as Hnot.
  { intros Hin. destruct (Hwf ch Hin) as (c & Hc & _). congruence. }
  eexists ch, _. split; [reflexivity|]. simpl.
  split; [|split; [done|split; [set_solver|by rewrite lookup_insert_eq]]].
  intros x Hx. simpl in *.
  destruct (decide (x = ch)) as [->|Hne].
  - rewrite lookup_insert_eq. eauto.
  - rewrite !lookup_insert_ne by done. apply Hwf. set_solver.
Qed.

Lemma ChangeState_spec a hs :
  clients_open hs →
  ∃ hs' shr,
    ChangeState a hs = Ret hs' ∧
    cancel hs' = cancel hs ∧
    clients_open hs' ∧
    (∀ ch, ch ∉ clients hs →
       chans hs' !! ch = chans hs !! ch ∧ ch ∉ clients hs') ∧
    (∀ ch c, ch ∈ clients hs → chans hs !! ch = Some c →
       chans hs' !! ch = Some (deliver shr c) ∧
       (ch ∈ clients hs' ↔ has_room c)).
Proof.
  intros Hwf. unfold ChangeState.
  match goal with
  | |- context [broadCastToClients ?s ?h] =>
      destruct (broadCastToClients_spec s h)
        as (hs' & E & _ & Hca & _ & Hwf' & Hout & Hin); [exact Hwf|]
  end.
  exists hs'. eexists. split; [exact E|].
  split; [exact Hca|]. split; [exact Hwf'|]. split; [exact Hout|].
  exact Hin.
Qed.

Lemma ChangeStates_cons a l hs hs1 :
  ChangeState a hs = Ret hs1 →
  ChangeStates (a :: l) hs = ChangeStates l hs1.
Proof. intros E. unfold ChangeStates. cbn [foldl go_bind]. by rewrite E. Qed.

(** A channel that left the client set is never touched again. *)
Lemma ChangeStates_dropped ch c (changes : list stateChange) : ∀ hs,
  clients_open hs → ch ∉ clients hs → chans hs !! ch = Some c →
  ∃ hs',
    ChangeStates changes hs = Ret hs' ∧ clients_open hs' ∧
    (ch ∉ clients hs') ∧ chans hs' !! ch = Some c.
Proof.
  induction changes as [|a l IH]; intros hs Hwf Hnot Hc.
  - by exists hs.
  - destruct (ChangeState_spec a hs Hwf)
      as (hs1 & shr & E & _ & Hwf1 & Hout & _).
    destruct (Hout ch Hnot) as [Hc1 Hnot1].
    rewrite (ChangeStates_cons _ _ _ _ E).
    apply IH; [done|done|congruence].
Qed.

(** A subscriber with [n] undelivered states that receives nothing stays
    subscribed while the buffer has room and is dropped by the first
    state change that finds the buffer full. *)
Lemma ChangeStates_subscribed ch (changes : list stateChange) :
  ∀ hs c (n : nat),
  clients_open hs → ch ∈ clients hs → chans hs !! ch = Some c →
  length (ch_buf c) = n → n ≤ ch_cap c →
  ∃ hs',
    ChangeStates changes hs = Ret hs' ∧ clients_open hs' ∧
    (if decide (n + length changes ≤ ch_cap c)%nat
     then subscribed hs' ch (n + length changes)%nat
     else dropped hs' ch (ch_cap c)).
Proof.
  induction changes as [|a l IH]; intros hs c n Hwf Hin Hc Hlen Hle.
  - exists hs. split; [done|]. split; [done|].
    simpl. rewrite Nat.add_0_r, decide_True by done.
    destruct (Hwf ch Hin) as (c' & Hc' & Hopen).
    assert (c' = c) as -> by congruence.
    split; [done|]. by exists c.
  - destruct (ChangeState_spec a hs Hwf)
      as (hs1 & shr & E & _ & Hwf1 & _ & Hdel).
    destruct (Hdel ch c Hin Hc) as [Hc1 Hin1].
    rewrite (ChangeStates_cons _ _ _ _ E).
    destruct (decide (n < ch_cap c)) as [Hroom|Hfull].
    + destruct (IH hs1 (deliver shr c) (S n)) as (hs' & E' & Hwf' & Hfate).
      * done.
      * apply Hin1. unfold has_room. lia.
      * done.
      * unfold deliver. rewrite decide_True by lia.
        simpl. rewrite length_app. simpl. lia.
      * unfold deliver. rewrite decide_True by lia. simpl. lia.
      * exists hs'. split; [done|]. split; [done|].
        assert (ch_cap (deliver shr c) = ch_cap c) as Hcap.
        { unfold deliver.
          destruct (decide (length (ch_buf c) < ch_cap c)); reflexivity. }
        rewrite Hcap in Hfate. simpl length.
        replace (n + S (length l))%nat with (S n + length l)%nat by lia.
        exact Hfate.
    + destruct (ChangeStates_dropped ch (deliver shr c) l hs1)
        as (hs' & E' & Hwf' & Hnot' & Hc').
      * done.
      * intros Hx. apply Hin1 in Hx. unfold has_room in Hx. lia.
      * done.
      * exists hs'. split; [done|]. split; [done|].
        simpl length. rewrite decide_False by lia.
        split; [done|]. exists (deliver shr c). split; [done|].
        unfold deliver. rewrite decide_False by lia. simpl.
        split; [done|lia].
Qed.

(** Registration followed by state changes with no receive. *)
Lemma subscriber_fate size hs0 (changes : list stateChange) :
  cancel hs0 = true → clients_open hs0 → 0 < size →
  ∃ ch hs1 hs',
    register size hs0 = Ret (Some ch, hs1) ∧
    ChangeStates changes hs1 = Ret hs' ∧
    (if decide (length changes < size)
     then subscribed hs' ch (1 + length changes)%nat
     else dropped hs' ch size).
Proof.
  intros Hopen Hwf Hsize.
  destruct (register_spec size hs0 Hopen Hsize Hwf)
    as (ch & hs1 & E & Hwf1 & _ & Hin & Hc).
  destruct (ChangeStates_subscribed ch changes hs1 _ 1 Hwf1 Hin Hc)
    as (hs' & E' & _ & Hfate); [done|simpl; lia|].
  exists ch, hs1, hs'. split; [done|]. split; [done|].
  simpl ch_cap in Hfate.
  destruct (decide (length changes < size)).
  - rewrite decide_True in Hfate by lia. exact Hfate.
  - rewrite decide_False in Hfate by lia. exact Hfate.
Qed.

(** ** Subscriber overflow *)

(** C3, as amended: a subscriber that registers on an open streamer with
    buffer size [size] and receives nothing is dropped by state change
    number [size] (registration has already buffered the current state):
    its channel is open through the first [size - 1] state changes, and
    the [size]-th closes it and removes it from the client set.  Every
    state change returns, so the producer neither blocks nor panics, and
    after any longer run the channel is still closed and removed.  With
    size 2 the channel closes at the second state change. *)
Theorem overflow_closes_subscriber size hs0 (changes : list stateChange) :
  cancel hs0 = true → clients_open hs0 → 0 < size →
  size ≤ length changes →
  closes_at size hs0 changes size ∧
  ∃ ch hs1 hs',
    register size hs0 = Ret (Some ch, hs1) ∧
    ChangeStates changes hs1 = Ret hs' ∧
    dropped hs' ch size.
Proof.
  intros Hopen Hwf Hsize Hlen.
  destruct (subscriber_fate size hs0 changes Hopen Hwf Hsize)
    as (ch & hs1 & hs' & Hreg & Hrun & Hfate).
  rewrite decide_False in Hfate by lia.
  split; [|by exists ch, hs1, hs'].
  exists ch, hs1. split; [done|]. split.
  - intros j Hj.
    destruct (subscriber_fate size hs0 (take j changes) Hopen Hwf Hsize)
      as (ch' & hs1' & hsj & Hreg' & Hrunj & Hfatej).
    rewrite Hreg in Hreg'. injection Hreg' as <- <-.
    rewrite length_take, Nat.min_l, decide_True in Hfatej by lia.
    by exists hsj, (1 + j).
  - destruct (subscriber_fate size hs0 (take size changes) Hopen Hwf Hsize)
      as (ch' & hs1' & hsk & Hreg' & Hrunk & Hfatek).
    rewrite Hreg in Hreg'. injection Hreg' as <- <-.
    rewrite length_take, Nat.min_l, decide_False in Hfatek by lia.
    by exists hsk, size.
Qed.

Lemma example_streamer_clients_open : clients_open example_streamer.
Proof. intros ch Hch. simpl in Hch. set_solver. Qed.

Lemma overflow_closes_subscriber_witness :
  closes_at 2 example_streamer five_changes 2 ∧
  ∃ ch hs1 hs',
    register 2 example_streamer = Ret (Some ch, hs1) ∧
    ChangeStates five_changes hs1 = Ret hs' ∧
    dropped hs' ch 2.
Proof.
  apply (overflow_closes_subscriber 2 example_streamer five_changes).
  - reflexivity.
  - exact example_streamer_clients_open.
  - lia.
  - simpl. lia.
Defined.

(** C3, as stated, fails: with buffer size 2 the subscriber's channel is
    not open until the third state change; the second one has closed it
    already. *)
Lemma overflow_not_at_third_change :
  ¬ closes_at 2 example_streamer five_changes 3.
Proof.
  intros (ch & hs1 & Hreg & Hstill & _).
  destruct (Hstill 2) as (hs2 & n & Hrun & Hin & _); [lia|].
  destruct (subscriber_fate 2 example_streamer (take 2 five_changes))
    as (ch' & hs1' & hs2' & Hreg' & Hrun' & Hfate).
  - reflexivity.
  - exact example_streamer_clients_open.
  - lia.
  - rewrite Hreg in Hreg'. injection Hreg' as <- <-.
    rewrite Hrun in Hrun'. injection Hrun' as <-.
    simpl in Hfate. by destruct Hfate as [Hout _].
Qed.

(** ** Schema reload *)

(** C10: when the view query of [reload] fails after the table query
    found changed tables, [reload] returns no error; it broadcasts the
    state with the changed table names and an empty view list to every
    client, and the state it leaves behind has both lists reset.  The
    view-query error is returned exactly when no table changed. *)
Theorem reload_view_query_error env hs tables views e :
  clients_open hs →
  TabletType_ (Target_ (state hs)) = TabletType_PRIMARY →
  conns_Get env = None →
  getChangedTableNames env = (tables, None) →
  getChangedViewNames hs env = (views, Some e) →
  if decide (length tables = 0)
  then reload env hs = Ret (hs, Some e)
  else
    let shr := set_schema_changed (state hs) tables [] in
    TableSchemaChanged (RealtimeStats_ shr) = tables ∧
    ViewSchemaChanged (RealtimeStats_ shr) = [] ∧
    ∃ hs',
      reload env hs = Ret (hs', None) ∧
      (∀ ch c, ch ∈ clients hs → chans hs !! ch = Some c →
         chans hs' !! ch = Some (deliver shr c)) ∧
      TableSchemaChanged (RealtimeStats_ (state hs')) = [] ∧
      ViewSchemaChanged (RealtimeStats_ (state hs')) = [].
Proof.
  intros Hwf Hprimary Hconn Htables Hviews. unfold reload.
  destruct (decide (TabletType_ (Target_ (state hs)) ≠ TabletType_PRIMARY))
    as [Hne|_]; [done|].
  rewrite Hconn, Htables, Hviews.
  destruct (decide (length tables = 0)) as [Hnone|Hsome].
  - done.
  - destruct (decide (length tables = 0 ∧ length (@nil string) = 0))
      as [[Hnone _]|_]; [done|].
    cbn zeta. split; [done|]. split; [done|].
    match goal with
    | |- context [broadCastToClients ?s ?h] =>
        destruct (broadCastToClients_spec s h)
          as (hs1 & E & _ & _ & _ & _ & _ & Hin); [exact Hwf|]
    end.
    simpl in E. simpl. rewrite E. simpl.
    eexists. split; [reflexivity|]. simpl. split; [|done].
    intros ch c Hch Hc. by apply Hin.
Qed.

Lemma reload_view_query_error_witness :
  let shr := set_schema_changed example_state ["t1"%string] [] in
  TableSchemaChanged (RealtimeStats_ shr) = ["t1"%string] ∧
  ViewSchemaChanged (RealtimeStats_ shr) = [] ∧
  ∃ hs',
    reload example_reload_env example_streamer = Ret (hs', None) ∧
    (∀ ch c, ch ∈ clients example_streamer →
       chans example_streamer !! ch = Some c →
       chans hs' !! ch = Some (deliver shr c)) ∧
    TableSchemaChanged (RealtimeStats_ (state hs')) = [] ∧
    ViewSchemaChanged (RealtimeStats_ (state hs')) = [].
Proof.
  exact (reload_view_query_error example_reload_env example_streamer
           ["t1"%string] []
           (Errorf Code_UNKNOWN "view query failed")
           example_streamer_clients_open eq_refl eq_refl eq_refl eq_refl).
Defined.

End HealthFacts.

(* ===================================================================== *)
(** * Properties of the hashing pipe *)
(* ===================================================================== *)

Module PipeFacts.
Import Pipe.

(** The digest is the one of the IEEE polynomial: the check value of
    the nine digits. *)
Example crc32_check_value :
  hash_of ["1"; "2"; "3"; "4"; "5"; "6"; "7"; "8"; "9"]%byte
  = "cbf43926"%string.
Proof. reflexivity. Qed.

Lemma Close_closed bp : closed bp ≠ 0%Z → Close bp = Ret (bp, None).
Proof. intros H. unfold Close. by rewrite decide_False. Qed.

Lemma Closes_closed k : ∀ bp,
  closed bp ≠ 0%Z → Closes k bp = Ret (bp, replicate k None).
Proof.
  induction k as [|k IH]; intros bp H; [done|].
  cbn [Closes]. rewrite (Close_closed bp H). cbn [go_bind fst snd].
  by rewrite (IH bp H).
Qed.

Lemma Close_first bp :
  pipe_ok bp → closed bp = 0%Z →
  ∃ bp1 err,
    Close bp = Ret (bp1, err) ∧
    done bp1 = true ∧ closed bp1 = 1%Z ∧
    (w bp1, err) = match w bp with
                   | Some b => (Some (Flush b).1, (Flush b).2)
                   | None => (None, None)
                   end ∧
    (r bp1, crc32 bp1, nn bp1) = (r bp, crc32 bp, nn bp).
Proof.
  intros Hok Hopen. unfold Close. rewrite decide_True by done.
  rewrite (Hok Hopen). destruct (w bp) as [b|].
  - destruct (Flush b) as [b' err]. by eexists _, _.
  - by eexists _, _.
Qed.

(** C9: [Close] is idempotent.  On a pipe that was never closed the
    first call closes [done], flushes the buffered writer when there is
    one and returns the error of that flush; every later call, and every
    call on a pipe that is closed already, returns nil and leaves the
    pipe as it is. *)
Theorem Close_idempotent bp k :
  pipe_ok bp →
  ∃ bp1 err,
    Close bp = Ret (bp1, err) ∧
    Close bp1 = Ret (bp1, None) ∧
    Closes (S k) bp = Ret (bp1, err :: replicate k None) ∧
    if decide (closed bp = 0%Z)
    then done bp1 = true ∧ closed bp1 = 1%Z ∧
         (r bp1, crc32 bp1, nn bp1) = (r bp, crc32 bp, nn bp) ∧
         (w bp1, err) = match w bp with
                        | Some b => (Some (Flush b).1, (Flush b).2)
                        | None => (None, None)
                        end
    else bp1 = bp ∧ err = None.
Proof.
  intros Hok. destruct (decide (closed bp = 0%Z)) as [Hopen|Hclosed].
  - destruct (Close_first bp Hok Hopen)
      as (bp1 & err & E & Hd & Hc & Hw & Hrest).
    exists bp1, err. split; [done|].
    assert (closed bp1 ≠ 0%Z) as Hne by lia.
    split; [by apply Close_closed|]. split; [|done].
    cbn [Closes]. rewrite E. cbn [go_bind fst snd].
    by rewrite (Closes_closed k bp1 Hne).
  - exists bp, None. split; [by apply Close_closed|].
    split; [by apply Close_closed|]. split; [|done].
    apply (Closes_closed (S k) bp Hclosed).
Qed.

Lemma Close_idempotent_witness :
  ∃ bp1 err,
    Close example_failing_pipe = Ret (bp1, err) ∧
    Close bp1 = Ret (bp1, None) ∧
    Closes 3 example_failing_pipe = Ret (bp1, [err; None; None]) ∧
    done bp1 = true ∧ closed bp1 = 1%Z ∧
    (r bp1, crc32 bp1, nn bp1)
    = (r example_failing_pipe, crc32 example_failing_pipe,
       nn example_failing_pipe) ∧
    (w bp1, err) = match w example_failing_pipe with
                   | Some b => (Some (Flush b).1, (Flush b).2)
                   | None => (None, None)
                   end.
Proof.
  apply (Close_idempotent example_failing_pipe 2).
  intros _. reflexivity.
Defined.

End PipeFacts.

(* ===================================================================== *)
(** * Properties of the file-task pool *)
(* ===================================================================== *)

Module PoolFacts.
Import Backup.

Section Generic.

Variable limit : nat.
Variable hasErrors : sys → bool.
Variable recordError : error → sys → sys.
Variable work : nat → FileEntry → sys → sys * FileEntry * option error.

Local Abbreviation step := (pstep limit hasErrors recordError work).
Local Abbreviation run := (prun limit hasErrors recordError work).

Lemma prun_app l1 l2 p : run (l1 ++ l2) p = run l2 (run l1 p).
Proof. unfold prun. by rewrite foldl_app. Qed.

(** A property of pools that every step keeps holds after a run. *)
Lemma prun_invariant (I : pool → Prop) :
  (∀ p a, I p → I (step p a)) →
  ∀ sched p, I p → I (run sched p).
Proof.
  intros Hstep sched. induction sched as [|a l IH]; intros p Hp; [done|].
  cbn [prun foldl]. apply IH. by apply Hstep.
Qed.

(** The tasks and the entries keep their number. *)
Lemma pstep_lengths p a :
  length (tasks (step p a)) = length (tasks p) ∧
  length (fes (step p a)) = length (fes p).
Proof.
  unfold pstep, finish_task. destruct a as [i|i|i|d].
  - destruct (tasks p !! i) as [[| |o]|]; try done.
    destruct (decide (held p < limit)); [|done].
    destruct (ctx p); simpl; [by rewrite length_insert|].
    destruct (hasErrors (st p)); simpl; by rewrite length_insert.
  - destruct (tasks p !! i) as [[| |o]|]; try done.
    destruct (ctx p); simpl; [by rewrite length_insert|done].
  - destruct (tasks p !! i) as [[| |o]|]; try done.
    destruct (fes p !! i) as [fe|]; [|done].
    destruct (work i fe (st p)) as [[s fe'] err]. simpl.
    by rewrite !length_insert.
  - by destruct (ctx p).
Qed.

Lemma prun_lengths sched p :
  length (tasks (run sched p)) = length (tasks p) ∧
  length (fes (run sched p)) = length (fes p).
Proof.
  apply (prun_invariant
           (fun q => length (tasks q) = length (tasks p) ∧
                     length (fes q) = length (fes p))); [|done].
  intros q a [H1 H2]. destruct (pstep_lengths q a) as [-> ->]. done.
Qed.

(** ** Errors and outcomes *)

Hypothesis record_has : ∀ e s, hasErrors (recordError e s) = true.
Hypothesis log_has : ∀ ev s, hasErrors (log ev s) = hasErrors s.
Hypothesis work_keeps : ∀ i fe s,
  hasErrors s = true → hasErrors (work i fe s).1.1 = true.
Hypothesis work_records : ∀ i fe s e,
  (work i fe s).2 = Some e → hasErrors (work i fe s).1.1 = true.

Local Abbreviation failures_recorded := (Backup.failures_recorded hasErrors).

Lemma pstep_errors_stay p a :
  hasErrors (st p) = true → hasErrors (st (step p a)) = true.
Proof.
  intros H. unfold pstep, finish_task. destruct a as [i|i|i|d].
  - destruct (tasks p !! i) as [[| |o]|]; try done.
    destruct (decide (held p < limit)); [|done].
    destruct (ctx p); simpl; [by rewrite log_has, record_has|].
    rewrite H. simpl. by rewrite log_has.
  - destruct (tasks p !! i) as [[| |o]|]; try done.
    destruct (ctx p); simpl; [by rewrite log_has, record_has|done].
  - destruct (tasks p !! i) as [[| |o]|]; try done.
    destruct (fes p !! i) as [fe|]; [|done].
    pose proof (work_keeps i fe (st p) H) as Hk.
    destruct (work i fe (st p)) as [[s fe'] err]. simpl in *.
    by rewrite log_has.
  - by destruct (ctx p).
Qed.

Lemma pstep_failures_recorded p a :
  failures_recorded p → failures_recorded (step p a).
Proof.
  intros Hinv j o Hj Ho.
  destruct (hasErrors (st p)) eqn:Hhas.
  { by apply pstep_errors_stay. }
  assert (∀ s : sys, tasks p !! j = Some (Finished o) →
                     hasErrors s = true) as Hold.
  { intros s Hj'. pose proof (Hinv j o Hj' Ho). congruence. }
  revert Hj. unfold pstep, finish_task. destruct a as [i|i|i|d].
  - destruct (tasks p !! i) as [[| |o']|] eqn:Hi; try apply Hold.
    destruct (decide (held p < limit)); [|apply Hold].
    destruct (ctx p); simpl.
    + intros _. by rewrite log_has, record_has.
    + rewrite Hhas. simpl. intros Hj.
      destruct (decide (j = i)) as [->|Hne].
      * rewrite list_lookup_insert_eq in Hj by (by eapply lookup_lt_Some).
        done.
      * rewrite list_lookup_insert_ne in Hj by done. by apply Hold.
  - destruct (tasks p !! i) as [[| |o']|] eqn:Hi; try apply Hold.
    destruct (ctx p); simpl; [|apply Hold].
    intros _. by rewrite log_has, record_has.
  - destruct (tasks p !! i) as [[| |o']|] eqn:Hi; try apply Hold.
    destruct (fes p !! i) as [fe|]; [|apply Hold].
    pose proof (work_records i fe (st p)) as Hr.
    destruct (work i fe (st p)) as [[s fe'] err]. simpl in *.
    intros Hj. rewrite log_has.
    destruct (decide (j = i)) as [->|Hne].
    * rewrite list_lookup_insert_eq in Hj by (by eapply lookup_lt_Some).
      injection Hj as <-. destruct err as [e|]; [by eapply Hr|done].
    * rewrite list_lookup_insert_ne in Hj by done. by apply Hold.
  - destruct (ctx p); simpl; apply Hold.
Qed.

(** After the wait, a recorder without errors means that every task
    ran its copy and the copy returned nil. *)
Lemma Wait_no_errors sched c entries s p :
  Wait limit hasErrors recordError work sched (pool_init c entries s)
    = Some p →
  hasErrors (st p) = false →
  ∀ i, i < length entries → tasks p !! i = Some (Finished (Ran None)).
Proof.
  unfold Wait. intros HW Hno i Hi.
  destruct (forallb is_finished _) eqn:Hall; [|done].
  injection HW as <-.
  set (p0 := pool_init c entries s) in *.
  assert (failures_recorded (run sched p0)) as Hinv.
  { apply prun_invariant; [apply pstep_failures_recorded|].
    intros j o Hj. unfold p0, pool_init in Hj. simpl in Hj.
    apply lookup_replicate in Hj as [? _]. done. }
  destruct (prun_lengths sched p0) as [Hlen _].
  unfold p0 at 2 in Hlen. simpl in Hlen. rewrite length_replicate in Hlen.
  destruct (lookup_lt_is_Some_2 (tasks (run sched p0)) i) as [t Ht];
    [lia|].
  rewrite forallb_forall in Hall.
  assert (is_finished t = true) as Hfin.
  { apply Hall. apply list_elem_of_In. by eapply list_elem_of_lookup_2. }
  destruct t as [| |o]; try done.
  assert (o = Ran None ∨ o ≠ Ran None) as [->|Hne].
  { destruct o as [| | |[e|]]; (by left) || (by right). }
  - done.
  - pose proof (Hinv i o Ht Hne). congruence.
Qed.

End Generic.

(** ** What a run leaves of the state it started from *)

Lemma extends_refl okev s : extends okev s s.
Proof. exists []. by rewrite app_nil_r. Qed.

Lemma extends_trans okev s1 s2 s3 :
  extends okev s1 s2 → extends okev s2 s3 → extends okev s1 s3.
Proof.
  intros (t1 & E1 & H1) (t2 & E2 & H2). exists (t1 ++ t2).
  rewrite E2, E1, app_assoc. split; [done|].
  rewrite forallb_app. by rewrite H1, H2.
Qed.

Lemma extends_log okev ev s : okev ev = true → extends okev s (log ev s).
Proof. intros H. exists [ev]. simpl. by rewrite H. Qed.

Lemma extends_weaken (ok1 ok2 : event → bool) s s' :
  (∀ ev, ok1 ev = true → ok2 ev = true) →
  extends ok1 s s' → extends ok2 s s'.
Proof.
  intros Himp (t & E & H). exists t. split; [done|].
  rewrite forallb_forall in *. eauto.
Qed.

Section Relation.

Variable limit : nat.
Variable hasErrors : sys → bool.
Variable recordError : error → sys → sys.
Variable work : nat → FileEntry → sys → sys * FileEntry * option error.

Local Abbreviation step := (pstep limit hasErrors recordError work).
Local Abbreviation run := (prun limit hasErrors recordError work).

(** A reflexive and transitive relation on states that recording an
    error, running a copy and logging a task event respect. *)
Variable R : sys → sys → Prop.
Hypothesis R_refl : ∀ s, R s s.
Hypothesis R_trans : ∀ s1 s2 s3, R s1 s2 → R s2 s3 → R s1 s3.
Hypothesis R_record : ∀ e s, R s (recordError e s).
Hypothesis R_work : ∀ i fe s, R s (work i fe s).1.1.
Hypothesis R_log : ∀ ev s, is_task_event ev = true → R s (log ev s).

Lemma pstep_rel p a : R (st p) (st (step p a)).
Proof.
  unfold pstep, finish_task. destruct a as [i|i|i|d].
  - destruct (tasks p !! i) as [[| |o]|]; try done.
    destruct (decide (held p < limit)); [|done].
    destruct (ctx p); simpl.
    + eapply R_trans; [apply R_record|by apply R_log].
    + destruct (hasErrors (st p)); simpl; by apply R_log.
  - destruct (tasks p !! i) as [[| |o]|]; try done.
    destruct (ctx p); simpl; [|done].
    eapply R_trans; [apply R_record|by apply R_log].
  - destruct (tasks p !! i) as [[| |o]|]; try done.
    destruct (fes p !! i) as [fe|]; [|done].
    pose proof (R_work i fe (st p)) as Hw.
    destruct (work i fe (st p)) as [[s fe'] err]. simpl in *.
    eapply R_trans; [exact Hw|by apply R_log].
  - by destruct (ctx p).
Qed.

Lemma prun_rel sched : ∀ p, R (st p) (st (run sched p)).
Proof.
  induction sched as [|a l IH]; intros p; [done|].
  cbn [prun foldl]. eapply R_trans; [apply pstep_rel|apply IH].
Qed.

End Relation.

Section Trace.

Variable limit : nat.
Variable hasErrors : sys → bool.
Variable recordError : error → sys → sys.
Variable work : nat → FileEntry → sys → sys * FileEntry * option error.

Local Abbreviation step := (pstep limit hasErrors recordError work).
Local Abbreviation run := (prun limit hasErrors recordError work).

(** The events that a task may log besides its start and its end. *)
Variable okev : event → bool.
Local Abbreviation inner := (Backup.inner okev).
Local Abbreviation pool_trace := (Backup.pool_trace okev).
Hypothesis okev_task : ∀ ev, is_task_event ev = true → okev ev = true.
Hypothesis record_extends : ∀ e s, extends inner s (recordError e s).
Hypothesis work_extends : ∀ i fe s, extends inner s (work i fe s).1.1.

Lemma inner_not_task i ev (tr : list event) :
  forallb inner tr = true → ev ∈ tr → is_task_of i ev → False.
Proof.
  intros Hall Hin Htask. rewrite forallb_forall in Hall.
  apply list_elem_of_In, Hall in Hin. unfold inner in Hin.
  apply andb_prop in Hin as [_ Hin].
  destruct Htask as [->|[o ->]]; done.
Qed.

Lemma inner_okev (tr : list event) :
  forallb inner tr = true → forallb okev tr = true.
Proof.
  rewrite !forallb_forall. intros H ev Hev.
  apply H in Hev. unfold inner in Hev. by apply andb_prop in Hev as [? _].
Qed.

(** The invariant after task [i] has moved to the status [new],
    logging [tr] and then the task event [ev]. *)
Lemma pool_trace_move t0 p q i (new : tstatus) (tr : list event) ev :
  pool_trace t0 p →
  (∀ o, tasks p !! i ≠ Some (Finished o)) →
  i < length (tasks p) →
  tasks q = <[i := new]> (tasks p) →
  trace (st q) = trace (st p) ++ tr ++ [ev] →
  forallb inner tr = true →
  is_task_of i ev →
  (∀ o, new = Finished o ↔ ev = EvTaskEnd i o) →
  pool_trace t0 q.
Proof.
  intros (t & E & Hok & Hends & Hbound) Hnot Hi Hq Etr Hinner Hev Hnew.
  exists (t ++ tr ++ [ev]).
  split; [by rewrite Etr, E, <- !app_assoc|]. split; [|split].
  - rewrite !forallb_app, Hok, (inner_okev tr Hinner). simpl.
    rewrite andb_true_r. apply okev_task.
    by destruct Hev as [->|[o ->]].
  - intros j o. rewrite Hq, !elem_of_app, list_elem_of_singleton.
    destruct (decide (j = i)) as [->|Hne].
    + rewrite list_lookup_insert_eq by done. split.
      * intros [= ->]. do 2 right. symmetry. by apply Hnew.
      * intros [Hin|[Hin|Hin]].
        -- apply Hends in Hin. by destruct (Hnot o).
        -- exfalso. eapply (inner_not_task i); [done|done|].
           right. by eexists.
        -- f_equal. apply Hnew. done.
    + rewrite list_lookup_insert_ne by done. rewrite Hends. split.
      * by left.
      * intros [Hin|[Hin|Hin]]; [done| |].
        -- exfalso. eapply (inner_not_task j); [done|done|].
           right. by eexists.
        -- subst ev. destruct Hev as [?|[o' ?]]; congruence.
  - intros j ev' Hev' Htask. rewrite Hq, length_insert.
    rewrite !elem_of_app, list_elem_of_singleton in Hev'.
    destruct Hev' as [Hin|[Hin| ->]].
    + by eapply Hbound.
    + exfalso. by eapply inner_not_task.
    + assert (j = i) as ->; [|done].
      destruct Htask as [->|[o ->]], Hev as [?|[o' ?]]; congruence.
Qed.

Lemma pstep_pool_trace t0 p a : pool_trace t0 p → pool_trace t0 (step p a).
Proof.
  intros Hinv. unfold pstep, finish_task. destruct a as [i|i|i|d].
  - destruct (tasks p !! i) as [[| |o]|] eqn:Hi; try done.
    pose proof (lookup_lt_Some _ _ _ Hi) as Hlt.
    destruct (decide (held p < limit)); [|done].
    destruct (ctx p); simpl.
    + destruct (record_extends (Errorf Code_CANCELED "context canceled")
                  (st p)) as (tr & Etr & Hinner).
      eapply (pool_trace_move t0 p _ i (Finished Cancelled) tr
                (EvTaskEnd i Cancelled)); try done.
      * by rewrite Hi.
      * by simpl; rewrite Etr, <- app_assoc.
      * right. by eexists.
      * intros o. split; intros [= ->]; done.
    + destruct (hasErrors (st p)); simpl.
      * eapply (pool_trace_move t0 p _ i (Finished Skipped) []
                  (EvTaskEnd i Skipped)); try done.
        -- by rewrite Hi.
        -- right. by eexists.
        -- intros o. split; intros [= ->]; done.
      * eapply (pool_trace_move t0 p _ i Running [] (EvTaskStart i));
          try done.
        -- by rewrite Hi.
        -- by left.
  - destruct (tasks p !! i) as [[| |o]|] eqn:Hi; try done.
    pose proof (lookup_lt_Some _ _ _ Hi) as Hlt.
    destruct (ctx p) as [d|]; simpl; [|done].
    destruct (record_extends (ContextErr d) (st p))
      as (tr & Etr & Hinner).
    eapply (pool_trace_move t0 p _ i (Finished AcquireFailed) tr
              (EvTaskEnd i AcquireFailed)); try done.
    + by rewrite Hi.
    + by simpl; rewrite Etr, <- app_assoc.
    + right. by eexists.
    + intros o. split; intros [= ->]; done.
  - destruct (tasks p !! i) as [[| |o]|] eqn:Hi; try done.
    pose proof (lookup_lt_Some _ _ _ Hi) as Hlt.
    destruct (fes p !! i) as [fe|]; [|done].
    destruct (work_extends i fe (st p)) as (tr & Etr & Hinner).
    destruct (work i fe (st p)) as [[s fe'] err]. simpl in *.
    eapply (pool_trace_move t0 p _ i (Finished (Ran err)) tr
              (EvTaskEnd i (Ran err))); try done.
    + by rewrite Hi.
    + by simpl; rewrite Etr, <- app_assoc.
    + right. by eexists.
    + intros o. split; intros [= ->]; done.
  - destruct (ctx p); simpl; [done|].
    destruct Hinv as (t & E & Hrest). by exists t.
Qed.

Lemma prun_pool_trace sched c entries s :
  pool_trace (trace s) (run sched (pool_init c entries s)).
Proof.
  apply prun_invariant; [apply pstep_pool_trace|].
  exists []. simpl. rewrite app_nil_r. split; [done|]. split; [done|].
  split.
  - intros i o. split.
    + intros Hi. apply lookup_replicate in Hi as [? _]. done.
    + intros Hin. by apply not_elem_of_nil in Hin.
  - intros i ev Hev. by apply not_elem_of_nil in Hev.
Qed.

End Trace.

(** ** The error of a copy is on record *)

Section Reported.

Variable limit : nat.
Variable hasErrors : sys → bool.
Variable recordError : error → sys → sys.
Variable work : nat → FileEntry → sys → sys * FileEntry * option error.

Local Abbreviation step := (pstep limit hasErrors recordError work).
Local Abbreviation run := (prun limit hasErrors recordError work).

(** [reported s e]: the state keeps a record of the error [e] of a
    copy. *)
Variable reported : sys → error → Prop.
Hypothesis rep_record : ∀ e e' s,
  reported s e → reported (recordError e' s) e.
Hypothesis rep_log : ∀ ev e s, reported s e → reported (log ev s) e.
Hypothesis rep_keeps : ∀ i fe s e,
  reported s e → reported (work i fe s).1.1 e.
Hypothesis rep_work : ∀ i fe s e,
  (work i fe s).2 = Some e → reported (work i fe s).1.1 e.

Local Abbreviation results_reported := (Backup.results_reported reported).

Lemma pstep_results_reported p a :
  results_reported p → results_reported (step p a).
Proof.
  intros Hinv j e. unfold pstep, finish_task. destruct a as [i|i|i|d].
  - destruct (tasks p !! i) as [[| |o]|] eqn:Hi; try apply Hinv.
    destruct (decide (held p < limit)); [|apply Hinv].
    assert (∀ (new : tstatus) s,
              new ≠ Finished (Ran (Some e)) →
              (∀ e0, reported (st p) e0 → reported s e0) →
              <[i := new]> (tasks p) !! j
              = Some (Finished (Ran (Some e))) →
              reported s e) as Hmove.
    { intros new s Hnew Hs Hj. destruct (decide (j = i)) as [->|Hne].
      - rewrite list_lookup_insert_eq in Hj
          by (by eapply lookup_lt_Some). congruence.
      - rewrite list_lookup_insert_ne in Hj by done.
        by apply Hs, (Hinv j). }
    destruct (ctx p); simpl.
    + apply Hmove; [done|]. intros e0 H0. by apply rep_log, rep_record.
    + destruct (hasErrors (st p)); simpl.
      * apply Hmove; [done|]. intros e0 H0. by apply rep_log.
      * apply Hmove; [done|]. intros e0 H0. by apply rep_log.
  - destruct (tasks p !! i) as [[| |o]|] eqn:Hi; try apply Hinv.
    destruct (ctx p); simpl; [|apply Hinv].
    intros Hj. destruct (decide (j = i)) as [->|Hne].
    + rewrite list_lookup_insert_eq in Hj by (by eapply lookup_lt_Some).
      done.
    + rewrite list_lookup_insert_ne in Hj by done.
      by apply rep_log, rep_record, (Hinv j).
  - destruct (tasks p !! i) as [[| |o]|] eqn:Hi; try apply Hinv.
    destruct (fes p !! i) as [fe|]; [|apply Hinv].
    pose proof (rep_work i fe (st p)) as Hw.
    pose proof (rep_keeps i fe (st p)) as Hk.
    destruct (work i fe (st p)) as [[s fe'] err]. simpl in *.
    intros Hj. apply rep_log. destruct (decide (j = i)) as [->|Hne].
    + rewrite list_lookup_insert_eq in Hj by (by eapply lookup_lt_Some).
      injection Hj as ->. by apply Hw.
    + rewrite list_lookup_insert_ne in Hj by done.
      by apply Hk, (Hinv j).
  - destruct (ctx p); apply Hinv.
Qed.

Lemma prun_results_reported sched c entries s :
  results_reported (run sched (pool_init c entries s)).
Proof.
  apply prun_invariant; [apply pstep_results_reported|].
  intros i e Hi. apply lookup_replicate in Hi as [? _]. done.
Qed.

End Reported.

(** ** The result of a copy that ran *)

Section Decided.

Variable limit : nat.
Variable hasErrors : sys → bool.
Variable recordError : error → sys → sys.
Variable work : nat → FileEntry → sys → sys * FileEntry * option error.

Local Abbreviation step := (pstep limit hasErrors recordError work).
Local Abbreviation run := (prun limit hasErrors recordError work).

(** [stable] holds of the states of the run, and on such a state the
    error of the copy of task [i] is [verdict i] of its entry. *)
Variable stable : sys → Prop.
Variable verdict : nat → FileEntry → option error.
Variable entries : list FileEntry.
Hypothesis stable_record : ∀ e s, stable s → stable (recordError e s).
Hypothesis stable_log : ∀ ev s, stable s → stable (log ev s).
Hypothesis stable_work : ∀ i fe s, stable s → stable (work i fe s).1.1.
Hypothesis work_verdict : ∀ i fe s,
  stable s → (work i fe s).2 = verdict i fe.

Local Abbreviation decided := (results_decided entries verdict).

(** A task that was not finished gets the status [new]; the entries of
    the other tasks stay. *)
Lemma results_decided_move p q i (old new : tstatus) :
  decided p →
  tasks p !! i = Some old →
  (∀ o, old ≠ Finished o) →
  tasks q = <[i := new]> (tasks p) →
  (∀ j, j ≠ i → fes q !! j = fes p !! j) →
  ((∀ o, new ≠ Finished o) → fes q !! i = fes p !! i) →
  (∀ err fe, new = Finished (Ran err) → entries !! i = Some fe →
             fes p !! i = Some fe → err = verdict i fe) →
  (∀ err, new = Finished (Ran err) → is_Some (fes p !! i)) →
  decided q.
Proof.
  intros [Hfes Hres] Hi Hold Hq Hother Hsame Hnew Hsome.
  assert (fes p !! i = entries !! i) as Hentry.
  { apply Hfes. intros o. rewrite Hi. intros [= ->]. by apply (Hold o). }
  split.
  - intros j Hj. rewrite Hq in Hj.
    destruct (decide (j = i)) as [->|Hne].
    + rewrite list_lookup_insert_eq in Hj by (by eapply lookup_lt_Some).
      rewrite Hsame; [done|]. intros o ->. by apply (Hj o).
    + rewrite list_lookup_insert_ne in Hj by done.
      rewrite Hother by done. by apply Hfes.
  - intros j err Hj. rewrite Hq in Hj.
    destruct (decide (j = i)) as [->|Hne].
    + rewrite list_lookup_insert_eq in Hj by (by eapply lookup_lt_Some).
      injection Hj as ->.
      destruct (Hsome err eq_refl) as [fe Hfe]. exists fe.
      split; [by rewrite <- Hentry|].
      apply Hnew; [done| by rewrite <- Hentry|done].
    + rewrite list_lookup_insert_ne in Hj by done. by apply Hres.
Qed.

Lemma pstep_results_decided p a :
  stable (st p) ∧ decided p →
  stable (st (step p a)) ∧ decided (step p a).
Proof.
  intros [Hst Hinv]. unfold pstep, finish_task.
  destruct a as [i|i|i|d].
  - destruct (tasks p !! i) as [[| |o]|] eqn:Hi; try done.
    destruct (decide (held p < limit)); [|done].
    destruct (ctx p); [|destruct (hasErrors (st p))]; simpl;
      (split; [by auto|]);
      (eapply (results_decided_move p _ i Waiting); eauto; done).
  - destruct (tasks p !! i) as [[| |o]|] eqn:Hi; try done.
    destruct (ctx p); [|done]. simpl. split; [by auto|].
    eapply (results_decided_move p _ i Waiting); eauto; done.
  - destruct (tasks p !! i) as [[| |o]|] eqn:Hi; try done.
    destruct (fes p !! i) as [fe|] eqn:Hfe; [|done].
    pose proof (stable_work i fe (st p) Hst) as Hs.
    pose proof (work_verdict i fe (st p) Hst) as Hv.
    destruct (work i fe (st p)) as [[s fe'] err]. simpl in *.
    split; [by auto|].
    eapply (results_decided_move p _ i Running); eauto; simpl; try done.
    + intros j Hne. by rewrite list_lookup_insert_ne.
    + intros Hno. by destruct (Hno (Ran err)).
    + intros err' fe0 [= <-] _ Hfe0. congruence.
  - destruct (ctx p); done.
Qed.

Lemma prun_results_decided sched c s :
  stable s →
  stable (st (run sched (pool_init c entries s))) ∧
  decided (run sched (pool_init c entries s)).
Proof.
  intros Hs.
  apply (prun_invariant limit hasErrors recordError work
           (fun p => stable (st p) ∧ decided p));
    [apply pstep_results_decided|].
  split; [done|]. split; [done|].
  intros i err Hi. apply lookup_replicate in Hi as [? _]. done.
Qed.

End Decided.

(** ** What a successful copy leaves *)

Section Kept.

Variable limit : nat.
Variable hasErrors : sys → bool.
Variable recordError : error → sys → sys.
Variable work : nat → FileEntry → sys → sys * FileEntry * option error.

Local Abbreviation step := (pstep limit hasErrors recordError work).
Local Abbreviation run := (prun limit hasErrors recordError work).

Variable entries : list FileEntry.
Variable good : nat → FileEntry → FileEntry → sys → Prop.
Hypothesis good_record : ∀ i fe fe' e s,
  good i fe fe' s → good i fe fe' (recordError e s).
Hypothesis good_log : ∀ i fe fe' ev s,
  good i fe fe' s → good i fe fe' (log ev s).
Hypothesis good_other : ∀ i fe fe' j fej s,
  j ≠ i → good i fe fe' s → good i fe fe' (work j fej s).1.1.
Hypothesis good_work : ∀ i fe s,
  (work i fe s).2 = None →
  good i fe (work i fe s).1.2 (work i fe s).1.1.

Local Abbreviation kept := (copies_kept entries good).

(** A task that was not finished gets the status [new]; the entries of
    the other tasks stay, and so do the marks of their copies. *)
Lemma copies_kept_move p q i (old new : tstatus) :
  kept p →
  tasks p !! i = Some old →
  (∀ o, old ≠ Finished o) →
  tasks q = <[i := new]> (tasks p) →
  (∀ j, j ≠ i → fes q !! j = fes p !! j) →
  ((∀ o, new ≠ Finished o) → fes q !! i = fes p !! i) →
  (∀ j fe fe', j ≠ i → good j fe fe' (st p) → good j fe fe' (st q)) →
  (new = Finished (Ran None) →
   ∃ fe fe', fes p !! i = Some fe ∧ fes q !! i = Some fe' ∧
             good i fe fe' (st q)) →
  kept q.
Proof.
  intros [Hfes Hgood] Hi Hold Hq Hother Hsame Hkeep Hnew.
  assert (fes p !! i = entries !! i) as Hentry.
  { apply Hfes. intros o. rewrite Hi. intros [= ->]. by apply (Hold o). }
  split.
  - intros j Hj. rewrite Hq in Hj.
    destruct (decide (j = i)) as [->|Hne].
    + rewrite list_lookup_insert_eq in Hj by (by eapply lookup_lt_Some).
      rewrite Hsame; [done|]. intros o ->. by apply (Hj o).
    + rewrite list_lookup_insert_ne in Hj by done.
      rewrite Hother by done. by apply Hfes.
  - intros j Hj. rewrite Hq in Hj.
    destruct (decide (j = i)) as [->|Hne].
    + rewrite list_lookup_insert_eq in Hj by (by eapply lookup_lt_Some).
      injection Hj as ->.
      destruct (Hnew eq_refl) as (fe & fe' & Hfe & Hfe' & Hg).
      exists fe, fe'. split; [by rewrite <- Hentry|done].
    + rewrite list_lookup_insert_ne in Hj by done.
      destruct (Hgood j Hj) as (fe & fe' & Hfe & Hfe' & Hg).
      exists fe, fe'. split; [done|].
      split; [by rewrite Hother|by apply Hkeep].
Qed.

Lemma pstep_copies_kept p a : kept p → kept (step p a).
Proof.
  intros Hinv. unfold pstep, finish_task.
  destruct a as [i|i|i|d].
  - destruct (tasks p !! i) as [[| |o]|] eqn:Hi; try done.
    destruct (decide (held p < limit)); [|done].
    destruct (ctx p); [|destruct (hasErrors (st p))]; simpl;
      (eapply (copies_kept_move p _ i Waiting); eauto; simpl; try done);
      intros; by auto.
  - destruct (tasks p !! i) as [[| |o]|] eqn:Hi; try done.
    destruct (ctx p); [|done]. simpl.
    eapply (copies_kept_move p _ i Waiting); eauto; simpl; try done;
      intros; by auto.
  - destruct (tasks p !! i) as [[| |o]|] eqn:Hi; try done.
    destruct (fes p !! i) as [fe|] eqn:Hfe; [|done].
    pose proof (good_work i fe (st p)) as Hw.
    pose proof (fun j fej fej' (H : i ≠ j) =>
                  good_other j fej fej' i fe (st p) H) as Ho.
    destruct (work i fe (st p)) as [[s fe'] err]. simpl in *.
    eapply (copies_kept_move p _ i Running); eauto; simpl; try done.
    + intros j Hne. by rewrite list_lookup_insert_ne.
    + intros Hno. by destruct (Hno (Ran err)).
    + intros [= ->]. exists fe, fe'. split; [done|].
      split; [|by apply good_log, Hw].
      apply list_lookup_insert_eq. by eapply lookup_lt_Some.
  - destruct (ctx p); done.
Qed.

Lemma prun_copies_kept sched c s : kept (run sched (pool_init c entries s)).
Proof.
  apply prun_invariant; [apply pstep_copies_kept|].
  split; [done|]. intros i Hi. apply lookup_replicate in Hi as [? _]. done.
Qed.

End Kept.

(** ** The wait returns *)

Section Progress.

Variable limit : nat.
Variable hasErrors : sys → bool.
Variable recordError : error → sys → sys.
Variable work : nat → FileEntry → sys → sys * FileEntry * option error.

Local Abbreviation step := (pstep limit hasErrors recordError work).
Local Abbreviation run := (prun limit hasErrors recordError work).

Hypothesis limit_pos : 0 < limit.

Lemma done_below_step n k p :
  k < n → done_below n k p →
  done_below n (S k) (step (step p (Acquire k)) (Finish k)).
Proof.
  intros Hk (Hheld & Hlt & Hlf & Hdone & Hwait).
  assert (tasks p !! k = Some Waiting) as Hwk by (apply Hwait; lia).
  assert (∀ q o, held q = 0 → length (fes q) = n →
                 tasks q = <[k := Finished o]> (tasks p) →
                 done_below n (S k) q) as Hfin.
  { intros q o Hq1 Hq2 Hq3. split; [done|].
    split; [by rewrite Hq3, length_insert|]. split; [done|].
    rewrite Hq3. split.
    - intros j Hj. destruct (decide (j = k)) as [->|Hne].
      + exists o. rewrite list_lookup_insert_eq by lia. done.
      + rewrite list_lookup_insert_ne by done. apply Hdone. lia.
    - intros j Hj1 Hj2. rewrite list_lookup_insert_ne by lia.
      apply Hwait; lia. }
  cbn [pstep]. rewrite Hwk, Hheld.
  destruct (decide (0 < limit)) as [_|]; [|done].
  destruct (ctx p) as [d|] eqn:Hctx.
  - unfold finish_task. cbn [tasks fes].
    rewrite list_lookup_insert_eq by lia.
    by eapply Hfin.
  - destruct (hasErrors (st p)).
    + unfold finish_task. cbn [tasks fes].
      rewrite list_lookup_insert_eq by lia.
      by eapply Hfin.
    + cbn [tasks fes st held ctx].
      rewrite list_lookup_insert_eq by lia.
      destruct (lookup_lt_is_Some_2 (fes p) k) as [fe Hfe]; [lia|].
      rewrite Hfe.
      destruct (work k fe _) as [[s' fe'] err].
      eapply Hfin; cbn [tasks fes held]; [done| |].
      * by rewrite length_insert.
      * by rewrite list_insert_insert_eq.
Qed.

Lemma done_below_run n m : ∀ k p,
  k + m ≤ n → done_below n k p →
  done_below n (k + m)
    (run (flat_map (fun i => [Acquire i; Finish i]) (seq k m)) p).
Proof.
  induction m as [|m IH]; intros k p Hk Hinv.
  - by rewrite Nat.add_0_r.
  - cbn [seq flat_map app prun foldl].
    replace (k + S m) with (S k + m) by lia.
    apply (IH (S k)); [lia|]. apply done_below_step; [lia|done].
Qed.

(** Under the schedule that runs the tasks one after the other the
    wait returns, whatever the copies do. *)
Lemma Wait_sequential c entries s :
  ∃ p, Wait limit hasErrors recordError work
         (sequential (length entries)) (pool_init c entries s) = Some p.
Proof.
  unfold Wait, sequential.
  set (n := length entries).
  destruct (done_below_run n n 0 (pool_init c entries s))
    as (_ & Hlt & _ & Hdone & _); [lia| |].
  { unfold done_below, pool_init. simpl. repeat split; try done.
    - by rewrite length_replicate.
    - intros j Hj. lia.
    - intros j _ Hj. by apply lookup_replicate. }
  simpl in Hdone.
  match goal with
  | |- context [forallb is_finished ?l] =>
      assert (forallb is_finished l = true) as ->; [|by eexists]
  end.
  apply forallb_forall. intros t Ht.
  apply list_elem_of_In, list_elem_of_lookup in Ht as [j Hj].
  destruct (Hdone j) as [o Ho].
  - apply lookup_lt_Some in Hj. unfold prun in *. lia.
  - unfold prun in *. rewrite Hj in Ho. by injection Ho as ->.
Qed.

End Progress.

End PoolFacts.

(* ===================================================================== *)
(** * Properties of the backup engine *)
(* ===================================================================== *)

Module BackupFacts.
Import Backup PoolFacts.

(** A run that returns, read through a projection [f] of what it
    returns. *)
Lemma returns_with {A B} (f : A → B) (o : option A) (b : B) :
  f <$> o = Some b → ∃ a, o = Some a ∧ f a = b.
Proof. destruct o as [a|]; [|done]. intros [= <-]. by exists a. Qed.

(** ** Steps that respect a relation on states *)

Section Respects.

(** A reflexive and transitive relation between the state before and
    the state after. *)
Variable R : sys → sys → Prop.
Hypothesis R_refl : ∀ s, R s s.
Hypothesis R_trans : ∀ s1 s2 s3, R s1 s2 → R s2 s3 → R s1 s3.

Local Abbreviation respects := (Backup.respects R).

Lemma respects_ret {A} (a : A) : respects (ret a).
Proof. intros s s' r [= <- <-]. apply R_refl. Qed.

Lemma respects_fail {A} e : respects (@fail A e).
Proof. intros s s' r [= <- <-]. apply R_refl. Qed.

Lemma respects_ask {A} (x : result A) wrap : respects (ask x wrap).
Proof.
  intros s s' r. unfold ask. destruct x; intros [= <- <-]; apply R_refl.
Qed.

Lemma respects_call ev x effect wrap :
  (∀ r s, R s (log (ev r) (effect s)) ∧ R s (log (ev r) s)) →
  respects (call ev x effect wrap).
Proof.
  intros Hev s s' r. unfold call.
  destruct x; intros [= <- <-]; apply Hev.
Qed.

Lemma respects_bind {A B} (m : M A) (k : A → M B) :
  respects m → (∀ a, respects (k a)) → respects (bindM m k).
Proof.
  intros Hm Hk s s' r. unfold bindM.
  destruct (m s) as [[s1 [a|e]]|] eqn:E; [| |done].
  - intros Hka. eapply R_trans; [by eapply Hm|by eapply Hk].
  - intros [= <- <-]. by eapply Hm.
Qed.

Lemma respects_wait polls pos :
  respects (fun s =>
              match waitForPositionChange polls pos with
              | None => None
              | Some None => Some (s, Ok ())
              | Some (Some e) => Some (s, Err e)
              end).
Proof.
  intros s s' r H.
  destruct (waitForPositionChange _ _) as [[e|]|]; [| |done];
    injection H as <- <-; apply R_refl.
Qed.

End Respects.

Ltac respects_tac Rrefl Rtrans solve_call :=
  repeat first
    [ apply (respects_ret _ Rrefl)
    | apply (respects_fail _ Rrefl)
    | apply (respects_ask _ Rrefl)
    | apply (respects_wait _ Rrefl)
    | apply respects_call; solve_call
    | apply (respects_bind _ Rtrans); [|intros ?]
    | match goal with
      | |- respects _ (match ?x with _ => _ end) => destruct x
      end ].

(** ** Steps that leave the handle and the files alone *)

Lemma quietly_refl s : quietly s s.
Proof. repeat split. apply extends_refl. Qed.

Lemma quietly_trans s1 s2 s3 : quietly s1 s2 → quietly s2 s3 → quietly s1 s3.
Proof.
  intros (? & ? & ?) (? & ? & ?). split; [congruence|].
  split; [congruence|]. by eapply extends_trans.
Qed.

Ltac logs_one := repeat split; by eexists [_].

Ltac quiet_tac :=
  respects_tac quietly_refl quietly_trans
               ltac:(intros ? ?; split; logs_one).

Lemma quiet_saveInitialState fl w : quiet (saveInitialState fl w).
Proof.
  unfold quiet, saveInitialState.
  quiet_tac.
Qed.

Lemma quiet_captureAndShutdown w sv : quiet (captureAndShutdown w sv).
Proof.
  unfold quiet, captureAndShutdown, Shutdown.
  quiet_tac.
Qed.

Lemma quiet_restartAndRestore w sv pos : quiet (restartAndRestore w sv pos).
Proof.
  unfold quiet, restartAndRestore, restartReplication, Start.
  quiet_tac.
Qed.

Lemma quiet_incrementalPlan w params : quiet (incrementalPlan w params).
Proof.
  unfold quiet, incrementalPlan.
  quiet_tac.
Qed.

Lemma runDeferred_quiet w sv s : quietly s (runDeferred w sv s).
Proof.
  unfold runDeferred. destruct (resetSuperReadOnly sv).
  - destruct (w_SetSuperReadOnly_deferred w); logs_one.
  - apply quietly_refl.
Qed.

(** ** Steps that leave the daemon up or down as it is *)





(** ** The copy pool of a backup *)

Lemma HasErrors_false h : HasErrors h = false ↔ bh_errors h = [].
Proof. unfold HasErrors. by destruct (bh_errors h). Qed.

Lemma HasErrors_Error h : HasErrors h = true → Error h ≠ None.
Proof. unfold HasErrors, Error. by destruct (bh_errors h). Qed.

Lemma HasErrors_snoc h e : HasErrors (RecordError (Some e) h) = true.
Proof. unfold HasErrors. simpl. by destruct (bh_errors h). Qed.

(** A file copy touches neither the daemon nor the trace, and records
    nothing itself. *)
Lemma backupFile_state fl io cnf fe name s :
  trace (backupFile fl io cnf fe name s).1.1 = trace s ∧
  mysqld (backupFile fl io cnf fe name s).1.1 = mysqld s ∧
  bh_errors (bh (backupFile fl io cnf fe name s).1.1) = bh_errors (bh s).
Proof. unfold backupFile. by repeat case_match. Qed.

Lemma backupTask_state fl w params i fe s :
  trace (backupTask fl w params i fe s).1.1 = trace s ∧
  mysqld (backupTask fl w params i fe s).1.1 = mysqld s ∧
  bh_errors (bh (backupTask fl w params i fe s).1.1)
  = bh_errors (bh s) ++ recorded (backupTask fl w params i fe s).2.
Proof.
  unfold backupTask.
  destruct (backupFile_state fl (w_backupIO w i) (p_Cnf params) fe
              (pretty i) s) as (Ht & Hm & He).
  destruct (backupFile _ _ _ _ _ _) as [[s' fe'] [e|]]; simpl in *.
  - by rewrite He.
  - by rewrite He, app_nil_r.
Qed.

Lemma backupTask_keeps fl w params i fe s :
  bh_hasErrors s = true →
  bh_hasErrors (backupTask fl w params i fe s).1.1 = true.
Proof.
  unfold bh_hasErrors, HasErrors.
  destruct (backupTask_state fl w params i fe s) as (_ & _ & ->).
  by destruct (bh_errors (bh s)).
Qed.

Lemma backupTask_records fl w params i fe s e :
  (backupTask fl w params i fe s).2 = Some e →
  bh_hasErrors (backupTask fl w params i fe s).1.1 = true.
Proof.
  unfold bh_hasErrors, HasErrors.
  destruct (backupTask_state fl w params i fe s) as (_ & _ & ->).
  intros ->. by destruct (bh_errors (bh s)).
Qed.

(** What the wait of [backupFiles] returns: the daemon is as before,
    the trace has grown by task events only, one ending per file, and a
    handle without errors means that every copy succeeded. *)
Lemma backup_pool_spec fl w params sched c entries s p :
  Wait (p_Concurrency params) bh_hasErrors bh_recordError
       (backupTask fl w params) sched (pool_init c entries s) = Some p →
  mysqld (st p) = mysqld s ∧
  length (fes p) = length entries ∧
  ∃ copies,
    trace (st p) = trace s ++ copies ∧
    forallb is_task_event copies = true ∧
    copies_finished (length entries) copies ∧
    tasks_below (length entries) copies ∧
    (HasErrors (bh (st p)) = false →
     copies_succeeded (length entries) copies).
Proof.
  intros HW.
  pose proof (Wait_no_errors (p_Concurrency params) bh_hasErrors
                bh_recordError (backupTask fl w params)
                (fun e s => HasErrors_snoc (bh s) e)
                (fun ev s => eq_refl)
                (backupTask_keeps fl w params)
                (backupTask_records fl w params) sched c entries s p HW)
    as Hsucc.
  unfold Wait in HW.
  destruct (forallb is_finished _) eqn:Hall; [|done]. injection HW as <-.
  set (p := prun _ _ _ _ sched _) in *.
  assert (mysqld (st p) = mysqld s) as Hm.
  { apply (prun_rel (p_Concurrency params) bh_hasErrors bh_recordError
             (backupTask fl w params)
             (fun a b => mysqld b = mysqld a)); try done.
    - intros; congruence.
    - intros. apply backupTask_state. }
  destruct (prun_lengths (p_Concurrency params) bh_hasErrors
              bh_recordError (backupTask fl w params) sched
              (pool_init c entries s)) as [Hlt Hlf].
  fold p in Hlt, Hlf. simpl in Hlt, Hlf. rewrite length_replicate in Hlt.
  destruct (prun_pool_trace (p_Concurrency params) bh_hasErrors
              bh_recordError (backupTask fl w params) is_task_event)
    with (sched := sched) (c := c) (entries := entries) (s := s)
    as (copies & E & Hok & Hends & Hbound).
  { done. }
  { intros e s0. exists []. split; [by rewrite app_nil_r|done]. }
  { intros i fe s0. exists []. rewrite app_nil_r.
    split; [apply backupTask_state|done]. }
  fold p in E, Hends, Hbound.
  split; [done|]. split; [done|]. exists copies.
  split; [done|]. split; [done|].
  assert (∀ i, i < length entries →
               ∃ o, tasks p !! i = Some (Finished o)) as Hfin.
  { intros i Hi.
    destruct (lookup_lt_is_Some_2 (tasks p) i) as [t Ht]; [lia|].
    rewrite forallb_forall in Hall.
    assert (is_finished t = true) as Hf.
    { apply Hall, list_elem_of_In. by eapply list_elem_of_lookup_2. }
    destruct t; try done. by eexists. }
  split; [|split].
  - intros i Hi. destruct (Hfin i Hi) as [o Ho]. exists o. by apply Hends.
  - intros i ev Hev Htask. rewrite <- Hlt. by eapply Hbound.
  - intros Hno i Hi. apply Hends. by apply Hsucc.
Qed.

(** ** The manifest *)

Lemma writeManifest_spec w bm s :
  mysqld (writeManifest w bm s).1 = mysqld s ∧
  bh_errors (bh (writeManifest w bm s).1) = bh_errors (bh s) ∧
  ∃ manifest,
    trace (writeManifest w bm s).1 = trace s ++ manifest ∧
    manifest ≠ [] ∧
    forallb is_manifest_event manifest = true ∧
    ((writeManifest w bm s).2 = None ↔ manifest_written manifest) ∧
    ((writeManifest w bm s).2 = None →
     bh_files (bh (writeManifest w bm s).1) !! backupManifestFileName
     = Some (ManifestJSON bm)) ∧
    (∀ ce, EvManifestClose ce ∈ manifest →
       ce = w_manifest_Close w ∧
       (writeManifest w bm s).2
       = match first_error
                 [wrap_step (w_manifest_Marshal w)
                            "cannot JSON encode MANIFEST"%string;
                  wrap_step (w_manifest_Write w)
                            "cannot write MANIFEST"%string] with
         | Some e => Some e
         | None => ce
         end).
Proof.
  unfold writeManifest, manifest_written.
  destruct (w_manifest_AddFile w) as [ea|];
    [|destruct (w_manifest_Marshal w) as [em|];
      [|destruct (w_manifest_Write w) as [ew|]];
      destruct (w_manifest_Close w) as [ec|]];
    simpl; (split; [done|]); (split; [done|]);
    eexists; (split; [rewrite <- ?app_assoc; reflexivity|]);
    simpl; (split; [done|]); (split; [done|]);
    (split; [(split; [done|by intros [=]]) || (split; done)|]);
    (split; [done || by rewrite lookup_insert_eq|]);
    intros ce Hce; set_solver.
Qed.

(** ** What the copies leave in the handle *)

(** The name of a file in the handle is a number and never the name of
    the manifest. *)
Lemma pretty_N_go_ne_M x s s' :
  s ≠ String "M" s' → pretty_N_go x s ≠ String "M" s'.
Proof.
  revert s. induction (N.lt_wf_0 x) as [x _ IH]; intros s Hs.
  assert (x = 0 ∨ 0 < x)%N as [->|Hx] by lia.
  - by rewrite pretty_N_go_0.
  - rewrite pretty_N_go_step by done. apply IH.
    { by apply N.div_lt. }
    unfold pretty_N_char. by repeat case_match.
Qed.

Lemma pretty_ne_manifest (i : nat) : pretty i ≠ backupManifestFileName.
Proof.
  unfold pretty, pretty_nat, pretty, pretty_N, backupManifestFileName.
  destruct (decide _); [done|]. by apply pretty_N_go_ne_M.
Qed.

(** A copy writes under its own name only, and a copy that returns nil
    has saved the hash of the stored bytes in its entry and the bytes
    under its name. *)
Lemma backupFile_files fl io cnf fe name s k :
  k ≠ name →
  bh_files (bh (backupFile fl io cnf fe name s).1.1) !! k
  = bh_files (bh s) !! k.
Proof.
  intros Hk. unfold backupFile.
  repeat case_match; try done; simpl; by rewrite lookup_insert_ne.
Qed.

Lemma backupFile_copied fl io cnf fe name s :
  (backupFile fl io cnf fe name s).2 = None →
  (backupFile fl io cnf fe name s).1.2
  = {| Base := Base fe; Name := Name fe;
       Hash := Pipe.hash_of (io_stored io);
       ParentPath := ParentPath fe |} ∧
  bh_files (bh (backupFile fl io cnf fe name s).1.1) !! name
  = Some (Bytes (io_stored io)).
Proof.
  unfold backupFile. repeat case_match; try done; simpl in *;
    intros _; by rewrite lookup_insert_eq.
Qed.

Lemma backupTask_files fl w params i fe s k :
  k ≠ pretty i →
  bh_files (bh (backupTask fl w params i fe s).1.1) !! k
  = bh_files (bh s) !! k.
Proof.
  intros Hk. unfold backupTask.
  pose proof (backupFile_files fl (w_backupIO w i) (p_Cnf params) fe
                (pretty i) s k Hk) as H.
  by destruct (backupFile _ _ _ _ _ _) as [[s' fe'] [e|]].
Qed.

Lemma backupTask_copied fl w params i fe s :
  (backupTask fl w params i fe s).2 = None →
  (backupTask fl w params i fe s).1.2 = copied_entry w i fe ∧
  bh_files (bh (backupTask fl w params i fe s).1.1) !! pretty i
  = Some (Bytes (io_stored (w_backupIO w i))).
Proof.
  unfold backupTask.
  pose proof (backupFile_copied fl (w_backupIO w i) (p_Cnf params) fe
                (pretty i) s) as H.
  destruct (backupFile _ _ _ _ _ _) as [[s' fe'] [e|]]; [done|].
  intros _. by apply H.
Qed.

(** After the wait of [backupFiles] on a handle without errors, every
    entry has its hash and every file is in the handle. *)
Lemma backup_pool_copied fl w params sched c entries s p :
  Wait (p_Concurrency params) bh_hasErrors bh_recordError
       (backupTask fl w params) sched (pool_init c entries s) = Some p →
  HasErrors (bh (st p)) = false →
  fes p = imap (copied_entry w) entries ∧
  ∀ i fe, entries !! i = Some fe →
          bh_files (bh (st p)) !! pretty i
          = Some (Bytes (io_stored (w_backupIO w i))).
Proof.
  intros HW Hno.
  pose proof (Wait_no_errors (p_Concurrency params) bh_hasErrors
                bh_recordError (backupTask fl w params)
                (fun e s => HasErrors_snoc (bh s) e)
                (fun ev s => eq_refl)
                (backupTask_keeps fl w params)
                (backupTask_records fl w params) sched c entries s p HW
                Hno) as Hsucc.
  unfold Wait in HW.
  destruct (forallb is_finished _) eqn:Hall; [|done]. injection HW as <-.
  destruct (prun_lengths (p_Concurrency params) bh_hasErrors
              bh_recordError (backupTask fl w params) sched
              (pool_init c entries s)) as [_ Hlf].
  destruct (prun_copies_kept (p_Concurrency params) bh_hasErrors
              bh_recordError (backupTask fl w params) entries
              (fun i fe fe' s =>
                 fe' = copied_entry w i fe ∧
                 bh_files (bh s) !! pretty i
                 = Some (Bytes (io_stored (w_backupIO w i)))))
    with (sched := sched) (c := c) (s := s) as [_ Hkept].
  { done. }
  { done. }
  { intros i fe fe' j fej s0 Hne [-> Hfile]. split; [done|].
    rewrite backupTask_files; [done|].
    intros Heq. by apply (inj pretty) in Heq. }
  { intros i fe s0. apply backupTask_copied. }
  set (p := prun _ _ _ _ sched _) in *. simpl in Hlf.
  assert (∀ i fe, entries !! i = Some fe →
            fes p !! i = Some (copied_entry w i fe) ∧
            bh_files (bh (st p)) !! pretty i
            = Some (Bytes (io_stored (w_backupIO w i)))) as Heach.
  { intros i fe Hi.
    destruct (Hkept i) as (fe0 & fe' & Hfe0 & Hfe' & -> & Hfile).
    { apply Hsucc. by eapply lookup_lt_Some. }
    assert (fe0 = fe) as -> by congruence. done. }
  split; [|intros i fe Hi; by destruct (Heach i fe Hi)].
  apply list_eq. intros i. rewrite list_lookup_imap.
  destruct (entries !! i) as [fe|] eqn:Hi; simpl.
  - by destruct (Heach i fe Hi).
  - apply lookup_ge_None. rewrite Hlf. by apply lookup_ge_None.
Qed.

(** ** [backupFiles] *)

Lemma backupFiles_spec fl w sched c params rp pp fp binlogs uuid s s' r :
  backupFiles fl w sched c params rp pp fp binlogs uuid s = Some (s', r) →
  mysqld s' = mysqld s ∧
  ∃ n copies manifest,
    trace s' = trace s ++ copies ++ manifest ∧
    forallb is_task_event copies = true ∧
    forallb is_manifest_event manifest = true ∧
    copies_finished n copies ∧
    tasks_below n copies ∧
    (manifest ≠ [] →
     bh_errors (bh s') = [] ∧ copies_succeeded n copies) ∧
    (r = None ↔ copies_succeeded n copies ∧ manifest_written manifest) ∧
    (r = None →
     ∃ entries,
       length entries = n ∧
       bh_files (bh s') !! backupManifestFileName
       = Some (ManifestJSON (newManifest fl w params rp pp fp uuid
                                         entries))) ∧
    (∀ ce, EvManifestClose ce ∈ manifest →
       ce = w_manifest_Close w ∧
       r = match first_error
                   [wrap_step (w_manifest_Marshal w)
                              "cannot JSON encode MANIFEST"%string;
                    wrap_step (w_manifest_Write w)
                              "cannot write MANIFEST"%string] with
           | Some e => Some e
           | None => ce
           end).
Proof.
  unfold backupFiles.
  destruct (if isIncrementalBackup params then _ else _)
    as [entries|e] eqn:Hfound.
  - destruct (Wait _ _ _ _ _ _) as [p|] eqn:HW; [|done].
    destruct (backup_pool_spec _ _ _ _ _ _ _ _ HW)
      as (Hm & Hlen & copies & E & Hok & Hfin & Hbound & Hsucc).
    destruct (HasErrors (bh (st p))) eqn:Herr.
    + intros [= <- <-]. split; [done|].
      exists (length entries), copies, [].
      rewrite app_nil_r. repeat (split; [done|]).
      pose proof (HasErrors_Error _ Herr) as Hsome.
      split; [|split]; [|done|intros ce Hce; set_solver].
      split; [done|]. by intros [_ [=]].
    + set (bm := newManifest _ _ _ _ _ _ _ _).
      destruct (writeManifest_spec w bm (st p))
        as (Hm' & He' & manifest & E' & Hne & Hok' & Hiff & Hfile & Hclose).
      destruct (writeManifest w bm (st p)) as [s2 r2]. simpl in *.
      intros [= <- <-]. split; [congruence|].
      exists (length entries), copies, manifest.
      split; [by rewrite E', E, app_assoc|].
      repeat (split; [done|]).
      apply HasErrors_false in Herr as Herr'.
      split; [intros _; split; [congruence|by apply Hsucc]|].
      split; [split; [intros H; split; [by apply Hsucc|by apply Hiff]
                     |intros [_ H]; by apply Hiff]|].
      split; [|done].
      intros H. exists (fes p). split; [done|]. by apply Hfile.
  - intros [= <- <-]. split; [done|]. exists 0, [], [].
    rewrite !app_nil_r. repeat (split; [done|]).
    split; [intros i Hi; lia|]. split; [intros i ev Hev; set_solver|].
    split; [done|]. split; [split; [done|by intros [_ [=]]]|].
    split; [done|]. intros ce Hce. set_solver.
Qed.

Lemma writeManifest_files w bm s k :
  k ≠ backupManifestFileName →
  bh_files (bh (writeManifest w bm s).1) !! k = bh_files (bh s) !! k.
Proof.
  intros Hk. unfold writeManifest.
  destruct (w_manifest_AddFile w); [done|].
  destruct (w_manifest_Marshal w); [|destruct (w_manifest_Write w)];
    destruct (w_manifest_Close w); simpl; try done.
  by rewrite lookup_insert_ne.
Qed.

(** [backupFiles] on the files it finds: one task per file, each ended
    before the manifest is touched, and after a nil result every file
    and the manifest that lists them are in the handle. *)
Lemma backupFiles_found fl w sched c params rp pp fp binlogs uuid s s' r :
  backupFiles fl w sched c params rp pp fp binlogs uuid s = Some (s', r) →
  match files_found w params binlogs with
  | Err _ => s' = s ∧ r ≠ None
  | Ok entries =>
      let n := length entries in
      ∃ copies manifest,
        trace s' = trace s ++ copies ++ manifest ∧
        forallb is_task_event copies = true ∧
        forallb is_manifest_event manifest = true ∧
        copies_finished n copies ∧
        tasks_below n copies ∧
        (manifest ≠ [] →
         bh_errors (bh s') = [] ∧ copies_succeeded n copies) ∧
        (r = None ↔ copies_succeeded n copies ∧ manifest_written manifest) ∧
        (r = None → backup_stored w entries (bh s'))
  end.
Proof.
  unfold backupFiles. fold (files_found w params binlogs).
  destruct (files_found w params binlogs) as [entries|e] eqn:Hfound;
    [|by intros [= <- <-]].
  destruct (Wait _ _ _ _ _ _) as [p|] eqn:HW; [|done].
  destruct (backup_pool_spec _ _ _ _ _ _ _ _ HW)
    as (Hm & Hlen & copies & E & Hok & Hfin & Hbound & Hsucc).
  destruct (HasErrors (bh (st p))) eqn:Herr.
  - intros [= <- <-]. exists copies, [].
    rewrite app_nil_r. repeat (split; [done|]).
    pose proof (HasErrors_Error _ Herr) as Hsome.
    split; [|intros H; by destruct Hsome].
    split; [intros H; by destruct Hsome|by intros [_ [=]]].
  - destruct (backup_pool_copied _ _ _ _ _ _ _ _ HW Herr)
      as [Hfes Hfiles].
    set (bm := newManifest _ _ _ _ _ _ _ _).
    destruct (writeManifest_spec w bm (st p))
      as (Hm' & He' & manifest & E' & Hne & Hok' & Hiff & Hfile & _).
    pose proof (writeManifest_files w bm (st p)) as Hkeep.
    destruct (writeManifest w bm (st p)) as [s2 r2]. simpl in *.
    intros [= <- <-]. exists copies, manifest.
    split; [by rewrite E', E, app_assoc|].
    repeat (split; [done|]).
    apply HasErrors_false in Herr as Herr'.
    split; [intros _; split; [congruence|by apply Hsucc]|].
    split; [split; [intros H; split; [by apply Hsucc|by apply Hiff]
                   |intros [_ H]; by apply Hiff]|].
    intros H. split.
    + exists bm. split; [by apply Hfile|done].
    + intros i fe Hi. rewrite Hkeep; [by eapply Hfiles|].
      apply pretty_ne_manifest.
Qed.

(** ** The manifest comes last *)

Lemma manifest_last_none w s s' :
  extends is_other_event s s' → manifest_last None w s s' false.
Proof.
  intros (t & E & Hok). exists t, [], [], [].
  rewrite !app_nil_r. by repeat (split; [done|]).
Qed.

Lemma manifest_last_run fl w sched c params rp pp fp binlogs uuid
    s s1 s2 s' r usable :
  extends is_other_event s s1 →
  backupFiles fl w sched c params rp pp fp binlogs uuid s1
    = Some (s2, r) →
  extends is_other_event s2 s' →
  bh s' = bh s2 →
  (usable = true ↔ r = None) →
  manifest_last
    match files_found w params binlogs with
    | Ok entries => Some entries
    | Err _ => None
    end w s s' usable.
Proof.
  intros (before & E1 & Hok1) Hrun (after & E3 & Hok3) Hbh Husable.
  pose proof (backupFiles_found _ _ _ _ _ _ _ _ _ _ _ _ _ Hrun) as Hspec.
  destruct (files_found w params binlogs) as [entries|e].
  - destruct Hspec as (copies & manifest & E2 & Hc & Hm & Hfin & Hbound
                       & Hlast & Hiff & Hstored).
    exists before, copies, manifest, after.
    split; [by rewrite E3, E2, E1, <- !app_assoc|].
    repeat (split; [done|]).
    split; [by rewrite Hbh|]. split; [by rewrite Husable|].
    rewrite Hbh, Husable. exact Hstored.
  - destruct Hspec as [-> Hr]. exists before, [], [], after.
    split; [by rewrite E3, E1, <- !app_assoc|].
    repeat (split; [done|]).
    destruct usable; [|done]. by destruct Hr, Husable as [-> _].
Qed.

Lemma executeIncrementalBackup_manifest_last
    fl w sched c params s s' usable err :
  isIncrementalBackup params = true →
  executeIncrementalBackup fl w sched c params s
    = Some (s', (usable, err)) →
  manifest_last (files_to_copy fl w params s) w s s' usable.
Proof.
  intros Hinc. unfold files_to_copy, executeIncrementalBackup.
  rewrite Hinc.
  destruct (incrementalPlan w params s) as [[s1 plan]|] eqn:Hplan; [|done].
  destruct (quiet_incrementalPlan w params _ _ _ Hplan) as (_ & _ & Hext).
  destruct plan as [[[[[params' toPos] fromPos] binlogs] uuid]|e].
  - destruct (backupFiles _ _ _ _ _ _ _ _ _ _ _) as [[s2 r]|] eqn:Hrun;
      [|done].
    intros H.
    assert (usable = bool_decide (r = None) ∧ s' = s2) as [-> ->]
      by (destruct r; by injection H as <- <- <-).
    eapply manifest_last_run; try done.
    + apply extends_refl.
    + by rewrite bool_decide_eq_true.
  - intros [= <- <- <-]. by apply manifest_last_none.
Qed.

Lemma isIncrementalBackup_false params :
  isIncrementalBackup params = false → p_IncrementalFromPos params = "".
Proof.
  unfold isIncrementalBackup. intros H%bool_decide_eq_false.
  by apply dec_stable in H.
Qed.

Lemma executeFullBackup_manifest_last
    fl w sched c params s s' usable err :
  isIncrementalBackup params = false →
  executeFullBackup fl w sched c params s = Some (s', (usable, err)) →
  manifest_last (files_to_copy fl w params s) w s s' usable.
Proof.
  intros Hinc. unfold files_to_copy, executeFullBackup. rewrite Hinc.
  apply isIncrementalBackup_false in Hinc as Hfrom.
  destruct (decide (p_IncrementalFromPos params ≠ ""%string));
    [done|].
  destruct (saveInitialState fl w s) as [[s1 [sv|e]]|] eqn:Hsave;
    [| |done].
  2:{ intros [= <- <- <-]. apply manifest_last_none.
      by eapply quiet_saveInitialState. }
  destruct (quiet_saveInitialState _ _ _ _ _ Hsave) as (_ & _ & Hext1).
  destruct (captureAndShutdown w sv s1) as [[s2 [[[rp pp] uuid]|e]]|]
    eqn:Hcap; [| |done].
  2:{ intros [= <- <- <-]. apply manifest_last_none.
      eapply extends_trans; [exact Hext1|].
      eapply extends_trans; [by eapply quiet_captureAndShutdown|].
      apply runDeferred_quiet. }
  destruct (quiet_captureAndShutdown _ _ _ _ _ Hcap) as (_ & _ & Hext2).
  destruct (backupFiles _ _ _ _ _ _ _ _ _ _ _) as [[s3 backupErr]|]
    eqn:Hrun; [|done].
  destruct (restartAndRestore w sv rp s3) as [[s4 rr]|] eqn:Hrec; [|done].
  destruct (quiet_restartAndRestore _ _ _ _ _ _ Hrec) as (Hbh4 & _ & Hext4).
  destruct (runDeferred_quiet w sv s4) as (Hbh5 & _ & Hext5).
  intros H.
  assert (usable = bool_decide (backupErr = None) ∧
          s' = runDeferred w sv s4) as [-> ->]
    by (destruct rr; by injection H as <- <- <-).
  eapply (manifest_last_run fl w sched c params rp pp None [] uuid).
  - eapply extends_trans; [exact Hext1|exact Hext2].
  - exact Hrun.
  - eapply extends_trans; [exact Hext4|exact Hext5].
  - congruence.
  - by rewrite bool_decide_eq_true.
Qed.

(** C1: in every run of [ExecuteBackup] that returns, there is one file
    task for each of the files found for the backup, and the manifest is
    opened only after every one of these tasks has ended, and only when
    the handle has recorded no error and every copy has succeeded.  The
    backup is reported usable exactly when the copy of every file found
    succeeded and the manifest was added, written and closed without an
    error; the handle of a usable backup holds the bytes of every file
    found and the manifest that lists these files with their hashes.  A
    run that finds no list of files starts no task, writes no manifest
    and is not usable. *)
Theorem ExecuteBackup_manifest_last fl w sched c params s s' usable err :
  ExecuteBackup fl w sched c params s = Some (s', (usable, err)) →
  manifest_last (files_to_copy fl w params s) w s s' usable.
Proof.
  unfold ExecuteBackup.
  destruct (isIncrementalBackup params) eqn:Hinc.
  - by apply executeIncrementalBackup_manifest_last.
  - by apply executeFullBackup_manifest_last.
Qed.

Lemma ExecuteBackup_manifest_last_witness :
  ∃ s',
    ExecuteBackup example_flags world_ok (sequential 2) None
                  (example_params "") (example_sys empty_handle)
    = Some (s', (true, None)) ∧
    manifest_last (Some example_entries) world_ok
                  (example_sys empty_handle) s' true.
Proof.
  destruct (returns_with snd
              (ExecuteBackup example_flags world_ok (sequential 2) None
                 (example_params "") (example_sys empty_handle))
              (true, None) ltac:(vm_compute; reflexivity))
    as ([s' r] & E & Hr).
  simpl in Hr. subst r. exists s'. split; [exact E|].
  assert (files_to_copy example_flags world_ok (example_params "")
                        (example_sys empty_handle)
          = Some example_entries) as Hfound by (vm_compute; reflexivity).
  rewrite <- Hfound.
  exact (ExecuteBackup_manifest_last example_flags world_ok (sequential 2)
           None (example_params "") (example_sys empty_handle) s' true
           None E).
Defined.

(** C8: when [backupFiles] has closed the sink of the manifest, what it
    returns is the error of the encoding or of the write if one of them
    failed, and the error of the close only when both returned nil. *)
Theorem manifest_close_error fl w sched c params rp pp fp binlogs uuid
    s s' r t ce :
  backupFiles fl w sched c params rp pp fp binlogs uuid s = Some (s', r) →
  trace s' = trace s ++ t →
  EvManifestClose ce ∈ t →
  ce = w_manifest_Close w ∧
  r = match first_error
              [wrap_step (w_manifest_Marshal w)
                         "cannot JSON encode MANIFEST"%string;
               wrap_step (w_manifest_Write w)
                         "cannot write MANIFEST"%string] with
      | Some e => Some e
      | None => ce
      end.
Proof.
  intros Hrun Et Hce.
  destruct (backupFiles_spec _ _ _ _ _ _ _ _ _ _ _ _ _ Hrun)
    as (_ & n & copies & manifest & E & Hc & _ & _ & _ & _ & _ & _ & Hclose).
  rewrite E in Et. apply app_inv_head in Et as <-.
  apply elem_of_app in Hce as [Hce|Hce]; [|by apply Hclose].
  rewrite forallb_forall in Hc.
  apply list_elem_of_In, Hc in Hce. done.
Qed.

Lemma manifest_close_error_witness :
  ∃ s',
    backupFiles example_flags world_close_fails (sequential 2) None
      (example_params "") None None None [] example_uuid
      (example_sys empty_handle)
    = Some (s', Some (Plain "upload failed")) ∧
    Some (Plain "upload failed") = w_manifest_Close world_close_fails.
Proof.
  destruct (returns_with (fun x => (x.2, trace x.1))
              (backupFiles example_flags world_close_fails (sequential 2)
                 None (example_params "") None None None [] example_uuid
                 (example_sys empty_handle))
              (Some (Plain "upload failed"),
               [EvTaskStart 0; EvTaskEnd 0 (Ran None);
                EvTaskStart 1; EvTaskEnd 1 (Ran None);
                EvManifestAdd None; EvManifestWrite None;
                EvManifestClose (Some (Plain "upload failed"))])
              ltac:(vm_compute; reflexivity))
    as ([s' r] & E & [= -> Et]).
  exists s'. split; [exact E|].
  apply (manifest_close_error example_flags world_close_fails
           (sequential 2) None (example_params "") None None None []
           example_uuid (example_sys empty_handle) s' _ (trace s') _ E).
  - reflexivity.
  - rewrite Et. set_solver.
Defined.

End BackupFacts.

(* ===================================================================== *)
(** * The recovery of a full backup *)
(* ===================================================================== *)

Module RecoveryFacts.
Import Backup PoolFacts BackupFacts.


Lemma never_shut_down_app (t1 t2 : list event) :
  never_shut_down t1 → never_shut_down t2 → never_shut_down (t1 ++ t2).
Proof.
  intros H1 H2 c Hin. apply elem_of_app in Hin as [Hin|Hin].
  - by apply (H1 c).
  - by apply (H2 c).
Qed.


(** ** The shutdown *)




(** ** The restart *)



(** ** The run as a whole *)






End RecoveryFacts.

(* ===================================================================== *)
(** * Incremental backups *)
(* ===================================================================== *)

Module IncrementalFacts.
Import Backup PoolFacts BackupFacts.

(** ** The from-position *)

Lemma getIncrementalFromPosGTIDSet_rejects w fromPos :
  (∀ g, w_DecodePosition w fromPos ≠ Ok (Some (Mysql56GTIDSet g))) →
  ∃ e,
    getIncrementalFromPosGTIDSet w fromPos = Err e ∧
    match w_DecodePosition w fromPos with
    | Err d => e = Wrap d "cannot decode position in incremental backup"
               ∧ CodeOf e = CodeOf d
    | Ok _ => CodeOf e = Code_FAILED_PRECONDITION
    end.
Proof.
  intros Hnot. unfold getIncrementalFromPosGTIDSet.
  destruct (w_DecodePosition w fromPos) as [[[g|m|f]|]|d] eqn:E;
    simpl; try (by eexists).
  by destruct (Hnot g).
Qed.

(** C6, as amended: an incremental backup whose from-position, given or
    resolved from "auto", does not decode to a MySQL56 position is
    rejected before anything is flushed or copied: the state is left as
    it was.  The error is a failed-precondition error when the position
    decodes to another flavor, and the error of the decoder, wrapped and
    with the kind of the decoder's error, when it does not decode. *)
Theorem incremental_rejects_other_positions
    fl w sched c params params' uuid purged s :
  w_GetServerUUID w = Ok uuid →
  getPurgedGTIDSet w = Ok purged →
  resolveIncrementalFromPos w params = Ok params' →
  (∀ g, w_DecodePosition w (p_IncrementalFromPos params')
        ≠ Ok (Some (Mysql56GTIDSet g))) →
  ∃ e,
    executeIncrementalBackup fl w sched c params s
      = Some (s, (false, Some e)) ∧
    match w_DecodePosition w (p_IncrementalFromPos params') with
    | Err d => e = Wrap d "cannot decode position in incremental backup"
               ∧ CodeOf e = CodeOf d
    | Ok _ => CodeOf e = Code_FAILED_PRECONDITION
    end.
Proof.
  intros Huuid Hpurged Hresolve Hnot.
  destruct (getIncrementalFromPosGTIDSet_rejects w _ Hnot)
    as (e & Hrej & Hkind).
  exists e. split; [|done].
  unfold executeIncrementalBackup, incrementalPlan, bindM, ask.
  by rewrite Huuid, Hpurged, Hresolve, Hrej.
Qed.

Lemma incremental_rejects_other_positions_witness :
  ∃ e,
    executeIncrementalBackup example_flags world_ok [] None
      (example_params "MariaDB/0-1-2") (example_sys empty_handle)
      = Some (example_sys empty_handle, (false, Some e)) ∧
    CodeOf e = Code_FAILED_PRECONDITION.
Proof.
  apply (incremental_rejects_other_positions example_flags world_ok []
           None (example_params "MariaDB/0-1-2")
           (example_params "MariaDB/0-1-2") example_uuid (gtids 1)
           (example_sys empty_handle)).
  - reflexivity.
  - reflexivity.
  - reflexivity.
  - intros g. vm_compute. discriminate.
Defined.

(** C6, as stated, fails: a from-position that does not decode at all
    is rejected with the error of the decoder, whose kind here is
    internal, not failed-precondition. *)
Lemma undecodable_position_is_not_failed_precondition :
  ¬ flavor_rejection_as_claimed example_flags world_ok [] None
      (example_params "garbage") (example_sys empty_handle).
Proof.
  intros Hclaim. destruct Hclaim as (e & Hrun & Hcode).
  - intros g. vm_compute. discriminate.
  - destruct (returns_with (fun x => x.2.2)
                (executeIncrementalBackup example_flags world_ok [] None
                   (example_params "garbage") (example_sys empty_handle))
                (Some (Wrap (Errorf Code_INTERNAL
                               "parse error: unknown GTIDSet flavor")
                            "cannot decode position in incremental backup"))
                ltac:(vm_compute; reflexivity))
      as ([s' r] & E & Hr).
    rewrite Hrun in E. injection E as <- <-. simpl in Hr.
    injection Hr as ->. discriminate.
Qed.

(** ** The positions of the manifest *)

Lemma getBinlogPreviousGTIDs_sound w binlog cache cache' r :
  cache_sound w cache →
  getBinlogPreviousGTIDs w binlog cache = (cache', r) →
  cache_sound w cache' ∧
  ∀ gtids, r = Ok gtids → w_GetPreviousGTIDs w binlog = Ok gtids.
Proof.
  intros Hsound. unfold getBinlogPreviousGTIDs.
  destruct (cache !! binlog) as [g|] eqn:Hc.
  - intros [= <- <-]. split; [done|]. intros gtids [= <-]. by apply Hsound.
  - destruct (w_GetPreviousGTIDs w binlog) as [g|e] eqn:Hw;
      intros [= <- <-]; (split; [|by intros gtids [= <-]]); [|done].
    intros b g' Hb. destruct (decide (b = binlog)) as [->|Hne].
    + rewrite lookup_insert_eq in Hb. congruence.
    + rewrite lookup_insert_ne in Hb by done. by apply Hsound.
Qed.

(** The files chosen start with a file whose previous GTIDs are the
    from-position, and the end-position is the server position. *)
Lemma ChooseBinlogsForIncrementalBackup_spec w from purged logs :
  ∀ cache cache' chosen fromGTID toGTID,
    cache_sound w cache →
    ChooseBinlogsForIncrementalBackup w from purged logs cache
      = (cache', Ok (chosen, fromGTID, toGTID)) →
    ∃ binlog later,
      chosen = binlog :: later ∧
      binlog ∈ logs ∧
      w_GetPreviousGTIDs w binlog = Ok fromGTID ∧
      toGTID = w_server_position w.
Proof.
  induction logs as [|binlog rest IH];
    intros cache cache' chosen fromGTID toGTID Hsound; [done|].
  cbn [ChooseBinlogsForIncrementalBackup].
  destruct (getBinlogPreviousGTIDs w binlog cache) as [cache1 r] eqn:Hget.
  destruct (getBinlogPreviousGTIDs_sound _ _ _ _ _ Hsound Hget)
    as [Hsound1 Hr].
  destruct r as [gtids|e]; [|done].
  destruct (w_ParsePosition w Mysql56FlavorID gtids)
    as [[[prev|?|?]|]|?]; try done.
  destruct (decide (prev ∖ purged ⊆ from)).
  - intros [= <- <- <- <-]. eexists _, _. split; [done|].
    split; [set_solver|]. split; [by apply Hr|done].
  - intros Hrec.
    destruct (IH _ _ _ _ _ Hsound1 Hrec) as (b & later & -> & Hin & Hb & Ht).
    exists b, later. split; [done|]. split; [set_solver|done].
Qed.

(** What the plan of an incremental backup hands to [backupFiles]. *)
Lemma incrementalPlan_spec w params s s1 params' toPos fromPos binlogs uuid :
  incrementalPlan w params s
    = Some (s1, Ok (params', toPos, fromPos, binlogs, uuid)) →
  bh s1 = bh s ∧
  ∃ binlog later fromGTID,
    binlogs = binlog :: later ∧
    w_GetPreviousGTIDs w binlog = Ok fromGTID ∧
    w_ParsePosition w Mysql56FlavorID fromGTID = Ok fromPos ∧
    w_ParsePosition w Mysql56FlavorID (w_server_position w) = Ok toPos.
Proof.
  intros Hplan.
  split; [by eapply quiet_incrementalPlan|].
  revert Hplan. unfold incrementalPlan, bindM, ask, call, ret.
  destruct (w_GetServerUUID w); [|done].
  destruct (getPurgedGTIDSet w) as [purged|]; [|done].
  destruct (resolveIncrementalFromPos w params) as [p'|]; [|done].
  destruct (getIncrementalFromPosGTIDSet w _) as [from|]; [|done].
  destruct (w_FlushBinaryLogs w); [done|].
  destruct (w_GetBinaryLogs w) as [logs|]; [|done].
  destruct (ChooseBinlogsForIncrementalBackup w from purged logs ∅)
    as [cache' [[[chosen fromGTID] toGTID]|]] eqn:Hchoose; [|done].
  simpl.
  destruct (ChooseBinlogsForIncrementalBackup_spec _ _ _ _ _ _ _ _ _
              (fun b g H => ltac:(by rewrite lookup_empty in H)) Hchoose)
    as (binlog & later & -> & _ & Hprev & ->).
  destruct (w_ParsePosition w Mysql56FlavorID fromGTID) as [fp|] eqn:Hfp;
    [|done].
  destruct (w_ParsePosition w Mysql56FlavorID (w_server_position w))
    as [tp|] eqn:Htp; [|done].
  intros [= <- <- <- <- <- <-]. by exists binlog, later, fromGTID.
Qed.

(** C7: after a successful incremental backup the handle holds the
    manifest that [backupFiles] wrote for the binary logs chosen.  Its
    from-position is the parsed previous-GTIDs of the first of these
    logs, its position is the parsed server position of the choice, and
    its incremental flag is set exactly when the from-position is not
    the zero position. *)
Theorem incremental_manifest_positions fl w sched c params s s' :
  executeIncrementalBackup fl w sched c params s
    = Some (s', (true, None)) →
  ∃ bm params' s1 uuid binlog later fromGTID,
    backupFiles fl w sched c params' (Position_ (base bm)) None
                (FromPosition (base bm)) (binlog :: later) uuid s1
      = Some (s', None) ∧
    bh_files (bh s') !! backupManifestFileName = Some (ManifestJSON bm) ∧
    w_GetPreviousGTIDs w binlog = Ok fromGTID ∧
    w_ParsePosition w Mysql56FlavorID fromGTID
      = Ok (FromPosition (base bm)) ∧
    w_ParsePosition w Mysql56FlavorID (w_server_position w)
      = Ok (Position_ (base bm)) ∧
    Incremental (base bm) = negb (IsZero (FromPosition (base bm))).
Proof.
  unfold executeIncrementalBackup.
  destruct (incrementalPlan w params s)
    as [[s1 [[[[[params' toPos] fromPos] binlogs] uuid]|e]]|] eqn:Hplan;
    [| |done]; [|done].
  destruct (incrementalPlan_spec _ _ _ _ _ _ _ _ _ Hplan)
    as (_ & binlog & later & fromGTID & -> & Hprev & Hfrom & Hto).
  destruct (backupFiles _ _ _ _ _ _ _ _ _ _ _) as [[s2 [e|]]|] eqn:Hrun;
    [done| |done].
  intros [= <-].
  destruct (backupFiles_spec _ _ _ _ _ _ _ _ _ _ _ _ _ Hrun)
    as (_ & n & copies & manifest & _ & _ & _ & _ & _ & _ & _ & Hfile & _).
  destruct (Hfile eq_refl) as (entries & _ & Hbm).
  eexists _, params', s1, uuid, binlog, later, fromGTID.
  split; [|split; [exact Hbm|]]; simpl; done.
Qed.

Lemma incremental_manifest_positions_witness :
  ∃ s' bm params' s1 uuid binlog later fromGTID,
    executeIncrementalBackup example_flags world_ok (sequential 3) None
      (example_params "MySQL56/u:1-3") (example_sys empty_handle)
      = Some (s', (true, None)) ∧
    backupFiles example_flags world_ok (sequential 3) None params'
                (Position_ (base bm)) None (FromPosition (base bm))
                (binlog :: later) uuid s1
      = Some (s', None) ∧
    bh_files (bh s') !! backupManifestFileName = Some (ManifestJSON bm) ∧
    w_GetPreviousGTIDs world_ok binlog = Ok fromGTID ∧
    w_ParsePosition world_ok Mysql56FlavorID fromGTID
      = Ok (FromPosition (base bm)) ∧
    w_ParsePosition world_ok Mysql56FlavorID (w_server_position world_ok)
      = Ok (Position_ (base bm)) ∧
    Incremental (base bm) = negb (IsZero (FromPosition (base bm))).
Proof.
  destruct (returns_with snd
              (executeIncrementalBackup example_flags world_ok
                 (sequential 3) None (example_params "MySQL56/u:1-3")
                 (example_sys empty_handle))
              (true, None) ltac:(vm_compute; reflexivity))
    as ([s' r] & E & Hr).
  simpl in Hr. subst r.
  destruct (incremental_manifest_positions example_flags world_ok
              (sequential 3) None (example_params "MySQL56/u:1-3")
              (example_sys empty_handle) s' E)
    as (bm & params' & s1 & uuid & binlog & later & fromGTID & H).
  exists s', bm, params', s1, uuid, binlog, later, fromGTID.
  split; [exact E|exact H].
Defined.

End IncrementalFacts.

(* ===================================================================== *)
(** * Restore: what a run keeps, and the hash check *)
(* ===================================================================== *)

Module RestoreFacts.
Import Backup PoolFacts BackupFacts.

(** ** The relation [restoring] *)

Lemma restoring_refl s : restoring s s.
Proof.
  split; [done|]. split; [done|]. exists [].
  rewrite app_nil_r. split; [done|]. split; intros ? H; by inversion H.
Qed.

Lemma restoring_trans s1 s2 s3 :
  restoring s1 s2 → restoring s2 s3 → restoring s1 s3.
Proof.
  intros (Hb1 & Hf1 & t1 & E1 & Hd1 & Hc1) (Hb2 & Hf2 & t2 & E2 & Hd2 & Hc2).
  split; [congruence|]. split; [by auto|]. exists (t1 ++ t2).
  split; [by rewrite E2, E1, app_assoc|]. split.
  - intros ev [H|H]%elem_of_app; auto.
  - intros path [H|H]%elem_of_app; auto.
Qed.

(** An event that is neither a deletion nor a creation. *)
Lemma restoring_log ev s :
  is_delete_event ev = false →
  (∀ path, ev ≠ EvCreate path) →
  restoring s (log ev s).
Proof.
  intros Hd Hc. split; [done|]. split; [done|]. exists [ev].
  split; [done|]. split.
  - by intros ? ->%list_elem_of_singleton.
  - intros path H%list_elem_of_singleton. by destruct (Hc path).
Qed.

Lemma restoring_record e s : restoring s (rec_recordError e s).
Proof.
  split; [done|]. split; [done|]. exists [].
  simpl. rewrite app_nil_r. split; [done|].
  split; intros ? H; by inversion H.
Qed.

Lemma restoring_write path data s :
  restoring s (write_file path data s).
Proof.
  split; [done|]. split.
  - intros p Hp. simpl. destruct (decide (p = path)) as [->|Hne].
    + by rewrite lookup_insert_eq.
    + by rewrite lookup_insert_ne.
  - exists []. simpl. rewrite app_nil_r. split; [done|].
    split; intros ? H; by inversion H.
Qed.

(** The creation of a file that is there. *)
Lemma restoring_create path data s :
  restoring s (log (EvCreate path) (write_file path data s)).
Proof.
  split; [done|]. split.
  - intros p Hp. simpl. destruct (decide (p = path)) as [->|Hne].
    + by rewrite lookup_insert_eq.
    + by rewrite lookup_insert_ne.
  - exists [EvCreate path]. split; [done|]. split.
    + by intros ? ->%list_elem_of_singleton.
    + intros p [= ->]%list_elem_of_singleton. simpl.
      by rewrite lookup_insert_eq.
Qed.

(** ** [restoreFile] *)

Lemma restoreFile_restoring fl io cnf fe bm name s :
  restoring s (restoreFile fl io cnf fe bm name s).1.
Proof.
  unfold restoreFile.
  destruct (ReadFile io name (bh s)) as [stored|e]; [|apply restoring_refl].
  destruct (fullPath fe cnf) as [path|e]; [|apply restoring_refl].
  destruct (rio_MkdirAll io); [apply restoring_refl|].
  destruct (rio_Create io); [apply restoring_refl|].
  pose proof (restoring_create path [] s) as Hcreate.
  destruct (negb (SkipCompress bm)).
  - destruct (selectDecompressor fl bm) as [d|e]; simpl.
    + eapply restoring_trans; [|apply restoring_write].
      eapply restoring_trans; [apply Hcreate|].
      apply restoring_log; by destruct d.
    + eapply restoring_trans; [apply Hcreate|apply restoring_write].
  - simpl. eapply restoring_trans; [apply Hcreate|apply restoring_write].
Qed.

(** The error of [restoreFile] depends on the state through the handle
    only. *)
Lemma restoreFile_error_bh fl io cnf fe bm name s1 s2 :
  bh s1 = bh s2 →
  (restoreFile fl io cnf fe bm name s1).2
  = (restoreFile fl io cnf fe bm name s2).2.
Proof.
  intros Hbh. unfold restoreFile. rewrite Hbh.
  destruct (ReadFile io name (bh s2)) as [stored|e]; [|done].
  destruct (fullPath fe cnf) as [path|e]; [|done].
  destruct (rio_MkdirAll io); [done|].
  destruct (rio_Create io); [done|].
  destruct (negb (SkipCompress bm)); [|done].
  by destruct (selectDecompressor fl bm).
Qed.

(** A copy that gets to the hash check and finds another hash than the
    one of its entry returns the internal error, whatever the closing of
    the decompressor and of the destination return. *)
Lemma restoreFile_hash_mismatch fl io cnf fe bm name s stored :
  reaches_hash_check fl io cnf fe bm name (bh s) stored →
  Pipe.hash_of stored ≠ Hash fe →
  (restoreFile fl io cnf fe bm name s).2
  = Some (Errorf Code_INTERNAL "hash mismatch").
Proof.
  intros (Hread & [path Hpath] & Hmk & Hcr & Hdec & Hcopy) Hhash.
  unfold restoreFile. rewrite Hread, Hpath, Hmk, Hcr.
  destruct (SkipCompress bm) eqn:Hskip; simpl.
  - rewrite Hcopy. simpl. destruct (decide _) as [|_]; [done|].
    simpl. by destruct (rio_closeDest io).
  - destruct (Hdec eq_refl) as [[d Hd] Hnew]. rewrite Hd, Hnew. simpl.
    rewrite Hcopy. simpl. destruct (decide _) as [|_]; [done|].
    simpl. by destruct (rio_closeDecompressor io), (rio_closeDest io).
Qed.

(** [restoreFile] leaves the recorder alone and logs no task event. *)
Lemma restoreFile_rec fl io cnf fe bm name s :
  rec (restoreFile fl io cnf fe bm name s).1 = rec s.
Proof.
  unfold restoreFile.
  destruct (ReadFile io name (bh s)) as [stored|e]; [|done].
  destruct (fullPath fe cnf) as [path|e]; [|done].
  destruct (rio_MkdirAll io); [done|].
  destruct (rio_Create io); [done|].
  destruct (negb (SkipCompress bm)); [|done].
  by destruct (selectDecompressor fl bm).
Qed.

Lemma restoreFile_extends fl io cnf fe bm name s :
  extends (inner (fun _ => true)) s (restoreFile fl io cnf fe bm name s).1.
Proof.
  unfold restoreFile.
  destruct (ReadFile io name (bh s)) as [stored|e]; [|apply extends_refl].
  destruct (fullPath fe cnf) as [path|e]; [|apply extends_refl].
  destruct (rio_MkdirAll io); [apply extends_refl|].
  destruct (rio_Create io); [apply extends_refl|].
  destruct (negb (SkipCompress bm)).
  - destruct (selectDecompressor fl bm) as [d|e]; simpl.
    + eexists [_; _]. simpl. rewrite <- app_assoc.
      split; [done|]. by destruct d.
    + by eexists [_].
  - by eexists [_].
Qed.

(** ** The tasks of [restoreFiles] *)

Lemma restoreTask_error fl w params bm dir i fe s :
  (restoreTask fl w params bm dir i fe s).2
  = (restoreFile fl (w_restoreIO w i) (r_Cnf params)
                 (set_ParentPath fe dir) bm (pretty i) s).2.
Proof.
  unfold restoreTask. by destruct (restoreFile _ _ _ _ _ _ _) as [s1 [e|]].
Qed.

Lemma restoreTask_restoring fl w params bm dir i fe s :
  restoring s (restoreTask fl w params bm dir i fe s).1.1.
Proof.
  unfold restoreTask.
  pose proof (restoreFile_restoring fl (w_restoreIO w i) (r_Cnf params)
                (set_ParentPath fe dir) bm (pretty i) s) as H.
  destruct (restoreFile _ _ _ _ _ _ _) as [s1 [e|]]; simpl in *; [|done].
  eapply restoring_trans; [apply H|apply restoring_record].
Qed.

Lemma restoreTask_extends fl w params bm dir i fe s :
  extends (inner (fun _ => true)) s
          (restoreTask fl w params bm dir i fe s).1.1.
Proof.
  unfold restoreTask.
  pose proof (restoreFile_extends fl (w_restoreIO w i) (r_Cnf params)
                (set_ParentPath fe dir) bm (pretty i) s) as H.
  by destruct (restoreFile _ _ _ _ _ _ _) as [s1 [e|]].
Qed.

(** The recorder of a restore grows: what a copy finds there stays, and
    the error of a copy is added, wrapped. *)
Lemma restoreTask_rec fl w params bm dir i fe s :
  rec (restoreTask fl w params bm dir i fe s).1.1
  = rec s ++ match (restoreTask fl w params bm dir i fe s).2 with
             | Some e => [Wrap e "can't restore file"]
             | None => []
             end.
Proof.
  unfold restoreTask.
  pose proof (restoreFile_rec fl (w_restoreIO w i) (r_Cnf params)
                (set_ParentPath fe dir) bm (pretty i) s) as H.
  destruct (restoreFile _ _ _ _ _ _ _) as [s1 [e|]]; simpl in *.
  - by rewrite H.
  - by rewrite app_nil_r.
Qed.

(** A run of the restore tasks from [s0]: nothing is deleted, what is
    created is there, and a task whose copy ran ended with the result of
    [restoreFile] on its entry, which is on record when it is an
    error. *)
Lemma restore_pool_spec fl w params bm dir sched c entries s0 :
  let p := prun (r_Concurrency params) rec_hasErrors rec_recordError
                (restoreTask fl w params bm dir) sched
                (pool_init c entries s0) in
  bh (st p) = bh s0 ∧
  (∀ path, is_Some (fs s0 !! path) → is_Some (fs (st p) !! path)) ∧
  ∃ t, trace (st p) = trace s0 ++ t ∧
       (∀ ev, ev ∈ t → is_delete_event ev = false) ∧
       (∀ path, EvCreate path ∈ t → is_Some (fs (st p) !! path)) ∧
       (∀ i o, EvTaskEnd i (Ran o) ∈ t →
          ∃ fe, entries !! i = Some fe ∧
                o = (restoreFile fl (w_restoreIO w i) (r_Cnf params)
                       (set_ParentPath fe dir) bm (pretty i) s0).2 ∧
                ∀ e, o = Some e →
                     Wrap e "can't restore file" ∈ rec (st p)).
Proof.
  intros p.
  assert (restoring s0 (st p)) as (Hbh & Hfs & t & E & Hdel & Hcre).
  { apply (prun_rel (r_Concurrency params) rec_hasErrors rec_recordError
             (restoreTask fl w params bm dir) restoring
             restoring_refl restoring_trans).
    - apply restoring_record.
    - apply restoreTask_restoring.
    - intros ev s Hev. apply restoring_log; by destruct ev. }
  destruct (prun_pool_trace (r_Concurrency params) rec_hasErrors
              rec_recordError (restoreTask fl w params bm dir)
              (fun _ => true))
    with (sched := sched) (c := c) (entries := entries) (s := s0)
    as (t' & E' & _ & Hends & _).
  { done. }
  { intros e s. exists []. simpl. by rewrite app_nil_r. }
  { apply restoreTask_extends. }
  fold p in E', Hends.
  assert (t' = t) as ->.
  { rewrite E in E'. by apply app_inv_head in E'. }
  destruct (prun_results_decided (r_Concurrency params) rec_hasErrors
              rec_recordError (restoreTask fl w params bm dir)
              (fun s => bh s = bh s0)
              (fun i fe =>
                 (restoreFile fl (w_restoreIO w i) (r_Cnf params)
                    (set_ParentPath fe dir) bm (pretty i) s0).2)
              entries)
    with (sched := sched) (c := c) (s := s0) as [_ [_ Hres]].
  { done. }
  { done. }
  { intros i fe s Hs.
    destruct (restoreTask_restoring fl w params bm dir i fe s) as [-> _].
    done. }
  { intros i fe s Hs. rewrite restoreTask_error.
    by apply restoreFile_error_bh. }
  { done. }
  fold p in Hres.
  pose proof (prun_results_reported (r_Concurrency params) rec_hasErrors
                rec_recordError (restoreTask fl w params bm dir)
                (fun s e => Wrap e "can't restore file" ∈ rec s)) as Hrep.
  specialize (Hrep ltac:(intros e e' s H; simpl; set_solver)
                   ltac:(done)).
  specialize (Hrep
    ltac:(intros i fe s e H; cbv beta in *; rewrite restoreTask_rec;
          set_solver)
    ltac:(intros i fe s e H; cbv beta; rewrite restoreTask_rec, H;
          set_solver)
    sched c entries s0).
  fold p in Hrep.
  split; [done|]. split; [done|]. exists t.
  split; [done|]. split; [done|]. split; [done|].
  intros i o Hi. apply Hends in Hi.
  destruct (Hres i o Hi) as (fe & Hfe & Ho). exists fe.
  split; [done|]. split; [done|]. intros e ->. by apply (Hrep i e).
Qed.

(** ** Restoring a full backup *)

Lemma restore_manifest_entries bm :
  FileEntries (restore_manifest bm) = FileEntries bm ∧
  Incremental (base (restore_manifest bm)) = Incremental (base bm).
Proof. unfold restore_manifest. by destruct (decide _). Qed.

(** C4 (amended): a restore from a manifest [bm] that is not incremental,
    in which the copy of entry [i] gets as far as the hash check and the
    hash of the bytes read from the storage is not the one of the entry.
    [restoreFile] returns the internal error on that entry; when the
    task of the entry ran its copy, it ended with that error and
    [ExecuteRestore] returns an error that carries it; and no event of
    the restore is a deletion, so that every file the restore created,
    the partial ones included, is still there. *)
Theorem hash_mismatch_aborts_full_restore
    fl w sched cancelled params s s' r bm i fe stored :
  ExecuteRestore fl w sched cancelled params s = Some (s', r) →
  getBackupManifestInto w (bh s) = Ok bm →
  Incremental (base bm) = false →
  FileEntries bm !! i = Some fe →
  reaches_hash_check fl (w_restoreIO w i) (r_Cnf params)
    (set_ParentPath fe "") (restore_manifest bm) (pretty i) (bh s)
    stored →
  Pipe.hash_of stored ≠ Hash fe →
  let mismatch := Errorf Code_INTERNAL "hash mismatch" in
  (∀ s0, bh s0 = bh s →
         (restoreFile fl (w_restoreIO w i) (r_Cnf params)
            (set_ParentPath fe "") (restore_manifest bm) (pretty i) s0).2
         = Some mismatch) ∧
  ∃ t, trace s' = trace s ++ t ∧
       (∀ o, EvTaskEnd i (Ran o) ∈ t →
             o = Some mismatch ∧
             ∃ e, r = Err e ∧ Carries mismatch e) ∧
       (∀ ev, ev ∈ t → is_delete_event ev = false) ∧
       (∀ path, EvCreate path ∈ t → is_Some (fs s' !! path)).
Proof.
  intros Hrun Hbm Hinc Hfe Hreach Hhash mismatch.
  assert (∀ s0, bh s0 = bh s →
            (restoreFile fl (w_restoreIO w i) (r_Cnf params)
               (set_ParentPath fe "") (restore_manifest bm) (pretty i)
               s0).2 = Some mismatch) as Hfile.
  { intros s0 Hs0. eapply restoreFile_hash_mismatch; [|done].
    by rewrite Hs0. }
  split; [done|].
  assert (∀ e, s' = s → r = Err e →
            ∃ t, trace s' = trace s ++ t ∧
              (∀ o, EvTaskEnd i (Ran o) ∈ t →
                    o = Some mismatch ∧
                    ∃ e, r = Err e ∧ Carries mismatch e) ∧
              (∀ ev, ev ∈ t → is_delete_event ev = false) ∧
              (∀ path, EvCreate path ∈ t → is_Some (fs s' !! path)))
    as Hearly.
  { intros e -> ->. exists []. rewrite app_nil_r. split; [done|].
    split; [|split]; intros ? Hin; by inversion Hin. }
  unfold ExecuteRestore in Hrun. rewrite Hbm in Hrun.
  destruct (w_createStateFile w) as [e|].
  { injection Hrun as <- <-. by eapply Hearly. }
  rewrite Hinc in Hrun. unfold executeRestoreFullBackup in Hrun.
  destruct (w_prepareToRestore w) as [e|].
  { injection Hrun as <- <-. by eapply Hearly. }
  unfold restoreFiles in Hrun. fold (restore_manifest bm) in Hrun.
  destruct (restore_manifest_entries bm) as [Hentries Hincr].
  rewrite Hincr, Hinc, Hentries in Hrun. unfold Wait in Hrun.
  destruct (restore_pool_spec fl w params (restore_manifest bm) ""
              sched cancelled (FileEntries bm) (set_rec [] s))
    as (_ & _ & t & E & Hdel & Hcre & Htask).
  set (p := prun _ _ _ _ sched _) in *.
  destruct (forallb is_finished (tasks p)); [|done].
  assert (∀ o, EvTaskEnd i (Ran o) ∈ t →
               o = Some mismatch ∧
               Wrap mismatch "can't restore file" ∈ rec (st p)) as Hi.
  { intros o Ho. destruct (Htask i o Ho) as (fe' & Hfe' & -> & Hrec).
    assert (fe' = fe) as -> by congruence.
    rewrite (Hfile (set_rec [] s)) in * by done. split; [done|].
    by apply Hrec. }
  exists t. unfold rec_Error in Hrun.
  destruct (rec (st p)) as [|e0 es] eqn:Hrec; injection Hrun as <- <-.
  - split; [done|]. split; [|done].
    intros o Ho. destruct (Hi o Ho) as [_ H]. by inversion H.
  - split; [done|]. split; [|done].
    intros o Ho. destruct (Hi o Ho) as [-> H]. split; [done|].
    eexists. split; [done|].
    apply carries_wrap. eapply carries_aggr; [apply H|].
    apply carries_wrap, carries_here.
Qed.

Lemma hash_mismatch_aborts_full_restore_witness :
  ∃ s' e,
    ExecuteRestore example_flags world_ok (sequential 1) None
      example_restore_params
      (example_sys
         (stored_backup (stored_manifest false "pgzip" corrupt_data_entry)))
    = Some (s', Err e) ∧
    EvTaskEnd 0 (Ran (Some (Errorf Code_INTERNAL "hash mismatch")))
      ∈ trace s' ∧
    Carries (Errorf Code_INTERNAL "hash mismatch") e ∧
    (∀ ev, ev ∈ trace s' → is_delete_event ev = false) ∧
    (∀ path, EvCreate path ∈ trace s' → is_Some (fs s' !! path)).
Proof.
  set (bm := stored_manifest false "pgzip" corrupt_data_entry).
  destruct (returns_with
              (fun x => (trace x.1,
                         match x.2 with Err _ => true | Ok _ => false end))
              (ExecuteRestore example_flags world_ok (sequential 1) None
                 example_restore_params (example_sys (stored_backup bm)))
              ([EvTaskStart 0; EvCreate "/vt/data/ks/t.ibd";
                EvNewBuiltinDecompressor "pgzip" None;
                EvTaskEnd 0
                  (Ran (Some (Errorf Code_INTERNAL "hash mismatch")))],
               true)
              ltac:(vm_compute; reflexivity))
    as ([s' r] & E & [= Htrace Hr]).
  destruct r as [|e]; [done|]. exists s', e. split; [exact E|].
  destruct (hash_mismatch_aborts_full_restore example_flags world_ok
              (sequential 1) None example_restore_params
              (example_sys (stored_backup bm)) s' (Err e) bm
              0 corrupt_data_entry ["a"; "b"; "c"]%byte E
              ltac:(reflexivity) ltac:(reflexivity) ltac:(reflexivity))
    as (_ & t & Et & Htask & Hdel & Hcre).
  - split; [reflexivity|].
    split; [eexists; vm_compute; reflexivity|].
    split; [reflexivity|]. split; [reflexivity|].
    split; [|reflexivity].
    intros _. split; [eexists; vm_compute; reflexivity|reflexivity].
  - vm_compute. discriminate.
  - simpl in Et. subst t.
    assert (EvTaskEnd 0 (Ran (Some (Errorf Code_INTERNAL "hash mismatch")))
            ∈ trace s') as Hin by (rewrite Htrace; clear; set_solver).
    split; [exact Hin|].
    destruct (Htask _ Hin) as (_ & e' & [= <-] & Hcarries).
    split; [exact Hcarries|]. split; [exact Hdel|exact Hcre].
Defined.

(** C4, as stated, fails for the restore of an incremental backup. The
    copy of the binary log finds a hash mismatch and [restoreFiles]
    returns its error, but the binary log is applied before that error
    is looked at, and on return the applied file and the directory that
    holds the partial files are removed. *)
Lemma hash_mismatch_in_incremental_restore_deletes :
  ¬ mismatch_aborts_as_claimed example_flags world_ok (sequential 1) None
      example_restore_params
      (example_sys
         (stored_backup
            (stored_manifest true "pgzip" corrupt_binlog_entry))).
Proof.
  intros Hclaim.
  destruct (returns_with (fun x => trace x.1)
              (ExecuteRestore example_flags world_ok (sequential 1) None
                 example_restore_params
                 (example_sys
                    (stored_backup
                       (stored_manifest true "pgzip"
                                        corrupt_binlog_entry))))
              [EvMkdirTemp "/tmp/restore-incremental-1";
               EvTaskStart 0;
               EvCreate
                 "/tmp/restore-incremental-1/vt/bin-logs/vt-bin.000001";
               EvNewBuiltinDecompressor "pgzip" None;
               EvTaskEnd 0
                 (Ran (Some (Errorf Code_INTERNAL "hash mismatch")));
               EvApplyBinlogFile
                 "/tmp/restore-incremental-1/vt/bin-logs/vt-bin.000001"
                 None;
               EvRemove
                 "/tmp/restore-incremental-1/vt/bin-logs/vt-bin.000001";
               EvRemoveAll "/tmp/restore-incremental-1"]
              ltac:(vm_compute; reflexivity))
    as ([s' r] & E & Htrace).
  simpl in Htrace. destruct (Hclaim s' r E) as (_ & Hdel & _).
  - exists 0, "hash mismatch". rewrite Htrace. clear. set_solver.
  - specialize (Hdel (EvRemoveAll "/tmp/restore-incremental-1")).
    simpl in Hdel. assert (true = false) as Habs; [|done].
    apply Hdel. rewrite Htrace. clear. set_solver.
Qed.

(** ** The decompressor of an "external" backup *)

(** C5: for a manifest whose compression engine is "external" and that
    was not taken with [SkipCompress], let [cmd] be the restore-time
    flag when it is not empty and the command of the manifest otherwise.
    When [cmd] is not empty, the decompressor selected is the external
    one running [cmd], and a copy whose source and destination open
    creates exactly that decompressor.  When [cmd] is empty, nothing is
    selected: [restoreFile] returns an error in every case, and once the
    source and the destination are open that error is the
    unsupported-engine error and no decompressor has been created. *)
Theorem external_decompressor_selection fl io cnf fe bm name s :
  CompressionEngine bm = ExternalCompressor →
  SkipCompress bm = false →
  let cmd := if decide (ExternalDecompressorCmd fl ≠ "")
             then ExternalDecompressorCmd fl
             else ExternalDecompressor bm in
  let unsupported :=
    GoErrorf errUnsupportedDeCompressionEngine "value: external" in
  let out := restoreFile fl io cnf fe bm name s in
  selectDecompressor fl bm
  = (if decide (cmd ≠ "") then Ok (ExternalDecompressorCmd_ cmd)
     else Err unsupported) ∧
  (cmd = "" → is_Some out.2) ∧
  ∀ stored path,
    ReadFile io name (bh s) = Ok stored →
    fullPath fe cnf = Ok path →
    rio_MkdirAll io = None →
    rio_Create io = None →
    if decide (cmd ≠ "") then
      trace out.1
      = trace s ++ [EvCreate path;
                    EvNewExternalDecompressor cmd (rio_newDecompressor io)]
      ∧ (∀ e, rio_newDecompressor io = Some e →
              out.2 = Some (Wrap e "can't create decompressor"))
    else
      trace out.1 = trace s ++ [EvCreate path] ∧
      out.2 = Some unsupported ∧
      IsSentinel errUnsupportedDeCompressionEngine unsupported = true.
Proof.
  intros Hengine Hskip cmd unsupported out.
  assert (selectDecompressor fl bm
          = (if decide (cmd ≠ "") then Ok (ExternalDecompressorCmd_ cmd)
             else Err unsupported)) as Hsel.
  { unfold selectDecompressor. subst cmd. rewrite Hengine.
    destruct (decide (ExternalDecompressorCmd fl = "")) as [Hf|Hf];
      destruct (decide (ExternalDecompressor bm = "")) as [Hm|Hm];
      rewrite ?Hf, ?Hm; repeat case_decide; try done; naive_solver. }
  split; [exact Hsel|].
  subst out. unfold restoreFile. rewrite Hskip, Hsel. simpl. split.
  - intros Hcmd. rewrite (decide_False (P := cmd ≠ "")) by (by intros ?).
    destruct (ReadFile io name (bh s)); [|done].
    destruct (fullPath fe cnf); [|done].
    destruct (rio_MkdirAll io); [done|].
    destruct (rio_Create io); [done|].
    simpl. by destruct (rio_closeDest io).
  - intros stored path -> -> -> ->.
    destruct (decide (cmd ≠ "")) as [Hcmd|Hcmd]; simpl.
    + split; [by rewrite <- app_assoc|].
      intros e ->. simpl. by destruct (rio_closeDest io).
    + split; [done|]. split; [by destruct (rio_closeDest io)|].
      reflexivity.
Qed.

Lemma external_decompressor_selection_witness :
  let bm :=
    {| base := base (stored_manifest false "external" corrupt_data_entry);
       CompressionEngine := "external";
       FileEntries := [corrupt_data_entry];
       SkipCompress := false;
       ExternalDecompressor := "zstd -d" |} in
  selectDecompressor example_flags bm
  = Ok (ExternalDecompressorCmd_ "zstd -d") ∧
  trace (restoreFile example_flags (ok_restoreIO ["r"; "o"; "w"]%byte)
           example_cnf corrupt_data_entry bm "0"
           (example_sys (stored_backup bm))).1
  = [EvCreate "/vt/data/ks/t.ibd";
     EvNewExternalDecompressor "zstd -d" None].
Proof.
  intros bm.
  destruct (external_decompressor_selection example_flags
              (ok_restoreIO ["r"; "o"; "w"]%byte) example_cnf
              corrupt_data_entry bm "0" (example_sys (stored_backup bm))
              ltac:(reflexivity) ltac:(reflexivity))
    as (Hsel & _ & Hopen).
  split; [exact Hsel|].
  destruct (Hopen ["a"; "b"; "c"]%byte "/vt/data/ks/t.ibd"
              ltac:(vm_compute; reflexivity) ltac:(vm_compute; reflexivity)
              ltac:(reflexivity) ltac:(reflexivity)) as [Htrace _].
  exact Htrace.
Defined.

End RestoreFacts.

(* ===================================================================== *)
(** * More on the health streamer *)
(* ===================================================================== *)

Module HealthMore.
Import Health HealthRuns HealthFacts.

(** ** Registration *)

(** X1: on an open streamer with a buffer of at least one state,
    [register] returns a channel that was not allocated before, open,
    holding the current state and nothing else, and adds it to the
    clients; [unregister] of that channel gives back the client set as
    it was and leaves the channel open and its buffer as it is. *)
Theorem register_unregister size hs :
  cancel hs = true → 0 < size →
  ∃ ch hs1,
    register size hs = Ret (Some ch, hs1) ∧
    chans hs !! ch = None ∧
    clients hs1 = {[ch]} ∪ clients hs ∧
    chans hs1 !! ch = Some {| ch_cap := size; ch_buf := [state hs];
                             ch_closed := false |} ∧
    state hs1 = state hs ∧
    (ch ∉ clients hs → clients (unregister hs1 ch) = clients hs) ∧
    chans (unregister hs1 ch) = chans hs1.
Proof.
  intros Hopen Hsize. unfold register. rewrite Hopen. simpl.
  unfold send. simpl. rewrite decide_True by done. simpl.
  set (ch := fresh (dom (chans hs))).
  assert (chans hs !! ch = None) as Hfresh.
  { apply not_elem_of_dom. apply is_fresh. }
  eexists ch, _. split; [reflexivity|]. simpl.
  split; [done|]. split; [done|].
  split; [by rewrite lookup_insert_eq|]. split; [done|].
  split; [|done]. intros Hnot. set_solver.
Qed.

Lemma register_unregister_witness :
  ∃ ch hs1,
    register 2 example_streamer = Ret (Some ch, hs1) ∧
    chans hs1 !! ch = Some {| ch_cap := 2; ch_buf := [example_state];
                             ch_closed := false |} ∧
    chans (unregister hs1 ch) = chans hs1.
Proof.
  destruct (register_unregister 2 example_streamer eq_refl)
    as (ch & hs1 & E & _ & _ & Hc & _ & _ & Hu); [lia|].
  by exists ch, hs1.
Defined.

(** ** Broadcasting *)



(** ** What a subscriber finds in its channel *)

Lemma ChangeState_delivers a hs :
  clients_open hs →
  ∃ hs',
    ChangeState a hs = Ret hs' ∧
    state hs' = next_state a (state hs) ∧
    clients_open hs' ∧
    (∀ ch, ch ∉ clients hs →
       chans hs' !! ch = chans hs !! ch ∧ ch ∉ clients hs') ∧
    (∀ ch c, ch ∈ clients hs → chans hs !! ch = Some c →
       chans hs' !! ch = Some (deliver (next_state a (state hs)) c) ∧
       (ch ∈ clients hs' ↔ has_room c)).
Proof.
  intros Hwf. unfold ChangeState. fold (next_state a (state hs)).
  destruct (broadCastToClients_spec (next_state a (state hs))
              (set_state hs (next_state a (state hs))))
    as (hs' & E & Hst & _ & _ & Hwf' & Hout & Hin); [exact Hwf|].
  exists hs'. split; [exact E|]. split; [exact Hst|].
  split; [exact Hwf'|]. split; [exact Hout|exact Hin].
Qed.

(** A channel that left the client set keeps what it holds, whatever
    the state changes. *)
Lemma ChangeStates_left ch c (changes : list stateChange) : ∀ hs,
  clients_open hs → ch ∉ clients hs → chans hs !! ch = Some c →
  ∃ hs',
    ChangeStates changes hs = Ret hs' ∧
    (ch ∉ clients hs') ∧ chans hs' !! ch = Some c.
Proof.
  intros hs Hwf Hnot Hc.
  destruct (ChangeStates_dropped ch c changes hs Hwf Hnot Hc)
    as (hs' & E & _ & Hnot' & Hc').
  by exists hs'.
Qed.

Lemma ChangeStates_buffer ch (changes : list stateChange) :
  ∀ hs c,
  clients_open hs → ch ∈ clients hs → chans hs !! ch = Some c →
  length (ch_buf c) ≤ ch_cap c →
  ∃ hs' c',
    ChangeStates changes hs = Ret hs' ∧
    chans hs' !! ch = Some c' ∧
    ch_cap c' = ch_cap c ∧
    ch_buf c'
    = take (ch_cap c) (ch_buf c ++ broadcasts changes (state hs)) ∧
    ch_closed c'
    = bool_decide (ch_cap c < length (ch_buf c) + length changes) ∧
    (ch ∈ clients hs' ↔ length (ch_buf c) + length changes ≤ ch_cap c).
Proof.
  induction changes as [|a l IH]; intros hs c Hwf Hin Hc Hle.
  - exists hs, c. split; [done|]. split; [done|]. split; [done|].
    simpl. rewrite app_nil_r, Nat.add_0_r.
    split; [by rewrite take_ge|].
    destruct (Hwf ch Hin) as (c0 & Hc0 & Hopen).
    assert (c0 = c) as -> by congruence.
    rewrite bool_decide_eq_false_2 by lia. done.
  - destruct (ChangeState_delivers a hs Hwf)
      as (hs1 & E & Hst & Hwf1 & _ & Hdel).
    destruct (Hdel ch c Hin Hc) as [Hc1 Hin1].
    rewrite (ChangeStates_cons _ _ _ _ E). simpl broadcasts.
    simpl length. unfold has_room in Hin1.
    destruct (decide (length (ch_buf c) < ch_cap c)) as [Hroom|Hfull].
    + destruct (IH hs1 (deliver (next_state a (state hs)) c))
        as (hs' & c' & E' & Hc' & Hcap & Hbuf & Hclosed & Hmem).
      * done.
      * by apply Hin1.
      * done.
      * unfold deliver. rewrite decide_True by done. simpl.
        rewrite length_app. simpl. lia.
      * unfold deliver in Hcap, Hbuf, Hclosed, Hmem.
        rewrite decide_True in Hcap, Hbuf, Hclosed, Hmem by done.
        simpl in *. rewrite length_app in Hclosed, Hmem. simpl in *.
        exists hs', c'. split; [done|]. split; [done|]. split; [done|].
        split; [by rewrite Hbuf, Hst, <- app_assoc|].
        split.
        -- rewrite Hclosed. apply bool_decide_ext. lia.
        -- rewrite Hmem. lia.
    + destruct (ChangeStates_left ch (deliver (next_state a (state hs)) c)
                  l hs1) as (hs' & E' & Hnot' & Hc').
      * done.
      * intros Hx. by apply Hin1 in Hx.
      * done.
      * exists hs', (deliver (next_state a (state hs)) c).
        split; [done|]. split; [done|].
        unfold deliver. rewrite decide_False by done. simpl.
        split; [done|]. split.
        -- rewrite take_app_le by lia. rewrite take_ge by lia. done.
        -- split; [by rewrite bool_decide_eq_true_2 by lia|].
           split; [done|lia].
Qed.

(** X3: a subscriber that registers on an open streamer with buffer
    size [size] and receives nothing during a run of state changes
    finds in its channel, oldest first, the state at registration and
    then the states broadcast, each once and in the order of the
    changes, up to [size] of them.  The channel is closed exactly when
    there were [size] state changes or more, and the subscriber is
    still a client exactly when there were fewer. *)
Theorem subscriber_receives_in_order size hs0 (changes : list stateChange) :
  cancel hs0 = true → clients_open hs0 → 0 < size →
  ∃ ch hs1 hs' c',
    register size hs0 = Ret (Some ch, hs1) ∧
    ChangeStates changes hs1 = Ret hs' ∧
    chans hs' !! ch = Some c' ∧
    ch_buf c' = take size (state hs0 :: broadcasts changes (state hs0)) ∧
    ch_closed c' = bool_decide (size ≤ length changes) ∧
    (ch ∈ clients hs' ↔ length changes < size).
Proof.
  intros Hopen Hwf Hsize.
  destruct (register_spec size hs0 Hopen Hsize Hwf)
    as (ch & hs1 & E & Hwf1 & _ & Hin & Hc).
  assert (state hs1 = state hs0) as Hst.
  { revert E. unfold register. rewrite Hopen. simpl. unfold send. simpl.
    rewrite decide_True by done. simpl. by intros [= _ <-]. }
  destruct (ChangeStates_buffer ch changes hs1 _ Hwf1 Hin Hc)
    as (hs' & c' & E' & Hc' & _ & Hbuf & Hclosed & Hmem); [simpl; lia|].
  simpl in Hbuf, Hclosed, Hmem. rewrite Hst in Hbuf.
  exists ch, hs1, hs', c'. split; [done|]. split; [done|].
  split; [done|]. split; [done|]. split.
  - rewrite Hclosed. apply bool_decide_ext. lia.
  - rewrite Hmem. lia.
Qed.

Lemma subscriber_receives_in_order_witness :
  ∃ ch hs1 hs' c',
    register 2 example_streamer = Ret (Some ch, hs1) ∧
    ChangeStates five_changes hs1 = Ret hs' ∧
    chans hs' !! ch = Some c' ∧
    ch_buf c' = [example_state;
                 next_state (example_change 1) example_state] ∧
    ch_closed c' = true.
Proof.
  destruct (subscriber_receives_in_order 2 example_streamer five_changes
              eq_refl example_streamer_clients_open)
    as (ch & hs1 & hs' & c' & E & E' & Hc & Hbuf & Hclosed & _); [lia|].
  exists ch, hs1, hs', c'. split; [exact E|]. split; [exact E'|].
  split; [exact Hc|]. split; [exact Hbuf|exact Hclosed].
Defined.

(** ** The schema reload *)



End HealthMore.

(* ===================================================================== *)
(** * More on the hashing pipe *)
(* ===================================================================== *)

Module PipeMore.
Import Pipe PipeRuns.

Local Open Scope Z_scope.

(** The digest of a stream does not depend on how it is cut. *)
Lemma crc32_update_app d (a b : list byte) :
  crc32_update (crc32_update d a) b = crc32_update d (a ++ b).
Proof.
  unfold crc32_update. rewrite foldl_app. f_equal. f_equal.
  rewrite Z.lxor_assoc, Z.lxor_nilpotent. apply Z.lxor_0_r.
Qed.

Lemma crc32_update_nil d : crc32_update d [] = d.
Proof.
  unfold crc32_update. simpl.
  rewrite Z.lxor_assoc, Z.lxor_nilpotent. apply Z.lxor_0_r.
Qed.

Lemma Reads_spec k : ∀ bp chunks eof,
  r bp = Some (chunks, eof) →
  ∃ bp',
    Reads k bp = Ret (bp', concat (take k chunks)) ∧
    r bp' = Some (drop k chunks, eof) ∧
    crc32 bp' = crc32_update (crc32 bp) (concat (take k chunks)) ∧
    nn bp' = nn bp + Z.of_nat (length (concat (take k chunks))) ∧
    closed bp' = closed bp ∧ done bp' = done bp.
Proof.
  induction k as [|k IH]; intros bp chunks eof Hr.
  - exists bp. simpl. rewrite ?take_0, ?drop_0. simpl.
    rewrite crc32_update_nil, Z.add_0_r. done.
  - simpl. unfold Read at 1. rewrite Hr.
    destruct chunks as [|p rest]; simpl.
    + match goal with
      | |- context [Reads k ?b] =>
          destruct (IH b [] eof eq_refl)
            as (bp' & E & Hr' & Hc & Hn & Hcl & Hd)
      end.
      rewrite ?take_nil, ?drop_nil in *. simpl in *.
      rewrite E. simpl. exists bp'. split; [done|]. split; [done|].
      rewrite Hc, Hn. rewrite !crc32_update_nil. simpl.
      split; [done|]. split; [lia|done].
    + match goal with
      | |- context [Reads k ?b] =>
          destruct (IH b rest eof eq_refl)
            as (bp' & E & Hr' & Hc & Hn & Hcl & Hd)
      end.
      simpl in *. rewrite E. simpl. exists bp'.
      split; [done|]. split; [done|].
      rewrite Hc, Hn, crc32_update_app, length_app.
      split; [done|]. split; [lia|done].
Qed.

(** X5: [k] reads through a pipe made by [newBackupReader] hand out the
    first [k] chunks of the source, and after them the pipe reports the
    hash of exactly the bytes handed out, as one stream and whatever the
    chunks were, and has counted their number; reads past the end of the
    source hand out nothing and change neither the hash nor the
    count. *)
Theorem reads_hash_the_stream name maxSize chunks eof k :
  ∃ bp',
    Reads k (newBackupReader name maxSize (chunks, eof))
    = Ret (bp', concat (take k chunks)) ∧
    HashString bp' = hash_of (concat (take k chunks)) ∧
    nn bp' = Z.of_nat (length (concat (take k chunks))).
Proof.
  destruct (Reads_spec k (newBackupReader name maxSize (chunks, eof))
              chunks eof eq_refl)
    as (bp' & E & _ & Hc & Hn & _).
  exists bp'. split; [done|]. unfold HashString, hash_of.
  rewrite Hc, Hn. simpl. by rewrite crc32_update_app.
Qed.

(** ** What a close does to the bytes *)

Lemma ioWrite_conserves p wr :
  wr_data (ioWrite p wr).2 ++ drop (ioWrite p wr).1.1 p = wr_data wr ++ p ∧
  ((ioWrite p wr).1.2 = None → (ioWrite p wr).1.1 = length p).
Proof.
  unfold ioWrite. destruct (wr_room wr) as [k|]; [case_decide|]; simpl.
  - by rewrite drop_all, app_nil_r.
  - by rewrite <- app_assoc, take_drop.
  - by rewrite drop_all, app_nil_r.
Qed.

Lemma Flush_conserves b :
  wr_data (b_wr (Flush b).1) ++ b_buf (Flush b).1
  = wr_data (b_wr b) ++ b_buf b ∧
  ((Flush b).2 = None → b_buf (Flush b).1 = [] ∧ b_err b = None).
Proof.
  unfold Flush. destruct (b_err b) as [e|] eqn:Herr; [done|].
  destruct (b_buf b) as [|x buf] eqn:Hbuf; simpl.
  - by rewrite Hbuf.
  - generalize (x :: buf). intros p.
    destruct (ioWrite_conserves p (b_wr b)) as [Hdata Hn].
    destruct (ioWrite p (b_wr b)) as [[n [e|]] wr];
      cbn [fst snd b_wr b_buf] in *; [done|].
    split; [|done]. rewrite app_nil_r, <- Hdata, (Hn eq_refl).
    by rewrite drop_all, app_nil_r.
Qed.

(** X12: [Close] on a writing pipe neither loses nor repeats a byte:
    what the writer underneath has accepted, followed by what is still
    pending in the buffer, is after the call what it was before it,
    whether the flush fails or not; and after a first [Close] that
    returns nil nothing is pending. *)
Theorem Close_conserves_bytes bp bp' err b :
  Close bp = Ret (bp', err) →
  w bp = Some b →
  ∃ b', w bp' = Some b' ∧
        wr_data (b_wr b') ++ b_buf b' = wr_data (b_wr b) ++ b_buf b ∧
        (closed bp = 0%Z → err = None → b_buf b' = []).
Proof.
  unfold Close. intros Hclose Hw. rewrite Hw in Hclose.
  destruct (decide (closed bp = 0%Z)) as [Hopen|Hclosed].
  - destruct (done bp); [done|].
    destruct (Flush_conserves b) as [Hdata Hnil].
    destruct (Flush b) as [b' ferr]. injection Hclose as <- <-.
    exists b'. split; [done|]. split; [done|].
    intros _ Herr. by destruct (Hnil Herr).
  - injection Hclose as <- <-. exists b. by rewrite Hw.
Qed.

Lemma Close_conserves_bytes_witness :
  ∃ bp' e b',
    Close example_failing_pipe = Ret (bp', Some e) ∧
    w bp' = Some b' ∧
    wr_data (b_wr b') ++ b_buf b' = ["x"; "y"; "z"]%byte.
Proof.
  destruct (Close_conserves_bytes example_failing_pipe
              (match Close example_failing_pipe with
               | Ret x => x.1
               | _ => example_failing_pipe
               end)
              (Some (Plain "disk full"))
              {| b_buf := ["x"; "y"; "z"]%byte; b_err := None;
                 b_wr := {| wr_data := []; wr_room := Some 0%nat;
                            wr_fail := Plain "disk full" |} |}
              eq_refl eq_refl)
    as (b' & Hw & Hdata & _).
  by eexists _, _, b'.
Defined.

End PipeMore.

(* ===================================================================== *)
(** * More on the backup engine *)
(* ===================================================================== *)

Module BackupMore.
Import Backup BackupRuns PoolFacts BackupFacts.

(** ** The semaphore *)

Lemma running_insert (l : list tstatus) : ∀ i old new,
  l !! i = Some old →
  length (filter (fun t => is_running t = true) (<[i := new]> l))
  + (if is_running old then 1 else 0)
  = length (filter (fun t => is_running t = true) l)
    + (if is_running new then 1 else 0).
Proof.
  induction l as [|t l IH]; intros i old new Hi; [done|].
  destruct i as [|i]; simpl in *.
  - injection Hi as ->. rewrite !filter_cons.
    destruct old, new; simpl; repeat case_decide; simpl; try done; lia.
  - rewrite !filter_cons. specialize (IH i old new Hi).
    destruct (decide (is_running t = true)); simpl; lia.
Qed.

(** X6: in every run of the file tasks of a backup or of a restore, the
    tasks that are running their copy are those that hold the
    semaphore, and there are never more of them than the concurrency of
    the parameters. *)
Theorem copies_within_concurrency limit hasErrors recordError work
    (sched : list action) (c : option bool) (entries : list FileEntry)
    (s : sys) :
  let p := prun limit hasErrors recordError work sched
                (pool_init c entries s) in
  running_tasks p = held p ∧ held p ≤ limit.
Proof.
  apply (prun_invariant limit hasErrors recordError work
           (fun p => running_tasks p = held p ∧ held p ≤ limit)).
  - intros p a [Hrun Hle]. unfold running_tasks in *.
    unfold pstep, finish_task. destruct a as [i|i|i|d].
    + destruct (tasks p !! i) as [[| |o]|] eqn:Hi; try done.
      destruct (decide (held p < limit)); [|done].
      destruct (ctx p); [|destruct (hasErrors (st p))]; simpl;
        match goal with
        | |- context [<[i := ?new]> (tasks p)] =>
            pose proof (running_insert (tasks p) i Waiting new Hi) as H
        end; simpl in H; lia.
    + destruct (tasks p !! i) as [[| |o]|] eqn:Hi; try done.
      destruct (ctx p); [|done]. simpl.
      pose proof (running_insert (tasks p) i Waiting
                    (Finished AcquireFailed) Hi) as H.
      simpl in H. lia.
    + destruct (tasks p !! i) as [[| |o]|] eqn:Hi; try done.
      destruct (fes p !! i) as [fe|]; [|done].
      destruct (work i fe (st p)) as [[s1 fe'] err]. simpl.
      pose proof (running_insert (tasks p) i Running
                    (Finished (Ran err)) Hi) as H.
      simpl in H. lia.
    + by destruct (ctx p).
  - unfold running_tasks. simpl. split; [|lia].
    induction (length entries) as [|n IH]; [done|].
    simpl. rewrite filter_cons. by rewrite decide_False.
Qed.

(** ** A context that is done *)

(** The pool of a backup whose context is done from the start: no task
    ever runs, the files of the handle stay, and the new events are the
    ends of tasks that made no copy. *)
Lemma cancelled_pool fl w params sched d entries s :
  let p := prun (p_Concurrency params) bh_hasErrors bh_recordError
                (backupTask fl w params) sched
                (pool_init (Some d) entries s) in
  ctx p ≠ None ∧
  (∀ i t, tasks p !! i = Some t → t ≠ Running ∧ ∀ e, t ≠ Finished (Ran e)) ∧
  bh_files (bh (st p)) = bh_files (bh s) ∧
  mysqld (st p) = mysqld s ∧
  ∃ t, trace (st p) = trace s ++ t ∧ ∀ ev, ev ∈ t → ended_without_copy ev.
Proof.
  apply (prun_invariant (p_Concurrency params) bh_hasErrors bh_recordError
           (backupTask fl w params)
           (fun p =>
              ctx p ≠ None ∧
              (∀ i t, tasks p !! i = Some t →
                      t ≠ Running ∧ ∀ e, t ≠ Finished (Ran e)) ∧
              bh_files (bh (st p)) = bh_files (bh s) ∧
              mysqld (st p) = mysqld s ∧
              ∃ t, trace (st p) = trace s ++ t ∧
                   ∀ ev, ev ∈ t → ended_without_copy ev)).
  - intros p a HI.
    pose proof HI as (Hctx & Htasks & Hfiles & Hm & t & Et & Hev).
    assert (∀ i o (s1 : sys),
              (∀ e, o ≠ Ran e) →
              ended_without_copy (EvTaskEnd i o) →
              bh_files (bh s1) = bh_files (bh s) →
              mysqld s1 = mysqld s →
              trace s1 = trace (st p) →
              let q := finish_task i o s1 p in
              ctx q ≠ None ∧
              (∀ j t, tasks q !! j = Some t →
                      t ≠ Running ∧ ∀ e, t ≠ Finished (Ran e)) ∧
              bh_files (bh (st q)) = bh_files (bh s) ∧
              mysqld (st q) = mysqld s ∧
              ∃ t, trace (st q) = trace s ++ t ∧
                   ∀ ev, ev ∈ t → ended_without_copy ev) as Hfinish.
    { intros i o s1 Ho Hend Hf1 Hm1 Ht1. simpl.
      split; [done|]. split; [|split; [done|split; [done|]]].
      - intros j t0 Hj. destruct (decide (j = i)) as [->|Hne].
        + apply list_lookup_insert_Some in Hj as [(_ & <- & _)|[? _]];
            [|done]. split; [done|]. intros e [= ->]. by apply (Ho e).
        + rewrite list_lookup_insert_ne in Hj by done. by eapply Htasks.
      - exists (t ++ [EvTaskEnd i o]). rewrite Ht1, Et, app_assoc.
        split; [done|]. intros ev [Hin| ->%list_elem_of_singleton]%elem_of_app;
          [by apply Hev|done]. }
    unfold pstep. destruct a as [i|i|i|d'].
    + destruct (tasks p !! i) as [[| |o]|] eqn:Hi; try exact HI.
      destruct (decide (held p < p_Concurrency params)); [|exact HI].
      destruct (ctx p) as [d0|]; [|done].
      apply Hfinish; try done. exists i. by right; left.
    + destruct (tasks p !! i) as [[| |o]|] eqn:Hi; try exact HI.
      destruct (ctx p) as [d0|]; [|done].
      apply Hfinish; try done. exists i. by left.
    + destruct (tasks p !! i) as [[| |o]|] eqn:Hi; try exact HI.
      by destruct (Htasks i Running Hi).
    + destruct (ctx p) eqn:E; [|done]. split; [by rewrite E|].
      by destruct HI as (_ & HI').
  - simpl. split; [done|]. split.
    + intros i t Hi. apply lookup_replicate in Hi as [-> _]. done.
    + split; [done|]. split; [done|]. exists []. rewrite app_nil_r.
      split; [done|]. intros ev Hev. by inversion Hev.
Qed.

(** X7: when the context of [backupFiles] is done on entry and there is
    at least one file to copy, no copy is started, whatever the
    schedule: the call returns an error, the handle holds the files it
    held, the daemon is as it was, the manifest is not touched, and the
    only new events are the ends of tasks that made no copy. *)
Theorem cancelled_backup_copies_nothing
    fl w sched d params rp pp fp binlogs uuid s s' r entries :
  files_found w params binlogs = Ok entries →
  entries ≠ [] →
  backupFiles fl w sched (Some d) params rp pp fp binlogs uuid s
  = Some (s', r) →
  r ≠ None ∧
  bh_files (bh s') = bh_files (bh s) ∧
  mysqld s' = mysqld s ∧
  ∃ t, trace s' = trace s ++ t ∧ ∀ ev, ev ∈ t → ended_without_copy ev.
Proof.
  intros Hfound Hne. unfold backupFiles.
  fold (files_found w params binlogs). rewrite Hfound.
  destruct (Wait _ _ _ _ _ _) as [p|] eqn:HW; [|done].
  pose proof (Wait_no_errors (p_Concurrency params) bh_hasErrors
                bh_recordError (backupTask fl w params)
                (fun e s => HasErrors_snoc (bh s) e)
                (fun ev s => eq_refl)
                (backupTask_keeps fl w params)
                (backupTask_records fl w params) sched (Some d) entries
                s p HW) as Hsucc.
  pose proof (cancelled_pool fl w params sched d entries s) as Hpool.
  unfold Wait in HW.
  destruct (forallb is_finished _); [|done]. injection HW as <-.
  simpl in Hpool. destruct Hpool as (_ & Htasks & Hfiles & Hm & Htrace).
  destruct (HasErrors (bh (st _))) eqn:Herr.
  - intros [= <- <-]. split; [by apply HasErrors_Error|done].
  - exfalso. destruct entries as [|fe rest]; [done|].
    specialize (Hsucc Herr 0 ltac:(simpl; lia)).
    destruct (Htasks 0 _ Hsucc) as [_ Hno]. by apply (Hno None).
Qed.

Lemma cancelled_backup_copies_nothing_witness :
  ∃ s' e,
    backupFiles example_flags world_ok (sequential 2) (Some false)
      (example_params "") None None None [] example_uuid
      (example_sys empty_handle)
    = Some (s', Some e) ∧
    bh_files (bh s') = bh_files (bh (example_sys empty_handle)).
Proof.
  destruct (returns_with
              (fun x => match x.2 with Some _ => true | None => false end)
              (backupFiles example_flags world_ok (sequential 2)
                 (Some false) (example_params "") None None None []
                 example_uuid (example_sys empty_handle))
              true ltac:(vm_compute; reflexivity))
    as ([s' r] & E & Hr).
  destruct r as [e|]; [|done]. exists s', e. split; [exact E|].
  destruct (cancelled_backup_copies_nothing example_flags world_ok
              (sequential 2) false (example_params "") None None None []
              example_uuid (example_sys empty_handle) s' (Some e)
              example_entries eq_refl ltac:(done) E)
    as (_ & Hfiles & _).
  exact Hfiles.
Defined.

(** ** An incremental backup and the daemon *)

Lemma flushing_refl s : flushing s s.
Proof. split; [done|]. apply extends_refl. Qed.

Lemma flushing_trans s1 s2 s3 :
  flushing s1 s2 → flushing s2 s3 → flushing s1 s3.
Proof.
  intros (? & ?) (? & ?). split; [congruence|]. by eapply extends_trans.
Qed.

Lemma flushing_incrementalPlan w params :
  respects flushing (incrementalPlan w params).
Proof.
  unfold incrementalPlan.
  respects_tac flushing_refl flushing_trans
               ltac:(intros ? ?; split; (split; [done|by eexists [_]])).
Qed.

(** X8: an incremental backup leaves the daemon as it finds it: it is
    not shut down, its replication is not stopped and its read-only
    state is not changed; the only events of the run are flushes of the
    binary logs, the events of the file tasks and the events of the
    manifest, in that order. *)
Theorem incremental_backup_leaves_daemon fl w sched c params s s' r :
  isIncrementalBackup params = true →
  ExecuteBackup fl w sched c params s = Some (s', r) →
  mysqld s' = mysqld s ∧
  ∃ flushes copies manifest,
    trace s' = trace s ++ flushes ++ copies ++ manifest ∧
    forallb is_flush_event flushes = true ∧
    forallb is_task_event copies = true ∧
    forallb is_manifest_event manifest = true.
Proof.
  intros Hinc. unfold ExecuteBackup. rewrite Hinc.
  unfold executeIncrementalBackup.
  destruct (incrementalPlan w params s) as [[s1 plan]|] eqn:Hplan; [|done].
  destruct (flushing_incrementalPlan w params s s1 plan Hplan)
    as (Hm & flushes & Et & Hflush).
  destruct plan as [[[[[params' toPos] fromPos] binlogs] uuid]|e].
  - destruct (backupFiles _ _ _ _ _ _ _ _ _ _ _) as [[s2 r2]|] eqn:Hbf;
      [|done].
    destruct (backupFiles_spec _ _ _ _ _ _ _ _ _ _ _ _ _ Hbf)
      as (Hm2 & n & copies & manifest & Et2 & Hc & Hmf & _).
    intros Hret. assert (s' = s2) as ->.
    { destruct r2; congruence. }
    split; [congruence|]. exists flushes, copies, manifest.
    split; [|done]. by rewrite Et2, Et, <- app_assoc.
  - intros [= <- <-]. split; [done|]. exists flushes, [], [].
    by rewrite app_nil_r.
Qed.

Lemma incremental_backup_leaves_daemon_witness :
  ∃ s' err,
    ExecuteBackup example_flags world_ok (sequential 3) None
      (example_params "MySQL56/u:1-3") (example_sys empty_handle)
    = Some (s', (true, err)) ∧
    mysqld s' = mysqld (example_sys empty_handle).
Proof.
  destruct (returns_with (fun x => x.2.1)
              (ExecuteBackup example_flags world_ok (sequential 3) None
                 (example_params "MySQL56/u:1-3")
                 (example_sys empty_handle))
              true ltac:(vm_compute; reflexivity))
    as ([s' [usable err]] & E & Hu).
  simpl in Hu. subst usable. exists s', err. split; [exact E|].
  by destruct (incremental_backup_leaves_daemon example_flags world_ok
                 (sequential 3) None (example_params "MySQL56/u:1-3")
                 (example_sys empty_handle) s' (true, err) eq_refl E)
    as [Hm _].
Defined.

End BackupMore.

(* ===================================================================== *)
(** * More on the restore *)
(* ===================================================================== *)

Module RestoreMore.
Import Backup RestoreRuns PoolFacts BackupFacts RestoreFacts.

(** ** A restore that succeeds *)







(** ** What an incremental restore leaves behind *)

Lemma restoreFile_no_apply fl io cnf fe bm name s :
  extends (fun ev => negb (is_apply_event ev)) s
          (restoreFile fl io cnf fe bm name s).1.
Proof.
  unfold restoreFile.
  destruct (ReadFile io name (bh s)) as [stored|e]; [|apply extends_refl].
  destruct (fullPath fe cnf) as [path|e]; [|apply extends_refl].
  destruct (rio_MkdirAll io); [apply extends_refl|].
  destruct (rio_Create io); [apply extends_refl|].
  destruct (negb (SkipCompress bm)).
  - destruct (selectDecompressor fl bm) as [d|e]; simpl.
    + eexists [_; _]. simpl. rewrite <- app_assoc.
      split; [done|]. by destruct d.
    + by eexists [_].
  - by eexists [_].
Qed.

(** [restoreFiles] applies no binary log, and the directory it returns
    for an incremental backup is the temporary directory it made. *)
Lemma restoreFiles_no_apply fl w sched c params bm s s1 dir err :
  restoreFiles fl w sched c params bm s = Some (s1, (dir, err)) →
  extends (fun ev => negb (is_apply_event ev)) s s1 ∧
  (Incremental (base bm) = true → ∀ d, w_MkdirTemp w = Ok d → dir = d).
Proof.
  unfold restoreFiles. fold (restore_manifest bm).
  destruct (restore_manifest_entries bm) as [-> ->].
  destruct (Incremental (base bm)).
  - destruct (w_MkdirTemp w) as [d|e].
    + destruct (Wait _ _ _ _ _ _) as [p|] eqn:HW; [|done].
      intros [= <- <- <-]. split; [|by intros _ ? [= ->]].
      unfold Wait in HW. destruct (forallb is_finished _); [|done].
      injection HW as <-.
      apply (extends_trans _ s (set_rec [] (log (EvMkdirTemp d) s)));
        [by eexists [EvMkdirTemp d]|].
      apply (prun_rel (r_Concurrency params) rec_hasErrors
               rec_recordError
               (restoreTask fl w params (restore_manifest bm) d)
               (extends (fun ev => negb (is_apply_event ev)))
               (extends_refl _) (extends_trans _)).
      * intros e0 s0. exists []. simpl. by rewrite app_nil_r.
      * intros i fe s0. unfold restoreTask.
        pose proof (restoreFile_no_apply fl (w_restoreIO w i)
                      (r_Cnf params) (set_ParentPath fe d)
                      (restore_manifest bm) (pretty i) s0) as H.
        by destruct (restoreFile _ _ _ _ _ _ _) as [s2 [e0|]].
      * intros ev s0 Hev. apply extends_log. by destruct ev.
    + intros [= <- <- <-]. split; [apply extends_refl|done].
  - destruct (Wait _ _ _ _ _ _) as [p|] eqn:HW; [|done].
    intros [= <- <- <-]. split; [|done].
    unfold Wait in HW. destruct (forallb is_finished _); [|done].
    injection HW as <-.
    apply (extends_trans _ s (set_rec [] s));
      [exists []; simpl; by rewrite app_nil_r|].
    apply (prun_rel (r_Concurrency params) rec_hasErrors
             rec_recordError
             (restoreTask fl w params (restore_manifest bm) "")
             (extends (fun ev => negb (is_apply_event ev)))
             (extends_refl _) (extends_trans _)).
    * intros e0 s0. exists []. simpl. by rewrite app_nil_r.
    * intros i fe s0. unfold restoreTask.
      pose proof (restoreFile_no_apply fl (w_restoreIO w i)
                    (r_Cnf params) (set_ParentPath fe "")
                    (restore_manifest bm) (pretty i) s0) as H.
      by destruct (restoreFile _ _ _ _ _ _ _) as [s2 [e0|]].
    * intros ev s0 Hev. apply extends_log. by destruct ev.
Qed.

(** The loop over the binary logs: the files applied without an error
    are those whose removal is deferred. *)
Lemma applyBinlogFiles_spec w cnf dir entries : ∀ applied s s2 applied2 err,
  applyBinlogFiles w cnf dir entries applied s = (s2, applied2, err) →
  fs s2 = fs s ∧
  ∃ t new, trace s2 = trace s ++ t ∧ applied2 = new ++ applied ∧
           ∀ path, EvApplyBinlogFile path None ∈ t → path ∈ new.
Proof.
  induction entries as [|fe rest IH]; intros applied s s2 applied2 err;
    simpl.
  - intros [= <- <- <-]. split; [done|]. exists [], [].
    rewrite app_nil_r. split; [done|]. split; [done|].
    intros path H. by inversion H.
  - destruct (fullPath _ cnf) as [binlogFile|e].
    + destruct (w_ApplyBinlogFile w binlogFile) as [e|] eqn:Happly.
      * intros [= <- <- <-]. split; [done|].
        exists [EvApplyBinlogFile binlogFile (Some e)], [].
        split; [done|]. split; [done|].
        intros path H%list_elem_of_singleton. done.
      * intros Hrest. apply IH in Hrest
          as (Hfs & t & new & Et & -> & Hin).
        split; [done|].
        exists (EvApplyBinlogFile binlogFile None :: t),
               (new ++ [binlogFile]).
        split; [by rewrite Et; simpl; rewrite <- app_assoc|].
        split; [by rewrite <- app_assoc|].
        intros path [[= ->]|H]%elem_of_cons; set_solver.
    + intros [= <- <- <-]. split; [done|]. exists [], [].
      rewrite app_nil_r. split; [done|]. split; [done|].
      intros path H. by inversion H.
Qed.

(** The deferred removals, last first. *)
Lemma Removes_spec (l : list string) : ∀ s,
  (∀ path, fs (foldl (flip Remove) s l) !! path
           = if decide (path ∈ l) then None else fs s !! path) ∧
  trace (foldl (flip Remove) s l) = trace s ++ (EvRemove <$> l).
Proof.
  induction l as [|p l IH]; intros s; simpl.
  - split; [done|by rewrite app_nil_r].
  - destruct (IH (Remove p s)) as [Hfs Ht]. split.
    + intros path. rewrite Hfs. simpl.
      destruct (decide (path ∈ l)) as [Hl|Hl].
      * rewrite decide_True; [done|set_solver].
      * destruct (decide (path = p)) as [->|Hne].
        -- rewrite decide_True by set_solver. by rewrite lookup_delete_eq.
        -- rewrite decide_False by set_solver.
           by rewrite lookup_delete_ne.
    + rewrite Ht. simpl. by rewrite <- app_assoc.
Qed.

Lemma RemoveAll_spec dir s :
  trace (RemoveAll dir s) = trace s ++ [EvRemoveAll dir] ∧
  (∀ path, fs s !! path = None → fs (RemoveAll dir s) !! path = None) ∧
  (dir ≠ "" → ∀ path, under dir path = true →
                      fs (RemoveAll dir s) !! path = None).
Proof.
  unfold RemoveAll. split; [simpl; by destruct (decide (dir = ""))|].
  split.
  - intros path Hnone. simpl. destruct (decide (dir = "")); [done|].
    simpl. apply map_lookup_filter_None. by left.
  - intros Hdir path Hunder. simpl.
    destruct (decide (dir = "")); [done|]. simpl.
    apply map_lookup_filter_None. right. intros x _. simpl.
    rewrite Hunder. simpl. by intros [].
Qed.

(** X9: the restore of an incremental backup cleans up behind itself,
    however it ends: every binary log that was applied has been removed
    again, the last event is the removal of the temporary directory, and
    no file is left under that directory. *)
Theorem incremental_restore_cleans_up fl w sched c params s s' r bm :
  ExecuteRestore fl w sched c params s = Some (s', r) →
  getBackupManifestInto w (bh s) = Ok bm →
  Incremental (base bm) = true →
  w_createStateFile w = None →
  ∃ t, trace s' = trace s ++ t ∧
       (∀ path, EvApplyBinlogFile path None ∈ t → fs s' !! path = None) ∧
       ∀ dir, w_MkdirTemp w = Ok dir →
              last t = Some (EvRemoveAll dir) ∧
              (dir ≠ "" → ∀ path, under dir path = true →
                                  fs s' !! path = None).
Proof.
  unfold ExecuteRestore. intros Hrun Hbm Hinc Hstate.
  rewrite Hbm, Hstate, Hinc in Hrun.
  unfold executeRestoreIncrementalBackup in Hrun.
  destruct (restoreFiles fl w sched c params bm s)
    as [[s1 [dir err]]|] eqn:Hfiles; [|done].
  destruct (restoreFiles_no_apply _ _ _ _ _ _ _ _ _ _ Hfiles)
    as [(t1 & Et1 & Hno) Hdir].
  specialize (Hdir Hinc).
  assert (∀ path, EvApplyBinlogFile path None ∉ t1) as Hno1.
  { intros path Hin. rewrite forallb_forall in Hno.
    by apply list_elem_of_In, Hno in Hin. }
  destruct (negb (r_MysqldIsReal params)).
  - assert (s' = RemoveAll dir s1) as -> by (destruct r; congruence).
    destruct (RemoveAll_spec dir s1) as (Et & _ & Hunder).
    exists (t1 ++ [EvRemoveAll dir]).
    split; [by rewrite Et, Et1, <- app_assoc|]. split.
    + intros path [Hin|Hin%list_elem_of_singleton]%elem_of_app;
        [by destruct (Hno1 path)|done].
    + intros d Hd. rewrite <- (Hdir d Hd). by rewrite last_snoc.
  - destruct (applyBinlogFiles _ _ _ _ _ _)
      as [[s2 applied] loopErr] eqn:Hloop.
    destruct (applyBinlogFiles_spec _ _ _ _ _ _ _ _ _ Hloop)
      as (Hfs & t2 & new & Et2 & Happlied & Hin2).
    rewrite app_nil_r in Happlied. subst new.
    assert (s' = RemoveAll dir (foldl (flip Remove) s2 applied)) as ->
      by (destruct loopErr, err; simpl in Hrun; congruence).
    destruct (Removes_spec applied s2) as [Hgone Et3].
    destruct (RemoveAll_spec dir (foldl (flip Remove) s2 applied))
      as (Et & Hstay & Hunder).
    exists (t1 ++ t2 ++ (EvRemove <$> applied) ++ [EvRemoveAll dir]).
    split; [by rewrite Et, Et3, Et2, Et1, <- !app_assoc|]. split.
    + intros path Hin. apply Hstay. rewrite Hgone.
      rewrite decide_True; [done|]. apply Hin2.
      rewrite !elem_of_app in Hin.
      destruct Hin as [Hin|[Hin|[Hin|Hin]]]; [|done| |].
      * by destruct (Hno1 path).
      * apply list_elem_of_fmap in Hin as (? & ? & _). done.
      * by apply list_elem_of_singleton in Hin.
    + intros d Hd. rewrite <- (Hdir d Hd).
      by rewrite !app_assoc, last_snoc.
Qed.

Lemma incremental_restore_cleans_up_witness :
  ∃ s' r,
    ExecuteRestore example_flags world_ok (sequential 1) None
      example_restore_params
      (example_sys
         (stored_backup (stored_manifest true "pgzip" sound_binlog_entry)))
    = Some (s', r) ∧
    last (trace s') = Some (EvRemoveAll "/tmp/restore-incremental-1") ∧
    fs s' !! "/tmp/restore-incremental-1/vt/bin-logs/vt-bin.000001" = None.
Proof.
  set (bm := stored_manifest true "pgzip" sound_binlog_entry).
  destruct (returns_with (fun x => true)
              (ExecuteRestore example_flags world_ok (sequential 1) None
                 example_restore_params (example_sys (stored_backup bm)))
              true ltac:(vm_compute; reflexivity))
    as ([s' r] & E & _).
  exists s', r. split; [exact E|].
  destruct (incremental_restore_cleans_up example_flags world_ok
              (sequential 1) None example_restore_params
              (example_sys (stored_backup bm)) s' r bm E
              ltac:(reflexivity) ltac:(reflexivity) ltac:(reflexivity))
    as (t & Et & _ & Hdir).
  destruct (Hdir "/tmp/restore-incremental-1" eq_refl) as [Hlast Hunder].
  simpl in Et. subst t. split; [exact Hlast|].
  apply Hunder; [done|]. vm_compute. reflexivity.
Defined.

(** ** From a backup to its restore *)







End RestoreMore.
